(** * API gateway of constructor-demo-server: a shallow embedding

    The development follows the gateway sources:
    - [gateway/src/types/index.ts]            (records)
    - [gateway/src/config/services.ts]        (SERVICES, ROUTE_MAPPINGS, GATEWAY_CONFIG)
    - [gateway/src/services/serviceRegistry.ts]
    - [gateway/src/utils/healthCheck.ts]
    - [gateway/src/middleware/auth.ts], [proxy.ts], [rateLimiter.ts]
    - [gateway/src/app.ts]                    (order of the middleware chain)

    Numbers are JavaScript integers and are modelled by [Z]; the clock
    ([Date.now()], [new Date()]) is an explicit argument; [undefined] is
    [None]; a JavaScript [Map] is an insertion-ordered association list;
    a plain header object is a [gmap] keyed by strings. *)

From Stdlib Require Import ZArith List String Ascii Bool Lia Permutation DecimalString.
From stdpp Require Import base option gmap strings list.
Import ListNotations.

#[local] Open Scope string_scope.
#[local] Open Scope Z_scope.

(** ** JavaScript strings *)

Module JsString.

(** [s.startsWith(p)] *)
Definition startsWith (s p : string) : bool := String.prefix p s.

(** [s.substring(n)] : the string without its first [n] characters. *)
Fixpoint substring_from (n : nat) (s : string) : string :=
  match n, s with
  | O, _ => s
  | S _, EmptyString => EmptyString
  | S n', String _ s' => substring_from n' s'
  end.

(** [s.replace(pat, rep)] for a string pattern: only the first (leftmost)
    occurrence of [pat] is replaced.  The replacement strings used by the
    gateway contain no [$] pattern, so [rep] is inserted as it is. *)
Fixpoint replace (pat rep s : string) : string :=
  if String.prefix pat s then rep ++ substring_from (String.length pat) s
  else match s with
       | EmptyString => EmptyString
       | String c s' => String c (replace pat rep s')
       end.

(** JavaScript truthiness of a value of type [string | undefined]. *)
Definition truthy (v : option string) : bool :=
  match v with
  | None => false
  | Some s => negb (String.eqb s "")
  end.

(** [a || b] on values of type [string | undefined]. *)
Definition or (a b : option string) : option string :=
  if truthy a then a else b.

End JsString.

(** ** JavaScript [Map]: keys keep their insertion order *)

Module JsMap.

Definition t (V : Type) : Type := list (string * V).

Definition empty {V} : t V := [].

Fixpoint get {V} (k : string) (m : t V) : option V :=
  match m with
  | [] => None
  | (k', v) :: m' => if String.eqb k k' then Some v else get k m'
  end.

(** [m.set(k, v)]: an existing key keeps its position, a new key goes last. *)
Fixpoint set {V} (k : string) (v : V) (m : t V) : t V :=
  match m with
  | [] => [(k, v)]
  | (k', v') :: m' =>
      if String.eqb k k' then (k, v) :: m' else (k', v') :: set k v m'
  end.

Definition keys {V} (m : t V) : list string := map fst m.
Definition values {V} (m : t V) : list V := map snd m.
Definition size {V} (m : t V) : nat := List.length m.

End JsMap.

(** ** [types/index.ts] *)

Record ServiceConfig := mkServiceConfig {
  name : string;
  url : string;
  healthCheck : string;
  timeout : option Z;
  retries : option Z
}.

Record RouteMapping := mkRouteMapping {
  prefix : string;
  serviceName : string;
  stripPrefix : option bool;
  authRequired : option bool
}.

Inductive HealthState := healthy | unhealthy | unknown.

Record HealthStatus := mkHealthStatus {
  service : string;
  status : HealthState;
  responseTime : option Z;
  lastCheck : Z;
  error : option string
}.

(** Truthiness of an optional boolean field ([if (mapping.stripPrefix)]). *)
Definition flag (b : option bool) : bool :=
  match b with Some true => true | _ => false end.

(** ** [config/services.ts] *)

Definition SERVICES : list ServiceConfig :=
  [ mkServiceConfig "auth-service" "http://localhost:3000" "/health" (Some 5000) (Some 3);
    mkServiceConfig "product-service" "http://localhost:3000" "/health" (Some 5000) (Some 3);
    mkServiceConfig "order-service" "http://localhost:3000" "/health" (Some 5000) (Some 3);
    mkServiceConfig "recommendation-service" "http://localhost:3000" "/health"
      (Some 10000) (Some 2) ].

Definition ROUTE_MAPPINGS : list RouteMapping :=
  [ mkRouteMapping "/api/auth" "auth-service" (Some false) (Some false);
    mkRouteMapping "/api/products" "product-service" (Some false) (Some false);
    mkRouteMapping "/api/orders" "order-service" (Some false) (Some true);
    mkRouteMapping "/api/recommendations" "recommendation-service"
      (Some false) (Some false) ].

Module GATEWAY_CONFIG.
Definition rateLimit_windowMs : Z := 15 * 60 * 1000.
Definition rateLimit_max : Z := 100.
Definition healthCheckInterval : Z := 30000.
Definition jwtSecret : string := "your-super-secret-jwt-key".
End GATEWAY_CONFIG.

(** ** Route resolution ([proxy.ts], first half of [proxyRequest]) *)

(** [ROUTE_MAPPINGS.find(m => path.startsWith(m.prefix))] *)
Definition findMapping (mappings : list RouteMapping) (path : string)
  : option RouteMapping :=
  List.find (fun m => JsString.startsWith path (prefix m)) mappings.

(** The target path computed from the matched rule. *)
Definition targetPathOf (mapping : RouteMapping) (path : string) : string :=
  if flag (stripPrefix mapping) then
    let targetPath := JsString.replace (prefix mapping) "" path in
    if JsString.startsWith targetPath "/" then targetPath
    else "/" ++ targetPath
  else path.

Inductive Resolution :=
| Resolved (mapping : RouteMapping) (svc : ServiceConfig) (targetPath : string)
| RouteNotFound
| ServiceNotRegistered (serviceName : string).

Definition resolve (mappings : list RouteMapping)
    (services : JsMap.t ServiceConfig) (path : string) : Resolution :=
  match findMapping mappings path with
  | None => RouteNotFound
  | Some mapping =>
      match JsMap.get (serviceName mapping) services with
      | None => ServiceNotRegistered (serviceName mapping)
      | Some svc => Resolved mapping svc (targetPathOf mapping path)
      end
  end.

(** ** The HTTP client ([axios]) as the gateway uses it

    What the network does with one outbound call is an input of the model:
    either an HTTP response arrives, or the call fails below HTTP
    (connection refused, timeout, abort, ...).  [axios] resolves with the
    response when [validateStatus] accepts its status and rejects with an
    error carrying the response otherwise; a failure below HTTP rejects
    with an error that has a code and no response. *)

(** A JavaScript number that is finite: [mantissa * 2^exponent]. *)
Record JsNumber := mkJsNumber {
  mantissa : Z;
  exponent : Z
}.

(** The values that [response.data] can be.  With the default
    [transformResponse], [axios] hands over what [JSON.parse] makes of the
    body, or the body itself, a string, when it is empty or not JSON. *)
#[warnings="-register-all"]
Inductive JsData :=
| DNull
| DBoolean (b : bool)
| DNumber (n : JsNumber)
| DString (s : string)
| DArray (items : list JsData)
| DObject (fields : list (string * JsData)).

(** A string stands for the data that is that string. *)
Coercion DString : string >-> JsData.

Record AxiosResponse := mkAxiosResponse {
  resp_status : Z;
  resp_data : JsData;            (* [response.data], after parsing *)
  resp_headers : gmap string string
}.

Inductive NetOutcome :=
| NetResponse (r : AxiosResponse)
| NetFailure (code : string) (message : string).

Record AxiosError := mkAxiosError {
  err_code : option string;
  err_message : string;
  err_response : option AxiosResponse
}.

Definition decimal (z : Z) : string :=
  DecimalString.NilEmpty.string_of_int (Z.to_int z).

Definition axios (validateStatus : Z -> bool) (o : NetOutcome)
  : AxiosError + AxiosResponse :=
  match o with
  | NetResponse r =>
      if validateStatus (resp_status r) then inr r
      else inl (mkAxiosError
                  (Some (if (400 <=? resp_status r) && (resp_status r <? 500)
                         then "ERR_BAD_REQUEST" else "ERR_BAD_RESPONSE"))
                  ("Request failed with status code " ++ decimal (resp_status r))
                  (Some r))
  | NetFailure code message => inl (mkAxiosError (Some code) message None)
  end.

(** ** [services/serviceRegistry.ts] *)

Record ServiceRegistry := mkServiceRegistry {
  services : JsMap.t ServiceConfig;
  healthStatuses : JsMap.t HealthStatus;
  healthCheckInterval : option nat   (* handle returned by [setInterval] *)
}.

Definition set_healthStatus (this : ServiceRegistry) (k : string)
    (hs : HealthStatus) : ServiceRegistry :=
  mkServiceRegistry (services this) (JsMap.set k hs (healthStatuses this))
    (healthCheckInterval this).

(** [initializeServices]: one [forEach] step, then the whole loop. *)
Definition registerService (now : Z) (this : ServiceRegistry)
    (service : ServiceConfig) : ServiceRegistry :=
  mkServiceRegistry
    (JsMap.set (name service) service (services this))
    (JsMap.set (name service)
       (mkHealthStatus (name service) unknown None now None)
       (healthStatuses this))
    (healthCheckInterval this).

Definition initializeServices (configured : list ServiceConfig) (now : Z)
    (this : ServiceRegistry) : ServiceRegistry :=
  fold_left (registerService now) configured this.

(** [new ServiceRegistry()] *)
Definition newServiceRegistry (configured : list ServiceConfig) (now : Z)
  : ServiceRegistry :=
  initializeServices configured now
    (mkServiceRegistry JsMap.empty JsMap.empty None).

Definition getService (this : ServiceRegistry) (serviceName : string)
  : option ServiceConfig :=
  JsMap.get serviceName (services this).

Definition getHealthStatus (this : ServiceRegistry) (serviceName : string)
  : option HealthStatus :=
  JsMap.get serviceName (healthStatuses this).

Definition getAllHealthStatuses (this : ServiceRegistry) : list HealthStatus :=
  JsMap.values (healthStatuses this).

Definition getServiceNames (this : ServiceRegistry) : list string :=
  JsMap.keys (services this).

(** [getServiceByRoute]: the route table is the one that
    [require('../config/services')] gives, here the argument [mappings]. *)
Definition getServiceByRoute (mappings : list RouteMapping)
    (this : ServiceRegistry) (routePath : string) : option ServiceConfig :=
  match List.find (fun mapping => JsString.startsWith routePath (prefix mapping))
          mappings with
  | None => None
  | Some mapping => JsMap.get (serviceName mapping) (services this)
  end.

Definition isServiceHealthy (this : ServiceRegistry) (serviceName : string)
  : bool :=
  match JsMap.get serviceName (healthStatuses this) with
  | Some hs => match status hs with healthy => true | _ => false end
  | None => false
  end.

(** What one health probe meets: the outcome of the GET and the time at
    which it is known. *)
Record Probe := mkProbe {
  probe_outcome : NetOutcome;
  probe_finishedAt : Z
}.

(** [checkServiceHealth] runs in two steps.  Up to the [await] it only reads
    [this.services]; an unknown name resolves at once.  The rest runs when
    the GET settles, on the registry as it is at that moment. *)
Inductive ProbeStart :=
| ResolvedAtOnce (hs : HealthStatus)
| Awaiting (service : ServiceConfig) (startTime : Z).

Definition checkServiceHealth_start (this : ServiceRegistry)
    (serviceName : string) (now : Z) : ProbeStart :=
  match JsMap.get serviceName (services this) with
  | None =>
      ResolvedAtOnce
        (mkHealthStatus serviceName unknown None now
           (Some "Service not found in registry"))
  | Some service => Awaiting service now
  end.

Definition checkServiceHealth_settle (this : ServiceRegistry)
    (serviceName : string) (startTime : Z) (p : Probe)
  : ServiceRegistry * HealthStatus :=
  match axios (fun st => st =? 200) (probe_outcome p) with
  | inr _ =>
      let healthStatus :=
        mkHealthStatus serviceName healthy
          (Some (probe_finishedAt p - startTime)) (probe_finishedAt p) None in
      (set_healthStatus this serviceName healthStatus, healthStatus)
  | inl err =>
      let healthStatus :=
        mkHealthStatus serviceName unhealthy None (probe_finishedAt p)
          (Some (err_message err)) in
      (set_healthStatus this serviceName healthStatus, healthStatus)
  end.

(** One call of [checkServiceHealth] with nothing interleaved. *)
Definition checkServiceHealth (this : ServiceRegistry) (serviceName : string)
    (now : Z) (p : Probe) : ServiceRegistry * HealthStatus :=
  match checkServiceHealth_start this serviceName now with
  | ResolvedAtOnce hs => (this, hs)
  | Awaiting _ startTime => checkServiceHealth_settle this serviceName startTime p
  end.

(** [checkAllServicesHealth]: every probe is started, in the order of
    [this.services.keys()]; the GETs then settle in an order the gateway does
    not choose ([completion], a list of service names); [Promise.all]
    resolves, with the records in the order of the started probes, once all
    of them have settled, and stays pending ([None]) before that.  The
    registry that is returned is that of a round during which no probe of
    another round settles; for rounds that overlap see [settleInOrder]. *)
Definition settleOne (net : string -> Probe) (now : Z)
    (acc : ServiceRegistry * gmap string HealthStatus) (serviceName : string)
  : ServiceRegistry * gmap string HealthStatus :=
  let '(this, settled) := acc in
  match settled !! serviceName with
  | Some _ => acc                                 (* a promise settles once *)
  | None =>
      match checkServiceHealth_start this serviceName now with
      | ResolvedAtOnce hs => (this, <[serviceName := hs]> settled)
      | Awaiting _ startTime =>
          let '(this', hs) :=
            checkServiceHealth_settle this serviceName startTime (net serviceName) in
          (this', <[serviceName := hs]> settled)
      end
  end.

Definition checkAllServicesHealth (this : ServiceRegistry) (now : Z)
    (net : string -> Probe) (completion : list string)
  : ServiceRegistry * option (list HealthStatus) :=
  let started := JsMap.keys (services this) in
  let '(this', settled) :=
    fold_left (settleOne net now)
      (List.filter (fun n => bool_decide (n ∈ started)) completion)
      (this, ∅) in
  (this', mapM (fun n => settled !! n) started).

(** ** [utils/healthCheck.ts]: GET /ready *)

Definition isStatus (st : HealthState) (hs : HealthStatus) : bool :=
  match st, status hs with
  | healthy, healthy | unhealthy, unhealthy | unknown, unknown => true
  | _, _ => false
  end.

Record ReadyBody := mkReadyBody {
  ready_status : string;
  ready_total : nat;
  ready_healthy : nat;
  ready_unhealthy : nat;
  ready_details : list HealthStatus
}.

(** The handler after [await serviceRegistry.checkAllServicesHealth()]. *)
Definition readyResponse (healthStatuses : list HealthStatus) : Z * ReadyBody :=
  let nHealthy := List.length (List.filter (isStatus healthy) healthStatuses) in
  let nUnhealthy := List.length (List.filter (isStatus unhealthy) healthStatuses) in
  let total := List.length healthStatuses in
  let isReady := (0 <? nHealthy)%nat in
  (if isReady then 200 else 503,
   mkReadyBody (if isReady then "ready" else "not ready")
     total nHealthy nUnhealthy healthStatuses).

(** GET /ready: no answer ([None]) while the probes are pending. *)
Definition ready (this : ServiceRegistry) (now : Z) (net : string -> Probe)
    (completion : list string)
  : ServiceRegistry * option (Z * ReadyBody) :=
  let '(this', r) := checkAllServicesHealth this now net completion in
  (this', readyResponse <$> r).

(** ** [utils/healthCheck.ts]: GET /status *)

Record StatusStats := mkStatusStats {
  stats_total : nat;
  stats_healthy : nat;
  stats_unhealthy : nat;
  stats_unknown : nat
}.

Record StatusDetail := mkStatusDetail {
  detail_name : string;
  detail_status : HealthState;
  detail_responseTime : option string;
  detail_lastCheck : Z;
  detail_error : option string
}.

Record StatusBody := mkStatusBody {
  status_stats : StatusStats;
  status_avgResponseTime : string;
  status_details : list StatusDetail
}.

(** [Math.round(a / b)] for an integer [a] and a positive integer [b]:
    halves go up. *)
Definition roundDiv (a b : Z) : Z := (2 * a + b) / (2 * b).

(** [healthStatuses.filter(s => s.responseTime !== undefined)
                   .map(s => s.responseTime!)] *)
Definition responseTimesOf (healthStatuses : list HealthStatus) : list Z :=
  omap responseTime healthStatuses.

(** [responseTimes.length > 0
       ? Math.round(responseTimes.reduce((a, b) => a + b, 0) / responseTimes.length)
       : 0] *)
Definition avgResponseTimeOf (healthStatuses : list HealthStatus) : Z :=
  let responseTimes := responseTimesOf healthStatuses in
  if (0 <? List.length responseTimes)%nat
  then roundDiv (fold_left Z.add responseTimes 0)
         (Z.of_nat (List.length responseTimes))
  else 0.

(** One element of [details]; [s.responseTime ? ... : undefined] takes a
    response time of 0 for absent. *)
Definition statusDetail (s : HealthStatus) : StatusDetail :=
  mkStatusDetail (service s) (status s)
    (match responseTime s with
     | Some t => if t =? 0 then None else Some (decimal t ++ "ms")
     | None => None
     end)
    (lastCheck s) (error s).

(** The handler after [await serviceRegistry.checkAllServicesHealth()];
    [res.json] answers with status 200. *)
Definition statusResponse (healthStatuses : list HealthStatus) : Z * StatusBody :=
  let stats :=
    mkStatusStats (List.length healthStatuses)
      (List.length (List.filter (isStatus healthy) healthStatuses))
      (List.length (List.filter (isStatus unhealthy) healthStatuses))
      (List.length (List.filter (isStatus unknown) healthStatuses)) in
  (200,
   mkStatusBody stats (decimal (avgResponseTimeOf healthStatuses) ++ "ms")
     (map statusDetail healthStatuses)).

(** GET /status: no answer ([None]) while the probes are pending. *)
Definition statusEndpoint (this : ServiceRegistry) (now : Z)
    (net : string -> Probe) (completion : list string)
  : ServiceRegistry * option (Z * StatusBody) :=
  let '(this', r) := checkAllServicesHealth this now net completion in
  (this', statusResponse <$> r).

(** ** [utils/healthCheck.ts]: GET /services *)

Record ServiceEntry := mkServiceEntry {
  entry_name : string;
  entry_url : option string;            (* [service?.url] *)
  entry_status : option HealthState;    (* [health?.status] *)
  entry_lastCheck : option Z            (* [health?.lastCheck] *)
}.

Definition servicesResponse (this : ServiceRegistry) : nat * list ServiceEntry :=
  let serviceNames := getServiceNames this in
  let listed :=
    map (fun name =>
           let service := getService this name in
           let health := getHealthStatus this name in
           mkServiceEntry name (url <$> service) (status <$> health)
             (lastCheck <$> health))
      serviceNames in
  (List.length listed, listed).

(** ** Timers and the periodic health check

    The process owns the set of interval timers that are armed.
    [setInterval] arms a new one and returns its handle; [clearInterval]
    disarms the one it is given.  [launched] counts the rounds of
    [checkAllServicesHealth] that were started and not awaited. *)

Record Runtime := mkRuntime {
  registry : ServiceRegistry;
  armed : list nat;
  nextHandle : nat;
  launched : nat
}.

Definition setInterval (rt : Runtime) : Runtime * nat :=
  (mkRuntime (registry rt) (armed rt ++ [nextHandle rt]) (S (nextHandle rt))
     (launched rt),
   nextHandle rt).

Definition clearInterval (h : nat) (rt : Runtime) : Runtime :=
  mkRuntime (registry rt)
    (List.filter (fun h' => negb (Nat.eqb h' h)) (armed rt))
    (nextHandle rt) (launched rt).

Definition startHealthChecks (rt : Runtime) : Runtime :=
  (* this.checkAllServicesHealth(), not awaited *)
  let rt1 := mkRuntime (registry rt) (armed rt) (nextHandle rt) (S (launched rt)) in
  (* this.healthCheckInterval = setInterval(...) *)
  let '(rt2, h) := setInterval rt1 in
  mkRuntime
    (mkServiceRegistry (services (registry rt2)) (healthStatuses (registry rt2))
       (Some h))
    (armed rt2) (nextHandle rt2) (launched rt2).

Definition stopHealthChecks (rt : Runtime) : Runtime :=
  match healthCheckInterval (registry rt) with
  | Some h => clearInterval h rt
  | None => rt
  end.

(** The registry singleton when its module has been loaded: its own timer
    is not armed, and the timers of the other modules are not in the
    picture (for those see [processAtStart]). *)
Definition boot (configured : list ServiceConfig) (now : Z) : Runtime :=
  mkRuntime (newServiceRegistry configured now) [] 0 0.

(** The gateway process once its modules are loaded: besides the registry
    singleton, [rateLimiter.ts] has armed the interval of its sweep. *)
Definition processAtStart (configured : list ServiceConfig) (now : Z)
  : Runtime :=
  (setInterval (boot configured now)).1.

(** The operations that act on the registry, and their effect. *)
Inductive RegistryOp :=
| OpCheckServiceHealth (serviceName : string) (now : Z) (p : Probe)
| OpCheckAllServicesHealth (now : Z) (net : string -> Probe)
    (completion : list string)
| OpReady (now : Z) (net : string -> Probe) (completion : list string)
| OpStartHealthChecks
| OpStopHealthChecks.

Definition withRegistry (rt : Runtime) (r : ServiceRegistry) : Runtime :=
  mkRuntime r (armed rt) (nextHandle rt) (launched rt).

Definition runOp (rt : Runtime) (op : RegistryOp) : Runtime :=
  match op with
  | OpCheckServiceHealth n now p =>
      withRegistry rt (fst (checkServiceHealth (registry rt) n now p))
  | OpCheckAllServicesHealth now net completion =>
      withRegistry rt (fst (checkAllServicesHealth (registry rt) now net completion))
  | OpReady now net completion =>
      withRegistry rt (fst (ready (registry rt) now net completion))
  | OpStartHealthChecks => startHealthChecks rt
  | OpStopHealthChecks => stopHealthChecks rt
  end.

Definition runOps (rt : Runtime) (ops : list RegistryOp) : Runtime :=
  fold_left runOp ops rt.

(** ** Requests and answers of the gateway *)

Record User := mkUser {
  user_id : string;
  user_email : string
}.

(** The request object as the handlers see it: [path] is [req.path],
    [headers] has lower-case names, [remoteAddress] is
    [req.socket.remoteAddress], [user] is the property set by the auth gate. *)
Record Request := mkRequest {
  path : string;
  method : string;
  body : string;
  headers : gmap string string;
  remoteAddress : option string;
  user : option User
}.

Inductive Body :=
| JsonError (err message : string)             (* res.json({error, message}) *)
| JsonRateLimit (err message : string) (retryAfter : Z)
| Relayed (data : JsData).                     (* res.send(data) *)

Record Answer := mkAnswer {
  ans_status : Z;
  ans_body : Body
}.

(** ** [middleware/auth.ts] *)

Record JWTPayload := mkJWTPayload {
  jwt_id : string;
  jwt_email : string;
  iat : option Z;
  exp : option Z
}.

(** A thrown JavaScript error: its [name] and [message]. *)
Record JsError := mkJsError {
  error_name : string;
  error_message : string
}.

(** What a middleware does: call [next()] on the (mutated) request, or
    answer. *)
Inductive Middleware :=
| Next (req : Request)
| Respond (a : Answer).

(** [req.user = {id, email}; req.headers['x-user-id'] = id; ...] *)
Definition attachIdentity (decoded : JWTPayload) (req : Request) : Request :=
  mkRequest (path req) (method req) (body req)
    (<["x-user-email" := jwt_email decoded]>
       (<["x-user-id" := jwt_id decoded]> (headers req)))
    (remoteAddress req)
    (Some (mkUser (jwt_id decoded) (jwt_email decoded))).

Section Auth.

(** [jwt.verify(token, secret)] of the jsonwebtoken package: it returns the
    payload or throws. *)
Variable jwt_verify : string -> string -> JsError + JWTPayload.

Definition authenticateRequest (req : Request) : Middleware :=
  let authHeader := headers req !! "authorization" in
  match authHeader with
  | Some h =>
      if negb (JsString.truthy authHeader) then
        Respond (mkAnswer 401
          (JsonError "Unauthorized" "No authorization token provided"))
      else if negb (JsString.startsWith h "Bearer ") then
        Respond (mkAnswer 401
          (JsonError "Unauthorized"
             "Invalid authorization format. Expected: Bearer <token>"))
      else
        let token := JsString.substring_from 7 h in
        if negb (JsString.truthy (Some token)) then
          Respond (mkAnswer 401 (JsonError "Unauthorized" "No token provided"))
        else
          match jwt_verify token GATEWAY_CONFIG.jwtSecret with
          | inr decoded => Next (attachIdentity decoded req)
          | inl e =>
              if String.eqb (error_name e) "TokenExpiredError" then
                Respond (mkAnswer 401
                  (JsonError "Token expired"
                     "Your session has expired. Please login again."))
              else if String.eqb (error_name e) "JsonWebTokenError" then
                Respond (mkAnswer 401
                  (JsonError "Invalid token" "Authentication token is invalid"))
              else
                Respond (mkAnswer 500
                  (JsonError "Authentication error"
                     "Could not authenticate request"))
          end
  | None =>
      Respond (mkAnswer 401
        (JsonError "Unauthorized" "No authorization token provided"))
  end.

Definition optionalAuth (req : Request) : Middleware :=
  let authHeader := headers req !! "authorization" in
  match authHeader with
  | Some h =>
      if negb (JsString.truthy authHeader)
         || negb (JsString.startsWith h "Bearer ")
      then Next req
      else
        let token := JsString.substring_from 7 h in
        match jwt_verify token GATEWAY_CONFIG.jwtSecret with
        | inr decoded => Next (attachIdentity decoded req)
        | inl _ => Next req
        end
  | None => Next req
  end.

Definition conditionalAuth (mappings : list RouteMapping) (req : Request)
  : Middleware :=
  match findMapping mappings (path req) with
  | Some mapping =>
      if flag (authRequired mapping) then authenticateRequest req
      else optionalAuth req
  | None => optionalAuth req
  end.

End Auth.

(** ** [middleware/proxy.ts] *)

Record AxiosRequestConfig := mkAxiosRequestConfig {
  cfg_method : string;
  cfg_url : string;
  cfg_data : string;
  cfg_headers : gmap string (option string);   (* [None] is [undefined] *)
  cfg_timeout : Z;
  cfg_maxRedirects : Z
}.

(** The object literal [{...headers, host: undefined, 'X-Forwarded-For': ...,
    'X-Forwarded-Proto': ...}]. *)
Definition outboundHeaders (hdrs : gmap string string)
  : gmap string (option string) :=
  <["X-Forwarded-Proto" :=
      JsString.or (hdrs !! "x-forwarded-proto") (Some "http")]>
    (<["X-Forwarded-For" :=
         JsString.or (hdrs !! "x-forwarded-for") (hdrs !! "x-real-ip")]>
       (<["host" := None]> (Some <$> hdrs))).

(** What [forwardRequest] did: the calls it made, in order, and the delays it
    slept between them. *)
Record ForwardTrace := mkForwardTrace {
  sent : list AxiosRequestConfig;
  delays : list Z
}.

Definition attempts (tr : ForwardTrace) : nat := List.length (sent tr).

(** How an [async] function ends: it returns, or throws ([lastError] may
    still be [null]). *)
Inductive Completion :=
| Returned (response : AxiosResponse)
| Thrown (e : option AxiosError).

(** [error.response && error.response.status >= 400 && error.response.status < 500] *)
Definition isClientError (e : AxiosError) : bool :=
  match err_response e with
  | Some r => (400 <=? resp_status r) && (resp_status r <? 500)
  | None => false
  end.

(** The [for] loop of [forwardRequest].  [remaining] is the number of
    iterations left, [retries + 1 - attempt]; [backend attempt] is what the
    network does with the call of that attempt. *)
Fixpoint forwardLoop (config : AxiosRequestConfig) (backend : Z -> NetOutcome)
    (retries : Z) (remaining : nat) (attempt : Z)
    (lastError : option AxiosError) (tr : ForwardTrace)
  : ForwardTrace * Completion :=
  match remaining with
  | O => (tr, Thrown lastError)
  | S remaining' =>
      let tr1 := mkForwardTrace (sent tr ++ [config]) (delays tr) in
      match axios (fun _ => true) (backend attempt) with
      | inr response => (tr1, Returned response)
      | inl e =>
          if isClientError e then (tr1, Thrown (Some e))
          else
            let tr2 :=
              if attempt <? retries
              then mkForwardTrace (sent tr1) (delays tr1 ++ [2 ^ attempt * 100])
              else tr1 in
            forwardLoop config backend retries remaining' (attempt + 1)
              (Some e) tr2
      end
  end.

Definition forwardRequest (targetUrl method path body : string)
    (hdrs : gmap string string) (opt_timeout opt_retries : option Z)
    (backend : Z -> NetOutcome) : ForwardTrace * Completion :=
  let timeout := default 5000 opt_timeout in
  let retries := default 3 opt_retries in
  let config :=
    mkAxiosRequestConfig method (targetUrl ++ path) body
      (outboundHeaders hdrs) timeout 5 in
  forwardLoop config backend retries (Z.to_nat retries) 1 None
    (mkForwardTrace [] []).

(** The [catch] block of [proxyRequest]. *)
Definition answerFailure (e : AxiosError) : Answer :=
  if bool_decide (err_code e = Some "ECONNREFUSED") then
    mkAnswer 503 (JsonError "Service unavailable" "Could not connect to service")
  else if bool_decide (err_code e = Some "ETIMEDOUT")
          || bool_decide (err_code e = Some "ECONNABORTED") then
    mkAnswer 504 (JsonError "Gateway timeout" "Service took too long to respond")
  else
    match err_response e with
    | Some r => mkAnswer (resp_status r) (Relayed (resp_data r))
    | None => mkAnswer 500 (JsonError "Internal gateway error" (err_message e))
    end.

(** How a handler ends: it answers, or its promise rejects with nothing
    sent (the [catch] block reads [error.message] of a [null] error). *)
Inductive Handled :=
| Answered (a : Answer)
| Unhandled.

(** [proxyRequest]: the calls it made, and the status and the data that it
    hands to [res.status(...).json(...)] or [res.status(...).send(...)].
    What the client receives for them is [respond] below; the headers that
    it sets on a relayed response are [proxyHeaders] below.  What it writes
    to the console is left out; [isServiceHealthy] only decides on a
    warning. *)
Definition proxyRequest (mappings : list RouteMapping)
    (reg : ServiceRegistry) (backend : Z -> NetOutcome) (req : Request)
  : ForwardTrace * Handled :=
  match findMapping mappings (path req) with
  | None =>
      (mkForwardTrace [] [],
       Answered (mkAnswer 404
         (JsonError "Route not found"
            ("No service configured for path: " ++ path req))))
  | Some mapping =>
      match getService reg (serviceName mapping) with
      | None =>
          (mkForwardTrace [] [],
           Answered (mkAnswer 503
             (JsonError "Service unavailable"
                ("Service " ++ serviceName mapping ++ " not found in registry"))))
      | Some service =>
          let targetPath := targetPathOf mapping (path req) in
          match forwardRequest (url service) (method req) targetPath (body req)
                  (headers req) (timeout service) (retries service) backend with
          | (tr, Returned response) =>
              (tr, Answered (mkAnswer (resp_status response)
                               (Relayed (resp_data response))))
          | (tr, Thrown (Some e)) => (tr, Answered (answerFailure e))
          | (tr, Thrown None) => (tr, Unhandled)
          end
      end
  end.

(** ** The headers of a relayed response

    Header names are in lower case, as Node keeps them on both sides: the
    keys of [response.headers] are, and [res.set] is not sensitive to
    case. *)

Definition excludeHeaders : list string :=
  ["connection"; "keep-alive"; "transfer-encoding"; "upgrade"].

(** The response that [proxyRequest] relays on its normal path, with the
    rule that routed it. *)
Definition relayedResponse (mappings : list RouteMapping)
    (reg : ServiceRegistry) (backend : Z -> NetOutcome) (req : Request)
  : option (RouteMapping * AxiosResponse) :=
  match findMapping mappings (path req) with
  | None => None
  | Some mapping =>
      match getService reg (serviceName mapping) with
      | None => None
      | Some service =>
          match forwardRequest (url service) (method req)
                  (targetPathOf mapping (path req)) (body req)
                  (headers req) (timeout service) (retries service) backend with
          | (_, Returned response) => Some (mapping, response)
          | (_, Thrown _) => None
          end
      end
  end.

(** The headers on the response when [proxyRequest] is done, [already]
    being those set before it ran: on its normal path it sets its own
    three, then every header of the upstream's response but the four
    excluded ones, each over what was there under that name; on the other
    paths it sets none.  [duration] is the time the call took and
    [generated] what [generateRequestId()] gives, were it called.  Values
    are strings as the upstream sent them; the charset that [res.set] adds
    to a [content-type] without one is left out. *)
Definition proxyHeaders (duration : Z) (generated : string)
    (mappings : list RouteMapping) (reg : ServiceRegistry)
    (backend : Z -> NetOutcome) (req : Request)
    (already : gmap string string) : gmap string string :=
  match relayedResponse mappings reg backend req with
  | None => already
  | Some (mapping, response) =>
      let own : gmap string string :=
        <["x-gateway-service" := serviceName mapping]>
          (<["x-response-time" := decimal duration ++ "ms"]>
             (<["x-request-id" :=
                  default generated
                    (JsString.or (headers req !! "x-request-id") (Some generated))]>
                already)) in
      filter (fun kv => bool_decide (kv.1 ∉ excludeHeaders)) (resp_headers response)
      ∪ own
  end.

(** ** From the upstream's bytes to the client's bytes

    [proxyRequest] does not touch the body itself: [axios] parses it before
    the handler sees it, and [res.send] writes what it makes of the parsed
    value.  [JSON.parse] and [JSON.stringify] are arguments of the model, and
    so is what is particular to the installed major version of Express:
    [sendNumber] is what [res.status(status).send(n)] takes for status and
    chunk when [n] is a number (Express 5 sends [JSON.stringify(n)] under
    the status, Express 4 takes [n] for the status), and [bodyless] tells
    the statuses that are sent with an empty body (204 and 304, and 205 in
    Express 5).  [validatorsMatch] is whether the validators of a
    conditional request ([If-None-Match], [If-Modified-Since]) match
    those of the response that carries the chunk. *)





Section Express.

Variable JSON_stringify : JsData -> string.
Variable sendNumber : Z -> JsNumber -> Z * string.
Variable bodyless : Z -> bool.
Variable validatorsMatch : string -> bool.





End Express.

(** ** [middleware/rateLimiter.ts] *)

Record RateLimitEntry := mkRateLimitEntry {
  count : Z;
  resetTime : Z
}.

(** The three [X-RateLimit-*] headers; [rl_reset] is the instant that
    [toISOString] renders. *)
Record RateLimitHeaders := mkRateLimitHeaders {
  rl_limit : Z;
  rl_remaining : Z;
  rl_reset : Z
}.

(** [Math.ceil(a / b)] for integers [a] and a positive integer [b]. *)
Definition ceilDiv (a b : Z) : Z := - ((- a) / b).

Definition getClientIdentifier (req : Request) : string :=
  let userId := headers req !! "x-user-id" in
  if JsString.truthy userId then "user:" ++ default "" userId
  else
    let ip :=
      JsString.or
        (JsString.or (headers req !! "x-forwarded-for") (remoteAddress req))
        (Some "unknown") in
    "ip:" ++ default "" ip.

(** The body shared by [rateLimiter] and by the closure that
    [createRateLimiter] returns; they differ in the store, the two numbers
    and the text of the rejection.  [entry.count++] changes the object that
    the [Map] holds, so the store maps the key to the incremented entry
    whether the entry was just created or not. *)
Definition limitRequest (message : string) (windowMs max : Z)
    (store : gmap string RateLimitEntry) (now : Z) (req : Request)
  : gmap string RateLimitEntry * RateLimitHeaders * Middleware :=
  let clientId := getClientIdentifier req in
  let entry :=
    match store !! clientId with
    | Some entry =>
        if now >? resetTime entry then mkRateLimitEntry 0 (now + windowMs)
        else entry
    | None => mkRateLimitEntry 0 (now + windowMs)
    end in
  let entry := mkRateLimitEntry (count entry + 1) (resetTime entry) in
  let store := <[clientId := entry]> store in
  let remaining := Z.max 0 (max - count entry) in
  let hdrs := mkRateLimitHeaders max remaining (resetTime entry) in
  if count entry >? max then
    (store, hdrs,
     Respond (mkAnswer 429
       (JsonRateLimit "Too many requests" message
          (ceilDiv (resetTime entry - now) 1000))))
  else (store, hdrs, Next req).

Definition rateLimiter :=
  limitRequest
    ("You have exceeded the rate limit of "
       ++ decimal GATEWAY_CONFIG.rateLimit_max ++ " requests per "
       ++ decimal (GATEWAY_CONFIG.rateLimit_windowMs / 1000) ++ "s")
    GATEWAY_CONFIG.rateLimit_windowMs GATEWAY_CONFIG.rateLimit_max.

Definition createRateLimiter (windowMs max : Z) :=
  limitRequest "Rate limit exceeded" windowMs max.

(** The periodic clean-up of the global store. *)
Definition sweep (now : Z) (store : gmap string RateLimitEntry)
  : gmap string RateLimitEntry :=
  filter (fun kv => ¬ (now > resetTime kv.2)) store.

(** ** [app.ts]: the chain a request under [/api] goes through

    [app.use(rateLimiter)] is registered before
    [app.use('/api', conditionalAuth)] and [app.use('/api', proxyRequest)],
    so the three run in this order on one request object. *)

Record ChainResult := mkChainResult {
  chain_clientId : string;          (* the key the rate limiter counted *)
  chain_rateHeaders : RateLimitHeaders;   (* what the limiter gave to [res.set];
                                             [proxyRequest] later sets every
                                             upstream header over them *)
  chain_store : gmap string RateLimitEntry;
  chain_trace : ForwardTrace;
  chain_end : Handled
}.

Definition apiChain (jwt_verify : string -> string -> JsError + JWTPayload)
    (mappings : list RouteMapping) (reg : ServiceRegistry)
    (backend : Z -> NetOutcome) (store : gmap string RateLimitEntry)
    (now : Z) (req : Request) : ChainResult :=
  let '(store', hdrs, limited) := rateLimiter store now req in
  let clientId := getClientIdentifier req in
  match limited with
  | Respond a => mkChainResult clientId hdrs store' (mkForwardTrace [] []) (Answered a)
  | Next req1 =>
      match conditionalAuth jwt_verify mappings req1 with
      | Respond a =>
          mkChainResult clientId hdrs store' (mkForwardTrace [] []) (Answered a)
      | Next req2 =>
          let '(tr, h) := proxyRequest mappings reg backend req2 in
          mkChainResult clientId hdrs store' tr h
      end
  end.

(** The upstream response that the chain relays, when the request gets as
    far as that. *)
Definition chainRelayed (jwt_verify : string -> string -> JsError + JWTPayload)
    (mappings : list RouteMapping) (reg : ServiceRegistry)
    (backend : Z -> NetOutcome) (store : gmap string RateLimitEntry)
    (now : Z) (req : Request) : option (RouteMapping * AxiosResponse) :=
  match (rateLimiter store now req).2 with
  | Respond _ => None
  | Next req1 =>
      match conditionalAuth jwt_verify mappings req1 with
      | Respond _ => None
      | Next req2 => relayedResponse mappings reg backend req2
      end
  end.

(** The three headers that the limiter sets, [toISOString] being
    [new Date(ms).toISOString()]. *)
Definition rateLimitHeaders (toISOString : Z -> string) (h : RateLimitHeaders)
  : gmap string string :=
  <["x-ratelimit-limit" := decimal (rl_limit h)]>
    (<["x-ratelimit-remaining" := decimal (rl_remaining h)]>
       (<["x-ratelimit-reset" := toISOString (rl_reset h)]> ∅)).

(** The headers on the response at the end of the chain, before [res.send]
    adds those of the body. *)
Definition chainHeaders (toISOString : Z -> string) (duration : Z)
    (generated : string)
    (jwt_verify : string -> string -> JsError + JWTPayload)
    (mappings : list RouteMapping) (reg : ServiceRegistry)
    (backend : Z -> NetOutcome) (store : gmap string RateLimitEntry)
    (now : Z) (req : Request) : gmap string string :=
  let '(_, hdrs, limited) := rateLimiter store now req in
  let limiter := rateLimitHeaders toISOString hdrs in
  match limited with
  | Respond _ => limiter
  | Next req1 =>
      match conditionalAuth jwt_verify mappings req1 with
      | Respond _ => limiter
      | Next req2 =>
          proxyHeaders duration generated mappings reg backend req2 limiter
      end
  end.

(** ** Vocabulary of the statements *)

(** [m] is the first rule, in declared order, whose prefix starts [path]. *)
Definition firstMatch (mappings : list RouteMapping) (path : string)
    (m : RouteMapping) : Prop :=
  exists before after,
    mappings = (before ++ m :: after)%list
    /\ Forall (fun m' => JsString.startsWith path (prefix m') = false) before
    /\ JsString.startsWith path (prefix m) = true.

(** The key list after [set]: an existing key stays where it is, a new one
    is appended. *)
Fixpoint addKey (k : string) (ks : list string) : list string :=
  match ks with
  | [] => [k]
  | k' :: ks' => if String.eqb k k' then k :: ks' else k' :: addKey k ks'
  end.

(** The stored health map has the registered names as keys, each once and
    in the same order. *)
Definition keysAgree (r : ServiceRegistry) : Prop :=
  JsMap.keys (healthStatuses r) = JsMap.keys (services r)
  /\ List.NoDup (JsMap.keys (services r)).

(** What [initializeServices] leaves in the two maps. *)
Definition freshRecords (now : Z) (r : ServiceRegistry) : Prop :=
  Forall (fun kv => kv.2 = mkHealthStatus kv.1 unknown None now None)
    (healthStatuses r).

(** A probe succeeds when the health endpoint answers with status 200. *)
Definition probeOk (p : Probe) : bool :=
  match probe_outcome p with
  | NetResponse r => resp_status r =? 200
  | NetFailure _ _ => false
  end.

(** The record that the probe of service [n], started at [now], leaves. *)
Definition settledRecord (n : string) (now : Z) (p : Probe) : HealthStatus :=
  match axios (fun st => st =? 200) (probe_outcome p) with
  | inr _ =>
      mkHealthStatus n healthy (Some (probe_finishedAt p - now))
        (probe_finishedAt p) None
  | inl err =>
      mkHealthStatus n unhealthy None (probe_finishedAt p) (Some (err_message err))
  end.

(** No timer that is armed has a handle that [setInterval] can still
    return. *)
Definition handlesFresh (rt : Runtime) : Prop :=
  Forall (fun h => (h < nextHandle rt)%nat) (armed rt).

Definition isStart (op : RegistryOp) : bool :=
  match op with OpStartHealthChecks => true | _ => false end.

(** The identity that verifying the bearer token of the request yields,
    when the request has one and the verification succeeds. *)
Definition verifiedIdentity (jwt_verify : string -> string -> JsError + JWTPayload)
    (req : Request) : option JWTPayload :=
  match headers req !! "authorization" with
  | Some h =>
      if JsString.startsWith h "Bearer " then
        match jwt_verify (JsString.substring_from 7 h) GATEWAY_CONFIG.jwtSecret with
        | inr decoded => Some decoded
        | inl _ => None
        end
      else None
  | None => None
  end.

(** The identity header [k] of a payload. *)
Definition identityField (k : string) (d : JWTPayload) : string :=
  if String.eqb k "x-user-id" then jwt_id d else jwt_email d.

(** Every call that the chain sends to a backend carries an identity header
    only with the value that a successful verification of this request's
    token gave it. *)
Definition identityOnlyFromVerification
    (jwt_verify : string -> string -> JsError + JWTPayload)
    (mappings : list RouteMapping) (reg : ServiceRegistry)
    (backend : Z -> NetOutcome) (store : gmap string RateLimitEntry)
    (now : Z) (req : Request) : Prop :=
  forall cfg k v,
    In cfg (sent (chain_trace (apiChain jwt_verify mappings reg backend store now req))) ->
    k = "x-user-id" \/ k = "x-user-email" ->
    cfg_headers cfg !! k = Some (Some v) ->
    exists d, verifiedIdentity jwt_verify req = Some d /\ v = identityField k d.

(** The error that [axios] rejects with when the call fails below HTTP. *)
Definition networkError (code message : string) : AxiosError :=
  mkAxiosError (Some code) message None.

(** The back-off delays slept after the failed attempts
    [attempt], ..., [attempt + k - 1]. *)
Definition backoff (attempt : Z) (k : nat) : list Z :=
  map (fun i => 2 ^ (attempt + Z.of_nat i) * 100) (seq 0 k).

(** The requests of one client served one after the other, at the given
    instants. *)
Fixpoint serve (message : string) (windowMs max : Z)
    (store : gmap string RateLimitEntry) (times : list Z) (req : Request)
  : gmap string RateLimitEntry * list (RateLimitHeaders * Middleware) :=
  match times with
  | [] => (store, [])
  | now :: later =>
      let '(store1, hdrs, m) := limitRequest message windowMs max store now req in
      let '(store2, rest) := serve message windowMs max store1 later req in
      (store2, (hdrs, m) :: rest)
  end.

(** What the [n]-th request of a window that ends at [resetAt] gets when it
    arrives at [now]: the three headers, and either [next()] or the 429. *)
Definition verdict (message : string) (max : Z) (req : Request)
    (n resetAt now : Z) : RateLimitHeaders * Middleware :=
  (mkRateLimitHeaders max (Z.max 0 (max - n)) resetAt,
   if n >? max
   then Respond (mkAnswer 429
          (JsonRateLimit "Too many requests" message
             (ceilDiv (resetAt - now) 1000)))
   else Next req).

(** No window of the client is open at [now]: no entry, or an expired one. *)
Definition windowClosed (store : gmap string RateLimitEntry) (key : string)
    (now : Z) : Prop :=
  match store !! key with
  | Some entry => now > resetTime entry
  | None => True
  end.

(** The error that a failed call leaves, if the call failed below HTTP. *)
Definition failureOf (o : NetOutcome) : option AxiosError :=
  match o with
  | NetFailure code message => Some (networkError code message)
  | NetResponse _ => None
  end.

(** The address part of the limiter key:
    [headers['x-forwarded-for'] || socket.remoteAddress || 'unknown']. *)
Definition addressOf (req : Request) : option string :=
  JsString.or
    (JsString.or (headers req !! "x-forwarded-for") (remoteAddress req))
    (Some "unknown").

(** The stored records after the probes named in [settledNames] have
    settled: their entries are overwritten in place, the others stay. *)
Definition overwritten (net : string -> Probe) (now : Z)
    (settledNames : list string) (stored : JsMap.t HealthStatus)
  : JsMap.t HealthStatus :=
  map (fun kv => if bool_decide (kv.1 ∈ settledNames)
                 then (kv.1, settledRecord kv.1 now (net kv.1)) else kv)
    stored.

(** Probes that settle one after the other, each with the name of its
    service, the instant at which it was started and what it met.  The
    probes of rounds that overlap (the periodic one, [/ready], [/status])
    settle in such a sequence, in any order. *)
Definition settleInOrder (this : ServiceRegistry)
    (settles : list (string * Z * Probe)) : ServiceRegistry :=
  fold_left (fun r e => (checkServiceHealth r e.1.1 e.1.2 e.2).1) settles this.

(** The last probe of service [n] that settled, if any did. *)
Definition lastSettle (n : string) (settles : list (string * Z * Probe))
  : option (string * Z * Probe) :=
  List.find (fun e => String.eqb e.1.1 n) (rev settles).


(** An authorization header that is a bearer token that [jwt.verify]
    accepts, resp. rejects with an error that the gate does not know. *)
Definition acceptedBearer (jwt_verify : string -> string -> JsError + JWTPayload)
    (req : Request) (d : JWTPayload) : Prop :=
  exists token,
    headers req !! "authorization" = Some ("Bearer " ++ token)
    /\ token <> ""
    /\ jwt_verify token GATEWAY_CONFIG.jwtSecret = inr d.

Definition unknownVerifyError (jwt_verify : string -> string -> JsError + JWTPayload)
    (req : Request) : Prop :=
  exists token e,
    headers req !! "authorization" = Some ("Bearer " ++ token)
    /\ token <> ""
    /\ jwt_verify token GATEWAY_CONFIG.jwtSecret = inl e
    /\ error_name e <> "TokenExpiredError"
    /\ error_name e <> "JsonWebTokenError".

(** The middleware called [next()]. *)
Definition passed (r : RateLimitHeaders * Middleware) : bool :=
  match r.2 with Next _ => true | Respond _ => false end.

(** * Properties *)

(** ** Strings *)

Lemma prefix_append (p rest : string) : String.prefix p (p ++ rest) = true.
Proof.
  induction p as [|c p IH]; simpl.
  - now destruct rest.
  - destruct (ascii_dec c c) as [_|ne]; [exact IH | now destruct ne].
Qed.

Lemma substring_from_append (p rest : string) :
  JsString.substring_from (String.length p) (p ++ rest) = rest.
Proof. induction p as [|c p IH]; simpl; [reflexivity | exact IH]. Qed.

Lemma prefix_decompose (p s : string) :
  String.prefix p s = true ->
  s = p ++ JsString.substring_from (String.length p) s.
Proof.
  revert s; induction p as [|c p IH]; intros s H; simpl in *.
  - reflexivity.
  - destruct s as [|d s]; simpl in H; [discriminate H|].
    destruct (ascii_dec c d) as [->|]; [|discriminate H].
    change (String d s = String d (p ++ JsString.substring_from (String.length p) s)).
    f_equal. now apply IH.
Qed.

Lemma startsWith_iff (s p : string) :
  JsString.startsWith s p = true <-> exists rest, s = p ++ rest.
Proof.
  unfold JsString.startsWith; split.
  - intros H. eexists. now apply prefix_decompose.
  - intros [rest ->]. apply prefix_append.
Qed.

Lemma replace_unfold (pat rep s : string) :
  JsString.replace pat rep s
  = if String.prefix pat s
    then rep ++ JsString.substring_from (String.length pat) s
    else match s with
         | EmptyString => EmptyString
         | String c s' => String c (JsString.replace pat rep s')
         end.
Proof. destruct s; reflexivity. Qed.

(** Replacing the first occurrence of a prefix removes the prefix. *)
Lemma replace_leading (p rest : string) :
  JsString.replace p "" (p ++ rest) = rest.
Proof.
  rewrite replace_unfold, prefix_append.
  change ("" ++ JsString.substring_from (String.length p) (p ++ rest))
    with (JsString.substring_from (String.length p) (p ++ rest)).
  apply substring_from_append.
Qed.

(** ** Route resolution *)


Lemma findMapping_Some mappings path m :
  findMapping mappings path = Some m -> firstMatch mappings path m.
Proof.
  unfold findMapping, firstMatch.
  induction mappings as [|m0 ms IH]; simpl; [discriminate|].
  destruct (JsString.startsWith path (prefix m0)) eqn:E.
  - intros [= <-]. exists [], ms. auto.
  - intros H. destruct (IH H) as (before & after & -> & Hb & Hm).
    exists (m0 :: before), after. auto.
Qed.

Lemma findMapping_None mappings path :
  findMapping mappings path = None <->
  Forall (fun m => JsString.startsWith path (prefix m) = false) mappings.
Proof.
  unfold findMapping.
  induction mappings as [|m0 ms IH]; simpl.
  - split; auto.
  - destruct (JsString.startsWith path (prefix m0)) eqn:E.
    + split; [discriminate|]. intros H. inversion H; congruence.
    + rewrite IH. split; [now constructor|]. intros H. now inversion H.
Qed.

Lemma targetPathOf_strip mapping rest :
  flag (stripPrefix mapping) = true ->
  targetPathOf mapping (prefix mapping ++ rest)
  = if JsString.startsWith rest "/" then rest else "/" ++ rest.
Proof. intros H. unfold targetPathOf. now rewrite H, replace_leading. Qed.

Lemma targetPathOf_keep mapping path :
  flag (stripPrefix mapping) = false -> targetPathOf mapping path = path.
Proof. intros H. unfold targetPathOf. now rewrite H. Qed.

(** C6. Route resolution takes the first rule, in declared order, whose
    prefix is a prefix of the path; with no such rule the result is
    [RouteNotFound]; with [stripPrefix] the target path is the path without
    the prefix, with a leading slash put back when it is missing, and the
    path itself otherwise; a rule whose service is not in the registry gives
    [ServiceNotRegistered], which is not [RouteNotFound]. *)
Theorem route_resolution (mappings : list RouteMapping)
    (services : JsMap.t ServiceConfig) (path : string) :
  match resolve mappings services path with
  | RouteNotFound =>
      Forall (fun m => forall rest, path <> prefix m ++ rest) mappings
  | Resolved m svc targetPath =>
      firstMatch mappings path m
      /\ JsMap.get (serviceName m) services = Some svc
      /\ exists rest,
           path = prefix m ++ rest
           /\ targetPath =
                if flag (stripPrefix m)
                then (if JsString.startsWith rest "/" then rest else "/" ++ rest)
                else path
  | ServiceNotRegistered n =>
      exists m, firstMatch mappings path m
                /\ n = serviceName m
                /\ JsMap.get n services = None
  end
  /\ (forall n, ServiceNotRegistered n <> RouteNotFound).
Proof.
  split; [|discriminate].
  unfold resolve.
  destruct (findMapping mappings path) as [m|] eqn:F.
  - pose proof (findMapping_Some _ _ _ F) as FM.
    destruct (JsMap.get (serviceName m) services) as [svc|] eqn:G.
    + split; [exact FM|]. split; [exact G|].
      destruct FM as (_ & _ & _ & _ & Hm).
      apply startsWith_iff in Hm as [rest ->]. exists rest. split; [reflexivity|].
      destruct (flag (stripPrefix m)) eqn:S.
      * now apply targetPathOf_strip.
      * now apply targetPathOf_keep.
    + exists m. auto.
  - apply findMapping_None in F.
    eapply List.Forall_impl; [|exact F]. cbv beta.
    intros m Hm rest ->. unfold JsString.startsWith in Hm.
    now rewrite prefix_append in Hm.
Qed.

(** The same resolution on the configured table. *)
Example resolve_orders :
  resolve ROUTE_MAPPINGS (services (newServiceRegistry SERVICES 0)) "/api/orders/17"
  = Resolved (mkRouteMapping "/api/orders" "order-service" (Some false) (Some true))
      (mkServiceConfig "order-service" "http://localhost:3000" "/health"
         (Some 5000) (Some 3))
      "/api/orders/17".
Proof. reflexivity. Qed.

Example resolve_strip :
  targetPathOf (mkRouteMapping "/api/orders" "order-service" (Some true) None)
    "/api/orders"
  = "/".
Proof. reflexivity. Qed.

Example resolve_unknown_route :
  resolve ROUTE_MAPPINGS (services (newServiceRegistry SERVICES 0)) "/metrics"
  = RouteNotFound.
Proof. reflexivity. Qed.

Example resolve_unregistered :
  resolve [mkRouteMapping "/api/pay" "payment-service" None None]
    (services (newServiceRegistry SERVICES 0)) "/api/pay/1"
  = ServiceNotRegistered "payment-service".
Proof. reflexivity. Qed.

(** ** The insertion-ordered map *)


Lemma keys_set {V} (k : string) (v : V) (m : JsMap.t V) :
  JsMap.keys (JsMap.set k v m) = addKey k (JsMap.keys m).
Proof.
  induction m as [|[k' v'] m IH]; simpl; [reflexivity|].
  destruct (String.eqb k k'); simpl; [reflexivity|]. now f_equal.
Qed.

Lemma addKey_present k ks : In k ks -> addKey k ks = ks.
Proof.
  induction ks as [|k' ks IH]; simpl; [tauto|].
  destruct (String.eqb_spec k k') as [->|ne]; [reflexivity|].
  intros [e|i]; [congruence|]. now rewrite IH.
Qed.

Lemma addKey_In k k0 ks : In k0 (addKey k ks) <-> k0 = k \/ In k0 ks.
Proof.
  induction ks as [|k' ks IH]; simpl; [intuition|].
  destruct (String.eqb_spec k k') as [->|ne]; simpl; [intuition|].
  rewrite IH. intuition.
Qed.

Lemma addKey_NoDup k ks : List.NoDup ks -> List.NoDup (addKey k ks).
Proof.
  induction ks as [|k' ks IH]; simpl; intros H.
  - constructor; [intros []|constructor].
  - inversion H as [|? ? Hn Hd]; subst.
    destruct (String.eqb_spec k k') as [->|ne]; [exact H|].
    constructor; [|auto].
    rewrite addKey_In. intros [e|i]; [congruence|contradiction].
Qed.

Lemma get_Some_keys {V} k (v : V) (m : JsMap.t V) :
  JsMap.get k m = Some v -> In k (JsMap.keys m).
Proof.
  induction m as [|[k' v'] m IH]; simpl; [discriminate|].
  destruct (String.eqb_spec k k') as [->|ne]; [auto|]. intros H. right. auto.
Qed.

Lemma get_None_keys {V} k (m : JsMap.t V) :
  JsMap.get k m = None <-> ~ In k (JsMap.keys m).
Proof.
  induction m as [|[k' v'] m IH]; simpl; [intuition|].
  destruct (String.eqb_spec k k') as [->|ne].
  - split; [discriminate|]. intros H. destruct H. now left.
  - rewrite IH. intuition.
Qed.

Lemma keys_set_present {V} k (v : V) (m : JsMap.t V) :
  In k (JsMap.keys m) -> JsMap.keys (JsMap.set k v m) = JsMap.keys m.
Proof. intros H. rewrite keys_set. now apply addKey_present. Qed.

(** ** The registry: what every operation preserves *)


Lemma registerService_keysAgree now r s :
  keysAgree r -> keysAgree (registerService now r s).
Proof.
  intros [E D]. unfold keysAgree, registerService; simpl.
  rewrite !keys_set, E. split; [reflexivity|]. now apply addKey_NoDup.
Qed.

Lemma initializeServices_keysAgree configured now r :
  keysAgree r -> keysAgree (initializeServices configured now r).
Proof.
  unfold initializeServices. revert r.
  induction configured as [|s l IH]; simpl; intros r H; [exact H|].
  apply IH. now apply registerService_keysAgree.
Qed.

Lemma newServiceRegistry_keysAgree configured now :
  keysAgree (newServiceRegistry configured now).
Proof.
  apply initializeServices_keysAgree. split; [reflexivity|constructor].
Qed.

Lemma settle_services this n t p :
  services (checkServiceHealth_settle this n t p).1 = services this.
Proof.
  unfold checkServiceHealth_settle.
  now destruct (axios _ (probe_outcome p)).
Qed.

Lemma settle_keysAgree this n t p :
  In n (JsMap.keys (services this)) ->
  keysAgree this -> keysAgree (checkServiceHealth_settle this n t p).1.
Proof.
  intros Hn [E D]. unfold keysAgree.
  rewrite settle_services. split; [|exact D].
  unfold checkServiceHealth_settle.
  destruct (axios _ (probe_outcome p)); simpl;
    (rewrite keys_set_present; [exact E | now rewrite E]).
Qed.

Lemma checkServiceHealth_services this n t p :
  services (checkServiceHealth this n t p).1 = services this.
Proof.
  unfold checkServiceHealth, checkServiceHealth_start.
  destruct (JsMap.get n (services this)); [apply settle_services|reflexivity].
Qed.

Lemma checkServiceHealth_keysAgree this n t p :
  keysAgree this -> keysAgree (checkServiceHealth this n t p).1.
Proof.
  intros H. unfold checkServiceHealth, checkServiceHealth_start.
  destruct (JsMap.get n (services this)) eqn:G; [|exact H].
  apply settle_keysAgree; [|exact H]. eapply get_Some_keys; eauto.
Qed.

Lemma settleOne_preserves net now acc n :
  keysAgree acc.1 ->
  keysAgree (settleOne net now acc n).1
  /\ services (settleOne net now acc n).1 = services acc.1.
Proof.
  destruct acc as [this settled]; simpl. intros H.
  destruct (settled !! n); [now split|].
  unfold checkServiceHealth_start.
  destruct (JsMap.get n (services this)) eqn:G; [|now split].
  pose proof (settle_keysAgree this n now (net n) (get_Some_keys _ _ _ G) H) as K.
  pose proof (settle_services this n now (net n)) as S.
  destruct (checkServiceHealth_settle this n now (net n)) as [this' hs]; simpl in *.
  now split.
Qed.

Lemma settleAll_preserves net now l acc :
  keysAgree acc.1 ->
  keysAgree (fold_left (settleOne net now) l acc).1
  /\ services (fold_left (settleOne net now) l acc).1 = services acc.1.
Proof.
  revert acc. induction l as [|n l IH]; simpl; intros acc H; [now split|].
  destruct (settleOne_preserves net now acc n H) as [K S].
  destruct (IH _ K) as [K' S']. split; [exact K'|congruence].
Qed.

Lemma checkAllServicesHealth_preserves this now net completion :
  keysAgree this ->
  keysAgree (checkAllServicesHealth this now net completion).1
  /\ services (checkAllServicesHealth this now net completion).1 = services this.
Proof.
  intros H. unfold checkAllServicesHealth.
  pose proof (settleAll_preserves net now
    (List.filter (fun n => bool_decide (n ∈ JsMap.keys (services this))) completion)
    (this, ∅) H) as P.
  destruct (fold_left _ _ _) as [this' settled]. exact P.
Qed.

Lemma ready_registry this now net completion :
  (ready this now net completion).1
  = (checkAllServicesHealth this now net completion).1.
Proof.
  unfold ready. now destruct (checkAllServicesHealth this now net completion).
Qed.

Lemma runOp_preserves rt op :
  keysAgree (registry rt) ->
  keysAgree (registry (runOp rt op))
  /\ services (registry (runOp rt op)) = services (registry rt).
Proof.
  intros H. destruct op; simpl.
  - split; [now apply checkServiceHealth_keysAgree|apply checkServiceHealth_services].
  - now apply checkAllServicesHealth_preserves.
  - rewrite ready_registry. now apply checkAllServicesHealth_preserves.
  - now split.
  - unfold stopHealthChecks.
    destruct (healthCheckInterval (registry rt)); now split.
Qed.

Lemma runOps_preserves ops rt :
  keysAgree (registry rt) ->
  keysAgree (registry (runOps rt ops))
  /\ services (registry (runOps rt ops)) = services (registry rt).
Proof.
  unfold runOps. revert rt.
  induction ops as [|op ops IH]; simpl; intros rt H; [now split|].
  destruct (runOp_preserves rt op H) as [K S].
  destruct (IH _ K) as [K' S']. split; [exact K'|congruence].
Qed.


Lemma set_Forall {V} (P : string * V -> Prop) k v (m : JsMap.t V) :
  P (k, v) -> Forall P m -> Forall P (JsMap.set k v m).
Proof.
  intros Hk. induction m as [|[k' v'] m IH]; simpl; intros H.
  - now constructor.
  - inversion H; subst.
    destruct (String.eqb k k'); constructor; auto.
Qed.

Lemma initializeServices_fresh configured now r :
  freshRecords now r -> freshRecords now (initializeServices configured now r).
Proof.
  unfold initializeServices. revert r.
  induction configured as [|s l IH]; simpl; intros r H; [exact H|].
  apply IH. unfold freshRecords, registerService; simpl.
  now apply set_Forall.
Qed.

Lemma initializeServices_names configured now r n :
  In n (JsMap.keys (services (initializeServices configured now r)))
  <-> In n (JsMap.keys (services r)) \/ In n (map name configured).
Proof.
  unfold initializeServices. revert r.
  induction configured as [|s l IH]; simpl; intros r; [tauto|].
  rewrite IH. unfold registerService; simpl. rewrite keys_set, addKey_In.
  intuition.
Qed.

(** C10. The stored health-status map always has exactly the registered
    service names as keys: the constructor writes one [unknown] record per
    configured name, no operation (single probe, fan-out, [/ready], start
    or stop of the periodic check) changes the key list of either map, and
    [checkServiceHealth] on an unregistered name returns an [unknown]
    record with an error message and leaves the registry as it was. *)
Theorem health_keys_are_registered_names (configured : list ServiceConfig)
    (now : Z) (ops : list RegistryOp) :
  let r0 := newServiceRegistry configured now in
  let r := registry (runOps (boot configured now) ops) in
  (forall n, In n (JsMap.keys (healthStatuses r0)) <-> In n (map name configured))
  /\ Forall (fun kv => kv.2 = mkHealthStatus kv.1 unknown None now None)
       (healthStatuses r0)
  /\ JsMap.keys (healthStatuses r) = JsMap.keys (services r)
  /\ List.NoDup (JsMap.keys (healthStatuses r))
  /\ services r = services r0
  /\ forall n t p,
       getService r n = None ->
       checkServiceHealth r n t p
       = (r, mkHealthStatus n unknown None t (Some "Service not found in registry")).
Proof.
  intros r0 r.
  pose proof (newServiceRegistry_keysAgree configured now) as K0.
  destruct (runOps_preserves ops (boot configured now) K0) as [[E D] S].
  fold r in E, D, S. simpl in S. fold r0 in S.
  split; [|split; [|split; [|split; [|split]]]].
  - intros n. destruct K0 as [E0 _]. fold r0 in E0. rewrite E0.
    unfold r0, newServiceRegistry.
    rewrite initializeServices_names. simpl. tauto.
  - apply initializeServices_fresh. constructor.
  - exact E.
  - now rewrite E.
  - exact S.
  - intros n t p G. unfold getService in G.
    unfold checkServiceHealth, checkServiceHealth_start. now rewrite G.
Qed.

Lemma health_keys_are_registered_names_witness :
  let r := registry (runOps (boot SERVICES 0)
                       [OpStartHealthChecks;
                        OpCheckServiceHealth "order-service" 5
                          (mkProbe (NetFailure "ECONNREFUSED" "connect ECONNREFUSED") 9)]) in
  getService r "payment-service" = None
  /\ checkServiceHealth r "payment-service" 10
       (mkProbe (NetFailure "ECONNREFUSED" "connect ECONNREFUSED") 11)
     = (r, mkHealthStatus "payment-service" unknown None 10
             (Some "Service not found in registry")).
Proof.
  split; [reflexivity|].
  apply (health_keys_are_registered_names SERVICES 0
           [OpStartHealthChecks;
            OpCheckServiceHealth "order-service" 5
              (mkProbe (NetFailure "ECONNREFUSED" "connect ECONNREFUSED") 9)]).
  reflexivity.
Defined.

(** ** The fan-out of health probes *)

Lemma settle_record this n t p :
  (checkServiceHealth_settle this n t p).2 = settledRecord n t p.
Proof.
  unfold checkServiceHealth_settle, settledRecord.
  now destruct (axios _ (probe_outcome p)).
Qed.

Lemma settledRecord_status n t p :
  service (settledRecord n t p) = n
  /\ status (settledRecord n t p) = if probeOk p then healthy else unhealthy.
Proof.
  unfold settledRecord, probeOk, axios.
  destruct (probe_outcome p) as [r|c m]; simpl; [|now split].
  destruct (resp_status r =? 200); now split.
Qed.

(** After the probes named in [l] have settled, exactly those names carry
    their record, whatever the order of [l]. *)
Lemma settleAll_settled net now l :
  forall this (settled : gmap string HealthStatus),
    (forall n, In n l -> In n (JsMap.keys (services this))) ->
    forall n,
      (fold_left (settleOne net now) l (this, settled)).2 !! n
      = match settled !! n with
        | Some hs => Some hs
        | None => if bool_decide (n ∈ l)
                  then Some (settledRecord n now (net n)) else None
        end.
Proof.
  induction l as [|a l IH]; intros this settled Hreg n.
  - cbn [fold_left snd]. destruct (settled !! n); [reflexivity|].
    now rewrite bool_decide_eq_false_2 by apply not_elem_of_nil.
  - cbn [fold_left]. unfold settleOne at 2.
    destruct (settled !! a) as [hs|] eqn:Ea.
    + rewrite IH by (intros; apply Hreg; now right).
      destruct (settled !! n) eqn:En; [reflexivity|].
      assert (n <> a) by congruence.
      rewrite (bool_decide_ext (n ∈ a :: l) (n ∈ l)); [reflexivity|].
      rewrite elem_of_cons. tauto.
    + unfold checkServiceHealth_start.
      destruct (JsMap.get a (services this)) as [svc|] eqn:G.
      2:{ apply get_None_keys in G. destruct G. apply Hreg. now left. }
      pose proof (settle_record this a now (net a)) as R.
      pose proof (settle_services this a now (net a)) as S.
      destruct (checkServiceHealth_settle this a now (net a)) as [this' hs'].
      simpl in R, S. subst hs'.
      rewrite IH by (intros; rewrite S; apply Hreg; now right).
      destruct (String.eqb_spec a n) as [->|ne].
      * rewrite lookup_insert_eq, Ea.
        rewrite bool_decide_eq_true_2; [reflexivity|apply list_elem_of_here].
      * rewrite lookup_insert_ne by exact ne.
        destruct (settled !! n); [reflexivity|].
        rewrite (bool_decide_ext (n ∈ a :: l) (n ∈ l)); [reflexivity|].
        rewrite elem_of_cons.
        split; [|tauto]. intros [e|i]; [congruence|exact i].
Qed.

Lemma mapM_all {A B} (f : A -> option B) (g : A -> B) (l : list A) :
  (forall x, In x l -> f x = Some (g x)) -> mapM f l = Some (map g l).
Proof.
  induction l as [|a l IH]; intros H; [reflexivity|].
  cbn. rewrite (H a) by now left. cbn.
  rewrite IH by (intros; apply H; now right). reflexivity.
Qed.

Lemma mapM_missing {A B} (f : A -> option B) (l : list A) x :
  In x l -> f x = None -> mapM f l = None.
Proof.
  intros Hx Hf. apply mapM_None_2, Exists_exists.
  exists x. split; [now apply list_elem_of_In|exact Hf].
Qed.

(** The value of the promise that [checkAllServicesHealth] returns. *)
Lemma checkAllServicesHealth_result this now net completion :
  (checkAllServicesHealth this now net completion).2
  = mapM (fun n => if bool_decide (n ∈ completion)
                   then Some (settledRecord n now (net n)) else None)
      (JsMap.keys (services this)).
Proof.
  unfold checkAllServicesHealth.
  set (started := JsMap.keys (services this)).
  set (cl := List.filter (fun n => bool_decide (n ∈ started)) completion).
  assert (Hreg : forall n, In n cl -> In n started).
  { intros n Hn. apply filter_In in Hn as [_ Hn].
    apply bool_decide_eq_true_1 in Hn. now apply list_elem_of_In. }
  pose proof (settleAll_settled net now cl this ∅ Hreg) as Q.
  destruct (fold_left _ cl _) as [this' settled]. simpl in *.
  assert (E : forall n, In n started ->
            settled !! n = if bool_decide (n ∈ completion)
                           then Some (settledRecord n now (net n)) else None).
  { intros n Hn. rewrite Q, lookup_empty.
    rewrite (bool_decide_ext (n ∈ cl) (n ∈ completion)); [reflexivity|].
    unfold cl. rewrite !list_elem_of_In, filter_In.
    split; [tauto|]. intros i. split; [exact i|].
    apply bool_decide_eq_true_2. now apply list_elem_of_In. }
  clearbody started. clear -E.
  induction started as [|a l IH]; [reflexivity|].
  cbn. rewrite (E a) by now left.
  rewrite IH by (intros; apply E; now right). reflexivity.
Qed.

Lemma count_unhealthy net now names :
  List.length (List.filter (isStatus unhealthy)
                 (map (fun n => settledRecord n now (net n)) names))
  = List.length (List.filter (fun n => negb (probeOk (net n))) names).
Proof.
  induction names as [|n l IH]; [reflexivity|]. cbn [map List.filter].
  destruct (settledRecord_status n now (net n)) as [_ St].
  unfold isStatus at 1. rewrite St.
  destruct (probeOk (net n)); simpl; now rewrite IH.
Qed.

Lemma count_healthy net now names :
  (List.length (List.filter (isStatus healthy)
                  (map (fun n => settledRecord n now (net n)) names))
   = List.length names
     - List.length (List.filter (fun n => negb (probeOk (net n))) names))%nat.
Proof.
  induction names as [|n l IH]; [reflexivity|]. cbn [map List.filter].
  destruct (settledRecord_status n now (net n)) as [_ St].
  unfold isStatus at 1. rewrite St.
  pose proof (List.filter_length_le (fun n => negb (probeOk (net n))) l).
  destruct (probeOk (net n)); simpl; rewrite IH; lia.
Qed.

(** C7. With [N] registered services of which [M] have a failing probe,
    [checkAllServicesHealth] resolves only when every probe has settled,
    and then with [N] records in the order of the registry, whatever the
    order in which the probes settled, exactly [M] of them unhealthy;
    [GET /ready] then answers 200 exactly when [N - M > 0] and 503
    otherwise, with the records in its body. *)
Theorem fan_out_in_registry_order (this : ServiceRegistry) (now : Z)
    (net : string -> Probe) (completion : list string) :
  let names := JsMap.keys (services this) in
  let N := List.length names in
  let M := List.length (List.filter (fun n => negb (probeOk (net n))) names) in
  ((forall n, In n names -> In n completion) ->
   exists records,
     (checkAllServicesHealth this now net completion).2 = Some records
     /\ records = map (fun n => settledRecord n now (net n)) names
     /\ map service records = names
     /\ List.length records = N
     /\ List.length (List.filter (isStatus unhealthy) records) = M
     /\ exists code body,
          (ready this now net completion).2 = Some (code, body)
          /\ (code = 200 <-> (0 < N - M)%nat)
          /\ (code = 503 <-> (N - M = 0)%nat)
          /\ ready_details body = records
          /\ ready_total body = N
          /\ ready_healthy body = (N - M)%nat
          /\ ready_unhealthy body = M)
  /\ ((exists n, In n names /\ ~ In n completion) ->
      (checkAllServicesHealth this now net completion).2 = None
      /\ (ready this now net completion).2 = None).
Proof.
  intros names N M.
  assert (Rd : (ready this now net completion).2
               = readyResponse <$> (checkAllServicesHealth this now net completion).2).
  { unfold ready. now destruct (checkAllServicesHealth this now net completion). }
  rewrite Rd, checkAllServicesHealth_result. fold names. split.
  - intros Hall.
    set (records := map (fun n => settledRecord n now (net n)) names).
    assert (E : mapM (fun n => if bool_decide (n ∈ completion)
                               then Some (settledRecord n now (net n)) else None)
                  names = Some records).
    { apply mapM_all. intros n Hn.
      rewrite bool_decide_eq_true_2; [reflexivity|].
      apply list_elem_of_In. auto. }
    rewrite E. exists records.
    assert (Hu : List.length (List.filter (isStatus unhealthy) records) = M)
      by apply count_unhealthy.
    assert (Hh : List.length (List.filter (isStatus healthy) records) = (N - M)%nat)
      by apply count_healthy.
    assert (Hl : List.length records = N) by (unfold records; apply length_map).
    split; [reflexivity|]. split; [reflexivity|]. split.
    { unfold records. rewrite map_map.
      rewrite <- (map_id names) at 2. apply map_ext. intros n.
      apply settledRecord_status. }
    split; [exact Hl|]. split; [exact Hu|].
    simpl. unfold readyResponse. rewrite Hh, Hu, Hl.
    eexists _, _. split; [reflexivity|]. simpl.
    destruct (N - M)%nat as [|k]; simpl;
      repeat split; intros; try lia; try discriminate; try reflexivity.
  - intros (n & Hn & Hc).
    rewrite (mapM_missing _ names n Hn); [now split|].
    rewrite bool_decide_eq_false_2; [reflexivity|].
    now rewrite list_elem_of_In.
Qed.

Lemma fan_out_in_registry_order_witness :
  let this := newServiceRegistry SERVICES 0 in
  let net := fun n : string =>
    if String.eqb n "order-service"
    then mkProbe (NetFailure "ECONNREFUSED" "connect ECONNREFUSED") 40
    else mkProbe (NetResponse (mkAxiosResponse 200 "ok" ∅)) 25 in
  let completion :=
    ["recommendation-service"; "order-service"; "auth-service"; "product-service"] in
  exists records,
    (checkAllServicesHealth this 10 net completion).2 = Some records
    /\ map service records
       = ["auth-service"; "product-service"; "order-service"; "recommendation-service"]
    /\ map status records = [healthy; healthy; unhealthy; healthy]
    /\ exists body, (ready this 10 net completion).2 = Some (200, body).
Proof.
  intros this net completion.
  destruct (fan_out_in_registry_order this 10 net completion) as [H _].
  destruct H as (records & E & Er & Hs & _ & _ & code & body & Rd & _).
  { intros n Hn. simpl in Hn. unfold completion. simpl.
    repeat destruct Hn as [<-|Hn]; auto 6; contradiction. }
  exists records. split; [exact E|]. split; [exact Hs|].
  split; [now rewrite Er|].
  exists body. rewrite Rd. f_equal. f_equal.
  assert (R : (ready this 10 net completion).2 = Some (code, body)) by exact Rd.
  vm_compute in R. now injection R as <- _.
Defined.

(** ** The periodic health check *)

Lemma settle_interval this n t p :
  healthCheckInterval (checkServiceHealth_settle this n t p).1
  = healthCheckInterval this.
Proof.
  unfold checkServiceHealth_settle. now destruct (axios _ (probe_outcome p)).
Qed.

Lemma checkServiceHealth_interval this n t p :
  healthCheckInterval (checkServiceHealth this n t p).1 = healthCheckInterval this.
Proof.
  unfold checkServiceHealth, checkServiceHealth_start.
  destruct (JsMap.get n (services this)); [apply settle_interval|reflexivity].
Qed.

Lemma settleAll_interval net now l acc :
  healthCheckInterval (fold_left (settleOne net now) l acc).1
  = healthCheckInterval acc.1.
Proof.
  revert acc. induction l as [|n l IH]; intros acc; [reflexivity|].
  cbn [fold_left]. rewrite IH. destruct acc as [this settled]. simpl.
  destruct (settled !! n); [reflexivity|].
  unfold checkServiceHealth_start.
  destruct (JsMap.get n (services this)); [|reflexivity].
  pose proof (settle_interval this n now (net n)) as S.
  now destruct (checkServiceHealth_settle this n now (net n)).
Qed.

Lemma checkAllServicesHealth_interval this now net completion :
  healthCheckInterval (checkAllServicesHealth this now net completion).1
  = healthCheckInterval this.
Proof.
  unfold checkAllServicesHealth.
  pose proof (settleAll_interval net now
    (List.filter (fun n => bool_decide (n ∈ JsMap.keys (services this))) completion)
    (this, ∅)) as P.
  now destruct (fold_left _ _ _).
Qed.

(** Only [startHealthChecks] writes [this.healthCheckInterval], and only
    the timer functions change the set of armed timers. *)
Lemma runOp_not_start rt op :
  isStart op = false ->
  healthCheckInterval (registry (runOp rt op)) = healthCheckInterval (registry rt)
  /\ (healthCheckInterval (registry rt) = None -> armed (runOp rt op) = armed rt).
Proof.
  destruct op; simpl; intros H; try discriminate.
  - split; [apply checkServiceHealth_interval|reflexivity].
  - split; [apply checkAllServicesHealth_interval|reflexivity].
  - rewrite ready_registry. split; [apply checkAllServicesHealth_interval|reflexivity].
  - unfold stopHealthChecks.
    destruct (healthCheckInterval (registry rt)) eqn:E; simpl; [|now rewrite E].
    split; [exact E|discriminate].
Qed.

Lemma never_started ops rt :
  forallb (fun op => negb (isStart op)) ops = true ->
  healthCheckInterval (registry rt) = None ->
  healthCheckInterval (registry (runOps rt ops)) = None
  /\ armed (runOps rt ops) = armed rt.
Proof.
  unfold runOps. revert rt.
  induction ops as [|op ops IH]; simpl; intros rt H N; [now split|].
  apply andb_prop in H as [H1 H2]. apply negb_true_iff in H1.
  destruct (runOp_not_start rt op H1) as [I A].
  destruct (IH (runOp rt op) H2) as [I' A']; [congruence|].
  split; [exact I'|]. rewrite A'. now apply A.
Qed.

Lemma startHealthChecks_armed rt :
  armed (startHealthChecks rt) = (armed rt ++ [nextHandle rt])%list
  /\ nextHandle (startHealthChecks rt) = S (nextHandle rt)
  /\ healthCheckInterval (registry (startHealthChecks rt)) = Some (nextHandle rt)
  /\ launched (startHealthChecks rt) = S (launched rt).
Proof. now repeat split. Qed.

Lemma started_n_times n rt :
  armed (Nat.iter n startHealthChecks rt)
  = (armed rt ++ seq (nextHandle rt) n)%list
  /\ nextHandle (Nat.iter n startHealthChecks rt) = (nextHandle rt + n)%nat.
Proof.
  induction n as [|n [IHa IHn]].
  - simpl. rewrite app_nil_r. split; [reflexivity|lia].
  - change (Nat.iter (S n) startHealthChecks rt)
      with (startHealthChecks (Nat.iter n startHealthChecks rt)).
    destruct (startHealthChecks_armed (Nat.iter n startHealthChecks rt))
      as (A & Nx & _).
    rewrite A, Nx, IHa, IHn. split; [|lia].
    rewrite <- app_assoc. f_equal.
    replace (S n) with (n + 1)%nat by lia. now rewrite seq_app.
Qed.

Lemma initializeServices_interval configured now r :
  healthCheckInterval (initializeServices configured now r) = healthCheckInterval r.
Proof.
  unfold initializeServices. revert r.
  induction configured as [|s l IH]; simpl; intros r; [reflexivity|].
  now rewrite IH.
Qed.

Lemma boot_not_started configured now :
  healthCheckInterval (registry (boot configured now)) = None.
Proof. apply initializeServices_interval. Qed.

Lemma filter_all_kept {A} (f : A -> bool) (l : list A) :
  Forall (fun x => f x = true) l -> List.filter f l = l.
Proof.
  induction l as [|a l IH]; intros H; [reflexivity|].
  inversion H as [|? ? Ha Hl]; subst. simpl. rewrite Ha. f_equal. auto.
Qed.

(** The property that [startHealthChecks] does not have. *)
Lemma start_twice_arms_two_timers :
  let rt := startHealthChecks (startHealthChecks (boot SERVICES 0)) in
  armed rt = [0%nat; 1%nat]
  /\ ~ (List.length (armed rt) <= 1)%nat
  /\ armed (stopHealthChecks rt) = [0%nat].
Proof.
  split; [reflexivity|]. split; [|reflexivity].
  cbn. lia.
Qed.

(** C9, as the code has it. [stopHealthChecks] on a registry that was never
    started changes nothing.  [startHealthChecks] arms one more recurring
    timer at every call and keeps the handle of the newest one only: after
    [n] calls [n] more timers are armed, and [stopHealthChecks] then
    disarms the newest one and leaves the others armed. *)
Theorem health_checks_start_stop (configured : list ServiceConfig) (now : Z)
    (ops : list RegistryOp) (rt : Runtime) (n : nat) :
  (forallb (fun op => negb (isStart op)) ops = true ->
   stopHealthChecks (runOps (boot configured now) ops)
   = runOps (boot configured now) ops)
  /\ armed (Nat.iter n startHealthChecks rt)
     = (armed rt ++ seq (nextHandle rt) n)%list
  /\ (handlesFresh rt ->
      armed (stopHealthChecks (Nat.iter (S n) startHealthChecks rt))
      = (armed rt ++ seq (nextHandle rt) n)%list).
Proof.
  split; [|split].
  - intros H.
    destruct (never_started ops (boot configured now) H (boot_not_started _ _))
      as [I _].
    unfold stopHealthChecks. now rewrite I.
  - apply started_n_times.
  - intros F. destruct (started_n_times n rt) as [A Nx].
    change (Nat.iter (S n) startHealthChecks rt)
      with (startHealthChecks (Nat.iter n startHealthChecks rt)).
    set (rt' := Nat.iter n startHealthChecks rt) in *.
    unfold stopHealthChecks.
    destruct (startHealthChecks_armed rt') as (A' & _ & I' & _).
    rewrite I'. unfold clearInterval. cbn [armed]. rewrite A'.
    rewrite List.filter_app. cbn [List.filter]. rewrite Nat.eqb_refl. cbn [negb].
    rewrite app_nil_r, A. apply filter_all_kept.
    rewrite Nx. apply Forall_app. split.
    + eapply List.Forall_impl; [|exact F]. cbv beta. intros h Hh.
      apply negb_true_iff, Nat.eqb_neq. lia.
    + apply Forall_forall. intros h Hh. apply list_elem_of_In, in_seq in Hh.
      apply negb_true_iff, Nat.eqb_neq. lia.
Qed.

Lemma health_checks_start_stop_witness :
  let ops := [OpCheckServiceHealth "auth-service" 1
                (mkProbe (NetResponse (mkAxiosResponse 200 "ok" ∅)) 2);
              OpStopHealthChecks] in
  stopHealthChecks (runOps (boot SERVICES 0) ops) = runOps (boot SERVICES 0) ops
  /\ armed (stopHealthChecks (Nat.iter 2 startHealthChecks (boot SERVICES 0)))
     = [0%nat].
Proof.
  intros ops.
  destruct (health_checks_start_stop SERVICES 0 ops (boot SERVICES 0) 1)
    as (H1 & _ & H3).
  split.
  - apply H1. reflexivity.
  - apply H3. constructor.
Defined.

(** ** The auth gate *)

Lemma bearer_header token :
  JsString.truthy (Some ("Bearer " ++ token)) = true
  /\ JsString.startsWith ("Bearer " ++ token) "Bearer " = true
  /\ JsString.substring_from 7 ("Bearer " ++ token) = token.
Proof.
  split; [reflexivity|]. split.
  - apply prefix_append.
  - apply (substring_from_append "Bearer " token).
Qed.

Lemma truthy_nonempty s : s <> "" -> JsString.truthy (Some s) = true.
Proof.
  intros H. unfold JsString.truthy.
  destruct (String.eqb_spec s ""); [contradiction|reflexivity].
Qed.

(** C8. In required mode an expired token and a structurally invalid token
    are both rejected with status 401, under two different error codes; in
    optional mode both let the request go on as it came, with no identity
    attached and no error. *)
Theorem rejected_tokens_are_told_apart
    (jwt_verify : string -> string -> JsError + JWTPayload)
    (req : Request) (token : string) (e : JsError) :
  headers req !! "authorization" = Some ("Bearer " ++ token) ->
  token <> "" ->
  jwt_verify token GATEWAY_CONFIG.jwtSecret = inl e ->
  (error_name e = "TokenExpiredError" ->
   authenticateRequest jwt_verify req
   = Respond (mkAnswer 401
       (JsonError "Token expired" "Your session has expired. Please login again.")))
  /\ (error_name e = "JsonWebTokenError" ->
      authenticateRequest jwt_verify req
      = Respond (mkAnswer 401
          (JsonError "Invalid token" "Authentication token is invalid")))
  /\ "Token expired" <> "Invalid token"
  /\ optionalAuth jwt_verify req = Next req.
Proof.
  intros Hh Ht Hv.
  destruct (bearer_header token) as (T & P & S).
  pose proof (truthy_nonempty token Ht) as Tt.
  unfold authenticateRequest, optionalAuth.
  rewrite Hh, T, P, S, Tt, Hv. cbn [negb orb].
  repeat split.
  - intros ->. reflexivity.
  - intros ->. reflexivity.
  - discriminate.
Qed.

Lemma rejected_tokens_are_told_apart_witness :
  let jwt_verify := fun (token _ : string) =>
    if String.eqb token "old"
    then inl (mkJsError "TokenExpiredError" "jwt expired")
    else inl (mkJsError "JsonWebTokenError" "jwt malformed") : JsError + JWTPayload in
  let expired := mkRequest "/api/orders" "GET" ""
                   {["authorization" := "Bearer old"]} (Some "10.0.0.7") None in
  let garbled := mkRequest "/api/orders" "GET" ""
                   {["authorization" := "Bearer x.y"]} (Some "10.0.0.7") None in
  authenticateRequest jwt_verify expired
  = Respond (mkAnswer 401
      (JsonError "Token expired" "Your session has expired. Please login again."))
  /\ authenticateRequest jwt_verify garbled
     = Respond (mkAnswer 401
         (JsonError "Invalid token" "Authentication token is invalid"))
  /\ optionalAuth jwt_verify expired = Next expired
  /\ optionalAuth jwt_verify garbled = Next garbled.
Proof.
  intros jwt_verify expired garbled.
  destruct (rejected_tokens_are_told_apart jwt_verify expired "old"
              (mkJsError "TokenExpiredError" "jwt expired"))
    as (E1 & _ & _ & O1); [reflexivity|discriminate|reflexivity|].
  destruct (rejected_tokens_are_told_apart jwt_verify garbled "x.y"
              (mkJsError "JsonWebTokenError" "jwt malformed"))
    as (_ & E2 & _ & O2); [reflexivity|discriminate|reflexivity|].
  split; [now apply E1|]. split; [now apply E2|]. now split.
Defined.

(** ** The retry loop of [forwardRequest] *)

Lemma forwardLoop_response config backend retries remaining attempt lastError tr r :
  backend attempt = NetResponse r ->
  forwardLoop config backend retries (S remaining) attempt lastError tr
  = (mkForwardTrace (sent tr ++ [config]) (delays tr), Returned r).
Proof. intros H. simpl. now rewrite H. Qed.

Lemma forwardLoop_failure config backend retries remaining attempt lastError tr c m :
  backend attempt = NetFailure c m ->
  forwardLoop config backend retries (S remaining) attempt lastError tr
  = forwardLoop config backend retries remaining (attempt + 1)
      (Some (networkError c m))
      (mkForwardTrace (sent tr ++ [config])
         (if attempt <? retries then delays tr ++ [2 ^ attempt * 100]
          else delays tr)).
Proof.
  intros H. simpl. rewrite H. simpl.
  now destruct (attempt <? retries).
Qed.

(** The loop never makes more calls than it has iterations, and every call
    it makes is the one built from the request. *)
Lemma forwardLoop_sent config backend retries remaining :
  forall attempt lastError tr,
    exists k, (k <= remaining)%nat
      /\ sent (forwardLoop config backend retries remaining attempt lastError tr).1
         = (sent tr ++ repeat config k)%list.
Proof.
  induction remaining as [|rem IH]; intros attempt lastError tr.
  - exists 0%nat. simpl. rewrite app_nil_r. auto.
  - simpl. destruct (axios _ (backend attempt)) as [e|r].
    + destruct (isClientError e).
      * exists 1%nat. simpl. split; [lia|reflexivity].
      * match goal with
        | |- context [forwardLoop _ _ _ rem ?a ?le ?t] =>
            destruct (IH a le t) as (k & Hk & E)
        end.
        exists (S k). split; [lia|]. rewrite E.
        destruct (attempt <? retries); simpl; now rewrite <- app_assoc.
    + exists 1%nat. simpl. split; [lia|reflexivity].
Qed.

Lemma forwardRequest_attempts targetUrl method path body hdrs t r backend :
  (attempts (forwardRequest targetUrl method path body hdrs t r backend).1
   <= Z.to_nat (default 3%Z r))%nat.
Proof.
  unfold forwardRequest, attempts.
  match goal with
  | |- context [forwardLoop ?c ?b ?rt ?rem ?a ?le ?t] =>
      destruct (forwardLoop_sent c b rt rem a le t) as (k & Hk & E)
  end.
  rewrite E. simpl. now rewrite repeat_length.
Qed.

Lemma backoff_S attempt k :
  backoff attempt (S k) = 2 ^ attempt * 100 :: backoff (attempt + 1) k.
Proof.
  unfold backoff. cbn [seq map]. rewrite Z.add_0_r. f_equal.
  rewrite <- seq_shift, map_map. apply map_ext. intros i.
  do 2 f_equal. lia.
Qed.

(** [k] failures below HTTP followed by a response: [k + 1] calls, the
    response is returned, and the loop slept [2^a * 100] ms after each
    failed attempt [a]. *)
Lemma forwardLoop_retries_then_returns config backend retries r
    (code message : Z -> string) :
  forall k remaining attempt lastError tr,
    (forall a, attempt <= a < attempt + Z.of_nat k ->
               backend a = NetFailure (code a) (message a)) ->
    backend (attempt + Z.of_nat k) = NetResponse r ->
    (k < remaining)%nat ->
    attempt + Z.of_nat k <= retries ->
    forwardLoop config backend retries remaining attempt lastError tr
    = (mkForwardTrace (sent tr ++ repeat config (S k))
         (delays tr ++ backoff attempt k),
       Returned r).
Proof.
  induction k as [|k IH]; intros remaining attempt lastError tr Hf Hr Hk Hle;
    destruct remaining as [|rem]; try lia.
  - rewrite Z.add_0_r in Hr. rewrite (forwardLoop_response _ _ _ _ _ _ _ r Hr).
    unfold backoff. simpl. now rewrite app_nil_r.
  - rewrite (forwardLoop_failure _ _ _ _ _ _ _ (code attempt) (message attempt))
      by (apply Hf; lia).
    rewrite (IH rem (attempt + 1)).
    + replace (attempt <? retries) with true by (symmetry; apply Z.ltb_lt; lia).
      cbn [sent delays]. rewrite backoff_S.
      rewrite <- !app_assoc. reflexivity.
    + intros a Ha. apply Hf. lia.
    + rewrite <- Hr. f_equal. lia.
    + lia.
    + lia.
Qed.

(** Every attempt fails below HTTP: the loop uses all its iterations,
    sleeps after each attempt but the last, and throws the last error. *)
Lemma forwardLoop_exhausted config backend retries (code message : Z -> string) :
  forall remaining attempt lastError tr,
    (forall a, attempt <= a < attempt + Z.of_nat (S remaining) ->
               backend a = NetFailure (code a) (message a)) ->
    attempt + Z.of_nat remaining = retries ->
    forwardLoop config backend retries (S remaining) attempt lastError tr
    = (mkForwardTrace (sent tr ++ repeat config (S remaining))
         (delays tr ++ backoff attempt remaining),
       Thrown (Some (networkError (code retries) (message retries)))).
Proof.
  induction remaining as [|rem IH]; intros attempt lastError tr Hf Hle.
  - rewrite (forwardLoop_failure _ _ _ _ _ _ _ (code attempt) (message attempt))
      by (apply Hf; lia).
    replace (attempt <? retries) with false by (symmetry; apply Z.ltb_ge; lia).
    replace retries with attempt by lia.
    unfold backoff. simpl. now rewrite app_nil_r.
  - rewrite (forwardLoop_failure _ _ _ _ _ _ _ (code attempt) (message attempt))
      by (apply Hf; lia).
    rewrite (IH (attempt + 1)).
    + replace (attempt <? retries) with true by (symmetry; apply Z.ltb_lt; lia).
      cbn [sent delays]. rewrite backoff_S.
      rewrite <- !app_assoc. reflexivity.
    + intros a Ha. apply Hf. lia.
    + lia.
Qed.

(** At the level of [forwardRequest]. *)
Lemma forwardRequest_first_response targetUrl method path body hdrs t rs backend r :
  1 <= default 3 rs ->
  backend 1 = NetResponse r ->
  let res := forwardRequest targetUrl method path body hdrs t rs backend in
  attempts res.1 = 1%nat /\ delays res.1 = [] /\ res.2 = Returned r.
Proof.
  intros H1 Hb. unfold forwardRequest.
  destruct (Z.to_nat (default 3 rs)) as [|rem] eqn:E; [lia|].
  rewrite (forwardLoop_response _ _ _ _ _ _ _ r Hb). now repeat split.
Qed.

Lemma forwardRequest_retries_then_returns targetUrl method path body hdrs t rs
    backend r (code message : Z -> string) (k : nat) :
  (forall a, 1 <= a <= Z.of_nat k -> backend a = NetFailure (code a) (message a)) ->
  backend (1 + Z.of_nat k) = NetResponse r ->
  1 + Z.of_nat k <= default 3 rs ->
  let res := forwardRequest targetUrl method path body hdrs t rs backend in
  attempts res.1 = S k /\ delays res.1 = backoff 1 k /\ res.2 = Returned r.
Proof.
  intros Hf Hr Hk. unfold forwardRequest.
  rewrite (forwardLoop_retries_then_returns _ backend _ r code message k);
    try assumption; try lia.
  - unfold attempts. cbn [fst snd sent delays app].
    rewrite repeat_length. now repeat split.
  - intros a Ha. apply Hf. lia.
Qed.

Lemma forwardRequest_exhausted targetUrl method path body hdrs t rs backend
    (code message : Z -> string) :
  1 <= default 3 rs ->
  (forall a, 1 <= a <= default 3 rs -> backend a = NetFailure (code a) (message a)) ->
  let retries := default 3 rs in
  let res := forwardRequest targetUrl method path body hdrs t rs backend in
  attempts res.1 = Z.to_nat retries
  /\ delays res.1 = backoff 1 (Z.to_nat retries - 1)
  /\ res.2 = Thrown (Some (networkError (code retries) (message retries))).
Proof.
  intros H1 Hf retries res. unfold res, forwardRequest. fold retries.
  destruct (Z.to_nat retries) as [|rem] eqn:E; [unfold retries in E; lia|].
  rewrite (forwardLoop_exhausted _ backend retries code message rem).
  - unfold attempts. cbn [fst snd sent delays app].
    rewrite repeat_length. replace (S rem - 1)%nat with rem by lia.
    now repeat split.
  - intros a Ha. apply Hf. fold retries. lia.
  - lia.
Qed.

(** The two scenarios of the retry policy that the code does follow. *)
Example fails_twice_then_succeeds :
  let ok := mkAxiosResponse 200 "[]" ∅ in
  let backend := fun a : Z =>
    if a <? 3 then NetFailure "ECONNREFUSED" "connect ECONNREFUSED"
    else NetResponse ok in
  let res := forwardRequest "http://localhost:3000" "GET" "/api/orders" "" ∅
               (Some 5000) (Some 3) backend in
  attempts res.1 = 3%nat /\ delays res.1 = [200; 400] /\ res.2 = Returned ok.
Proof. now repeat split. Qed.

Example not_found_is_terminal :
  let missing := mkAxiosResponse 404 "no such order" ∅ in
  let res := forwardRequest "http://localhost:3000" "GET" "/api/orders/9" "" ∅
               (Some 5000) (Some 3) (fun _ => NetResponse missing) in
  attempts res.1 = 1%nat /\ delays res.1 = [] /\ res.2 = Returned missing.
Proof. now repeat split. Qed.

(** C2, where the code departs from the retry policy. An attempt that
    gets a 5xx response is not retried: [validateStatus: () => true] makes
    [axios] resolve with every response, so the loop returns the 5xx after
    that one attempt and sleeps no back-off delay, whatever later attempts
    would have met. *)
Theorem server_error_is_not_retried (targetUrl method path body : string)
    (hdrs : gmap string string) (t rs : option Z) (backend : Z -> NetOutcome)
    (r : AxiosResponse) :
  1 <= default 3 rs ->
  500 <= resp_status r < 600 ->
  backend 1 = NetResponse r ->
  let res := forwardRequest targetUrl method path body hdrs t rs backend in
  attempts res.1 = 1%nat /\ delays res.1 = [] /\ res.2 = Returned r.
Proof.
  intros H1 _ Hb. now apply forwardRequest_first_response.
Qed.

Lemma server_error_is_not_retried_witness :
  let broken := mkAxiosResponse 500 "Internal Server Error" ∅ in
  let ok := mkAxiosResponse 200 "[]" ∅ in
  let backend := fun a : Z =>
    if a =? 1 then NetResponse broken else NetResponse ok in
  let res := forwardRequest "http://localhost:3000" "GET" "/api/orders" "" ∅
               (Some 5000) (Some 3) backend in
  attempts res.1 = 1%nat /\ delays res.1 = [] /\ res.2 = Returned broken.
Proof.
  intros broken ok backend.
  apply (server_error_is_not_retried "http://localhost:3000" "GET" "/api/orders"
           "" ∅ (Some 5000) (Some 3) backend broken).
  - simpl. lia.
  - simpl. lia.
  - reflexivity.
Defined.

(** ** Failure classification in [proxyRequest] *)








Example zero_retries_unhandled :
  let reg := newServiceRegistry
               [mkServiceConfig "order-service" "http://localhost:3000" "/health"
                  (Some 5000) (Some 0)] 0 in
  let req := mkRequest "/api/orders" "GET" "" ∅ None None in
  proxyRequest ROUTE_MAPPINGS reg (fun _ => NetResponse (mkAxiosResponse 200 "" ∅)) req
  = (mkForwardTrace [] [], Unhandled).
Proof. reflexivity. Qed.

(** ** Identity headers on the outbound call *)

Lemma outboundHeaders_identity (hdrs : gmap string string) (k : string) :
  k = "x-user-id" \/ k = "x-user-email" ->
  outboundHeaders hdrs !! k = Some <$> (hdrs !! k).
Proof.
  intros Hk. unfold outboundHeaders.
  rewrite !lookup_insert_ne by (destruct Hk as [-> | ->]; discriminate).
  apply lookup_fmap.
Qed.

Lemma proxyRequest_sent mappings reg backend req cfg :
  In cfg (sent (proxyRequest mappings reg backend req).1) ->
  cfg_headers cfg = outboundHeaders (headers req)
  /\ exists m, findMapping mappings (path req) = Some m.
Proof.
  unfold proxyRequest.
  destruct (findMapping mappings (path req)) as [m|]; [|intros []].
  destruct (getService reg (serviceName m)) as [svc|]; [|intros []].
  unfold forwardRequest.
  match goal with
  | |- context [forwardLoop ?c ?b ?rt ?rem ?a ?le ?t] =>
      destruct (forwardLoop_sent c b rt rem a le t) as (k & _ & E);
      destruct (forwardLoop c b rt rem a le t) as [tr [r|[e|]]]
  end; cbn [fst sent app] in *; rewrite E; intros Hin;
    apply repeat_spec in Hin; subst cfg; split; eauto.
Qed.

Lemma limitRequest_next message windowMs max store now req store' hdrs req' :
  limitRequest message windowMs max store now req = (store', hdrs, Next req') ->
  req' = req.
Proof.
  unfold limitRequest.
  destruct (_ >? max); intros H; [discriminate|]. now injection H.
Qed.

Lemma authenticateRequest_next jwt_verify req req' :
  authenticateRequest jwt_verify req = Next req' ->
  exists d, verifiedIdentity jwt_verify req = Some d /\ req' = attachIdentity d req.
Proof.
  unfold authenticateRequest, verifiedIdentity.
  destruct (headers req !! "authorization") as [h|]; [|discriminate].
  destruct (negb (JsString.truthy (Some h))); [discriminate|].
  destruct (JsString.startsWith h "Bearer "); cbn [negb]; [|discriminate].
  destruct (negb (JsString.truthy (Some (JsString.substring_from 7 h))));
    [discriminate|].
  destruct (jwt_verify _ _) as [e|d].
  - destruct (String.eqb (error_name e) "TokenExpiredError"); [discriminate|].
    destruct (String.eqb (error_name e) "JsonWebTokenError"); discriminate.
  - intros [= <-]. eauto.
Qed.

Lemma optionalAuth_next jwt_verify req :
  optionalAuth jwt_verify req
  = Next (match verifiedIdentity jwt_verify req with
          | Some d => attachIdentity d req
          | None => req
          end).
Proof.
  unfold optionalAuth, verifiedIdentity.
  destruct (headers req !! "authorization") as [h|]; [|reflexivity].
  destruct (JsString.truthy (Some h)) eqn:T; cbn [negb orb].
  - destruct (JsString.startsWith h "Bearer "); cbn [negb]; [|reflexivity].
    now destruct (jwt_verify _ _).
  - unfold JsString.truthy in T. apply negb_false_iff, String.eqb_eq in T.
    subst h. reflexivity.
Qed.

Lemma attachIdentity_headers d req k :
  k = "x-user-id" \/ k = "x-user-email" ->
  headers (attachIdentity d req) !! k = Some (identityField k d).
Proof.
  intros [-> | ->]; unfold attachIdentity, identityField; cbn [headers].
  - rewrite lookup_insert_ne by discriminate. now rewrite lookup_insert_eq.
  - now rewrite lookup_insert_eq.
Qed.

(** What reaches the backend under the two identity header names. *)
Lemma chain_identity jwt_verify mappings reg backend store now req cfg k :
  In cfg (sent (chain_trace (apiChain jwt_verify mappings reg backend store now req))) ->
  k = "x-user-id" \/ k = "x-user-email" ->
  match verifiedIdentity jwt_verify req with
  | Some d => cfg_headers cfg !! k = Some (Some (identityField k d))
  | None =>
      cfg_headers cfg !! k = Some <$> (headers req !! k)
      /\ exists m, findMapping mappings (path req) = Some m
                   /\ flag (authRequired m) = false
  end.
Proof.
  unfold apiChain, rateLimiter. intros Hin Hk.
  destruct (limitRequest _ _ _ store now req) as [[store' hdrs] [req1|a]] eqn:L;
    [|destruct Hin].
  apply limitRequest_next in L. subst req1.
  destruct (conditionalAuth jwt_verify mappings req) as [req2|a] eqn:A;
    [|destruct Hin].
  destruct (proxyRequest mappings reg backend req2) as [tr h] eqn:P.
  cbn [chain_trace] in Hin.
  assert (Hs := proxyRequest_sent mappings reg backend req2 cfg).
  rewrite P in Hs. destruct (Hs Hin) as (Hc & m & Hm). clear Hs.
  rewrite Hc, (outboundHeaders_identity _ k Hk).
  unfold conditionalAuth in A.
  destruct (findMapping mappings (path req)) as [m0|] eqn:F.
  - destruct (flag (authRequired m0)) eqn:R.
    + apply authenticateRequest_next in A as (d & V & ->).
      rewrite V, (attachIdentity_headers _ _ _ Hk). reflexivity.
    + rewrite optionalAuth_next in A. injection A as <-.
      destruct (verifiedIdentity jwt_verify req) as [d|].
      * now rewrite (attachIdentity_headers _ _ _ Hk).
      * split; [reflexivity|]. eauto.
  - rewrite optionalAuth_next in A. injection A as <-.
    destruct (verifiedIdentity jwt_verify req) as [d|]; cbn [path attachIdentity] in Hm;
      congruence.
Qed.

(** What the chain forwards under the two identity header names, case by
    case: after a successful verification the verified id and email; with
    no verified identity, and that only on a route with optional auth, the
    values of the inbound request, untouched. *)
Lemma forwarded_identity_headers
    (jwt_verify : string -> string -> JsError + JWTPayload)
    (mappings : list RouteMapping) (reg : ServiceRegistry)
    (backend : Z -> NetOutcome) (store : gmap string RateLimitEntry)
    (now : Z) (req : Request) (cfg : AxiosRequestConfig) :
  In cfg (sent (chain_trace (apiChain jwt_verify mappings reg backend store now req))) ->
  match verifiedIdentity jwt_verify req with
  | Some d =>
      cfg_headers cfg !! "x-user-id" = Some (Some (jwt_id d))
      /\ cfg_headers cfg !! "x-user-email" = Some (Some (jwt_email d))
  | None =>
      cfg_headers cfg !! "x-user-id" = Some <$> (headers req !! "x-user-id")
      /\ cfg_headers cfg !! "x-user-email" = Some <$> (headers req !! "x-user-email")
      /\ exists m, findMapping mappings (path req) = Some m
                   /\ flag (authRequired m) = false
  end.
Proof.
  intros Hin.
  pose proof (chain_identity jwt_verify mappings reg backend store now req cfg
                "x-user-id" Hin (or_introl eq_refl)) as H1.
  pose proof (chain_identity jwt_verify mappings reg backend store now req cfg
                "x-user-email" Hin (or_intror eq_refl)) as H2.
  destruct (verifiedIdentity jwt_verify req) as [d|].
  - split; assumption.
  - destruct H1 as [H1 Hm]. destruct H2 as [H2 _]. now repeat split.
Qed.

Example verified_identity_overwrites_client_headers :
  let jwt_verify := fun (token _ : string) =>
    if String.eqb token "good"
    then inr (mkJWTPayload "u42" "ann@example.com" (Some 1) (Some 2))
    else inl (mkJsError "JsonWebTokenError" "jwt malformed") in
  let req := mkRequest "/api/orders" "GET" ""
               (<["authorization" := "Bearer good"]> {["x-user-id" := "admin"]})
               (Some "203.0.113.9") None in
  let backend := fun _ : Z => NetResponse (mkAxiosResponse 200 "[]" ∅) in
  let cfg := mkAxiosRequestConfig "GET" "http://localhost:3000/api/orders" ""
               (outboundHeaders
                  (<["x-user-email" := "ann@example.com"]>
                     (<["x-user-id" := "u42"]> (headers req)))) 5000 5 in
  In cfg (sent (chain_trace (apiChain jwt_verify ROUTE_MAPPINGS
                               (newServiceRegistry SERVICES 0) backend ∅ 0 req)))
  /\ cfg_headers cfg !! "x-user-id" = Some (Some "u42")
  /\ cfg_headers cfg !! "x-user-email" = Some (Some "ann@example.com").
Proof.
  intros jwt_verify req backend cfg.
  assert (Hin : In cfg (sent (chain_trace (apiChain jwt_verify ROUTE_MAPPINGS
                   (newServiceRegistry SERVICES 0) backend ∅ 0 req)))).
  { vm_compute. now left. }
  split; [exact Hin|].
  exact (forwarded_identity_headers jwt_verify ROUTE_MAPPINGS
           (newServiceRegistry SERVICES 0) backend ∅ 0 req cfg Hin).
Qed.

(** C1 does not hold of the code.  A request on [/api/products], a route
    with optional auth, that has no Authorization header and carries
    [x-user-id: admin] and [x-user-email: root@example.com] of the client's
    own making: nothing is verified, the chain forwards it in one call, and
    that call carries both values to the backend.  So the identity headers
    that the backend sees are not only those of a verified token. *)
Lemma client_identity_headers_reach_backend :
  let jwt_verify := fun _ _ : string =>
    inl (mkJsError "JsonWebTokenError" "jwt malformed") : JsError + JWTPayload in
  let req := mkRequest "/api/products" "GET" ""
               (<["x-user-id" := "admin"]> {["x-user-email" := "root@example.com"]})
               (Some "203.0.113.9") None in
  let backend := fun _ : Z => NetResponse (mkAxiosResponse 200 "[]" ∅) in
  let res := apiChain jwt_verify ROUTE_MAPPINGS (newServiceRegistry SERVICES 0)
               backend ∅ 0 req in
  verifiedIdentity jwt_verify req = None
  /\ (exists cfg,
        sent (chain_trace res) = [cfg]
        /\ cfg_url cfg = "http://localhost:3000/api/products"
        /\ cfg_headers cfg !! "x-user-id" = Some (Some "admin")
        /\ cfg_headers cfg !! "x-user-email" = Some (Some "root@example.com"))
  /\ ~ identityOnlyFromVerification jwt_verify ROUTE_MAPPINGS
        (newServiceRegistry SERVICES 0) backend ∅ 0 req.
Proof.
  intros jwt_verify req backend res. split; [reflexivity|]. split.
  - exists (mkAxiosRequestConfig "GET" "http://localhost:3000/api/products" ""
              (outboundHeaders (headers req)) 5000 5).
    repeat split; vm_compute; reflexivity.
  - intros H.
    destruct (H (mkAxiosRequestConfig "GET" "http://localhost:3000/api/products" ""
                   (outboundHeaders (headers req)) 5000 5)
                "x-user-id" "admin") as (d & V & _).
    + vm_compute. now left.
    + now left.
    + reflexivity.
    + discriminate V.
Qed.

(** ** The rate limiter *)

Lemma ceilDiv_spec (x : Z) :
  1000 * (ceilDiv x 1000 - 1) < x <= 1000 * ceilDiv x 1000.
Proof.
  unfold ceilDiv.
  pose proof (Z.div_mod (- x) 1000 ltac:(lia)).
  pose proof (Z.mod_pos_bound (- x) 1000 ltac:(lia)). lia.
Qed.

(** One request: the count it gets and the end of its window. *)
Lemma limitRequest_step message windowMs max store now req :
  let key := getClientIdentifier req in
  let n := match store !! key with
           | Some entry => if now >? resetTime entry then 1 else count entry + 1
           | None => 1
           end in
  let resetAt := match store !! key with
                 | Some entry =>
                     if now >? resetTime entry then now + windowMs
                     else resetTime entry
                 | None => now + windowMs
                 end in
  limitRequest message windowMs max store now req
  = (<[key := mkRateLimitEntry n resetAt]> store,
     (verdict message max req n resetAt now).1,
     (verdict message max req n resetAt now).2).
Proof.
  unfold limitRequest, verdict. cbn zeta.
  destruct (store !! getClientIdentifier req) as [entry|];
    [destruct (now >? resetTime entry)|]; cbn [count resetTime fst snd];
    rewrite ?Z.add_0_l;
    match goal with |- context [?a >? max] => destruct (a >? max) end;
    reflexivity.
Qed.

(** While its window is open, the client's requests are counted one by
    one against the same [resetAt]. *)
Lemma serve_open message windowMs max req :
  forall times store c resetAt,
    store !! getClientIdentifier req = Some (mkRateLimitEntry c resetAt) ->
    Forall (fun t => t <= resetAt) times ->
    (serve message windowMs max store times req).1 !! getClientIdentifier req
    = Some (mkRateLimitEntry (c + Z.of_nat (List.length times)) resetAt)
    /\ forall (i : nat) t,
         times !! i = Some t ->
         (serve message windowMs max store times req).2 !! i
         = Some (verdict message max req (c + Z.of_nat i + 1) resetAt t).
Proof.
  induction times as [|now later IH]; intros store c resetAt Hs Hle.
  - simpl. rewrite Z.add_0_r. split; [exact Hs|]. intros i t H. discriminate H.
  - inversion Hle as [|? ? Hnow Hlater]; subst.
    cbn [serve]. rewrite limitRequest_step, Hs. cbn [resetTime count].
    replace (now >? resetAt) with false
      by (symmetry; rewrite Z.gtb_ltb; apply Z.ltb_ge; lia).
    destruct (IH (<[getClientIdentifier req := mkRateLimitEntry (c + 1) resetAt]> store)
                (c + 1) resetAt (lookup_insert_eq _ _ _) Hlater) as [I1 I2].
    destruct (serve message windowMs max _ later req) as [store2 rest].
    cbn [fst snd] in *. split.
    + rewrite I1. do 2 f_equal. cbn [List.length]. lia.
    + intros [|i] t Ht.
      * injection Ht as <-.
        replace (c + Z.of_nat 0 + 1) with (c + 1) by lia.
        generalize (verdict message max req (c + 1) resetAt now).
        intros [h m]. reflexivity.
      * change ((?x :: rest) !! S i) with (rest !! i).
        rewrite (I2 i t Ht). do 2 f_equal. lia.
Qed.

(** C3. The limiter is a fixed-window counter.  One request: with no entry
    for the key, or with [now > entry.resetTime], the count restarts from 0
    and the window ends at [now + windowMs]; the count goes up by one;
    [remaining = max(0, max - count)]; the request is rejected exactly
    when [count > max], with [retryAfter = ceil((resetTime - now)/1000)];
    the three headers are set either way.  A run of requests of one client
    inside one window: the [i]-th gets count [i], so the first [max] go
    through and the [(max+1)]-th is rejected; the first request after the
    window has elapsed starts again with count 1 and goes through. *)
Theorem fixed_window_limiter (message : string) (windowMs max : Z)
    (store : gmap string RateLimitEntry) (req : Request) :
  let key := getClientIdentifier req in
  (forall now,
     let n := match store !! key with
              | Some entry => if now >? resetTime entry then 0 + 1 else count entry + 1
              | None => 0 + 1
              end in
     let resetAt := match store !! key with
                    | Some entry =>
                        if now >? resetTime entry then now + windowMs
                        else resetTime entry
                    | None => now + windowMs
                    end in
     limitRequest message windowMs max store now req
     = (<[key := mkRateLimitEntry n resetAt]> store,
        mkRateLimitHeaders max (Z.max 0 (max - n)) resetAt,
        if n >? max
        then Respond (mkAnswer 429
               (JsonRateLimit "Too many requests" message
                  (ceilDiv (resetAt - now) 1000)))
        else Next req))
  /\ (forall x, 1000 * (ceilDiv x 1000 - 1) < x <= 1000 * ceilDiv x 1000)
  /\ (forall t1 later,
        windowClosed store key t1 ->
        Forall (fun t => t <= t1 + windowMs) later ->
        let run := serve message windowMs max store (t1 :: later) req in
        run.1 !! key
        = Some (mkRateLimitEntry (Z.of_nat (List.length (t1 :: later))) (t1 + windowMs))
        /\ (forall (i : nat) t,
              (t1 :: later) !! i = Some t ->
              run.2 !! i
              = Some (verdict message max req (Z.of_nat i + 1) (t1 + windowMs) t))
        /\ (forall (i : nat) t,
              (t1 :: later) !! i = Some t -> Z.of_nat i < max ->
              exists hdrs, run.2 !! i = Some (hdrs, Next req))
        /\ (forall t,
              0 <= max -> (t1 :: later) !! Z.to_nat max = Some t ->
              exists hdrs,
                run.2 !! Z.to_nat max
                = Some (hdrs,
                        Respond (mkAnswer 429
                          (JsonRateLimit "Too many requests" message
                             (ceilDiv (t1 + windowMs - t) 1000)))))
        /\ (forall t',
              t' > t1 + windowMs -> 1 <= max ->
              limitRequest message windowMs max run.1 t' req
              = (<[key := mkRateLimitEntry 1 (t' + windowMs)]> run.1,
                 mkRateLimitHeaders max (max - 1) (t' + windowMs),
                 Next req))).
Proof.
  intros key. subst key. split; [|split].
  - intros now. cbn zeta. rewrite limitRequest_step. unfold verdict.
    cbn [fst snd]. reflexivity.
  - apply ceilDiv_spec.
  - intros t1 later Hc Hle run.
    assert (Hrun : run.1 !! getClientIdentifier req
              = Some (mkRateLimitEntry (Z.of_nat (List.length (t1 :: later)))
                        (t1 + windowMs))
            /\ forall (i : nat) t,
                 (t1 :: later) !! i = Some t ->
                 run.2 !! i
                 = Some (verdict message max req (Z.of_nat i + 1) (t1 + windowMs) t)).
    { unfold run. cbn [serve]. rewrite limitRequest_step.
      assert (E : match store !! getClientIdentifier req with
                  | Some entry => if t1 >? resetTime entry then 1 else count entry + 1
                  | None => 1
                  end = 1
                  /\ match store !! getClientIdentifier req with
                     | Some entry => if t1 >? resetTime entry then t1 + windowMs
                                     else resetTime entry
                     | None => t1 + windowMs
                     end = t1 + windowMs).
      { unfold windowClosed in Hc. destruct (store !! getClientIdentifier req) as [entry|]; [|now split].
        replace (t1 >? resetTime entry) with true
          by (symmetry; rewrite Z.gtb_ltb; apply Z.ltb_lt; lia).
        now split. }
      destruct E as [-> ->].
      destruct (serve_open message windowMs max req later
                  (<[getClientIdentifier req := mkRateLimitEntry 1 (t1 + windowMs)]> store)
                  1 (t1 + windowMs) (lookup_insert_eq _ _ _) Hle) as [I1 I2].
      destruct (serve message windowMs max _ later req) as [store2 rest].
      cbn [fst snd] in *. split.
      - rewrite I1. do 2 f_equal. cbn [List.length]. lia.
      - intros [|i] t Ht.
        + injection Ht as <-.
          change (Z.of_nat 0 + 1) with 1.
          generalize (verdict message max req 1 (t1 + windowMs) t1).
          intros [h m]. reflexivity.
        + change ((?x :: rest) !! S i) with (rest !! i).
          rewrite (I2 i t Ht). do 2 f_equal. lia. }
    destruct Hrun as [R1 R2].
    split; [exact R1|]. split; [exact R2|]. split; [|split].
    + intros i t Ht Hi. rewrite (R2 i t Ht). unfold verdict.
      replace (Z.of_nat i + 1 >? max) with false
        by (symmetry; rewrite Z.gtb_ltb; apply Z.ltb_ge; lia).
      eauto.
    + intros t Hmax Ht. rewrite (R2 _ t Ht). unfold verdict.
      replace (Z.of_nat (Z.to_nat max) + 1 >? max) with true
        by (symmetry; rewrite Z.gtb_ltb; apply Z.ltb_lt; lia).
      eauto.
    + intros t' Ht' Hmax. rewrite limitRequest_step. rewrite R1.
      cbn [resetTime count].
      replace (t' >? t1 + windowMs) with true
        by (symmetry; rewrite Z.gtb_ltb; apply Z.ltb_lt; lia).
      unfold verdict. cbn [fst snd].
      replace (1 >? max) with false
        by (symmetry; rewrite Z.gtb_ltb; apply Z.ltb_ge; lia).
      do 2 f_equal. f_equal. lia.
Qed.

Lemma fixed_window_limiter_witness :
  let req := mkRequest "/api/products" "GET" "" ∅ (Some "203.0.113.9") None in
  let later := map (fun i => Z.of_nat i * 500) (seq 1 100) in
  let run := serve "Rate limit exceeded" 60000 100 ∅ (0 :: later) req in
  (exists hdrs,
     run.2 !! 100%nat
     = Some (hdrs,
             Respond (mkAnswer 429
               (JsonRateLimit "Too many requests" "Rate limit exceeded" 10))))
  /\ createRateLimiter 60000 100 run.1 60001 req
     = (<["ip:203.0.113.9" := mkRateLimitEntry 1 120001]> run.1,
        mkRateLimitHeaders 100 99 120001,
        Next req).
Proof.
  intros req later run.
  destruct (fixed_window_limiter "Rate limit exceeded" 60000 100 ∅ req)
    as (_ & _ & H).
  destruct (H 0 later) as (_ & _ & _ & Hrej & Hnext).
  - exact I.
  - apply Forall_forall. intros t Ht. apply list_elem_of_In, in_map_iff in Ht.
    destruct Ht as (i & <- & Hi). apply in_seq in Hi. lia.
  - split.
    + apply (Hrej 50000); [lia|reflexivity].
    + apply (Hnext 60001); lia.
Defined.

(** ** The key of the rate limiter *)

(** The derivation in [getClientIdentifier] itself: the [x-user-id] header
    when the request has a non-empty one, else the forwarded-for header,
    else the socket address, else ["unknown"]. *)
Lemma getClientIdentifier_cases (req : Request) :
  getClientIdentifier req
  = match headers req !! "x-user-id" with
    | Some (String c s) => "user:" ++ String c s
    | _ =>
        match headers req !! "x-forwarded-for" with
        | Some (String c s) => "ip:" ++ String c s
        | _ =>
            match remoteAddress req with
            | Some (String c s) => "ip:" ++ String c s
            | _ => "ip:unknown"
            end
        end
    end.
Proof.
  unfold getClientIdentifier, JsString.or, JsString.truthy.
  destruct (headers req !! "x-user-id") as [[|c s]|]; cbn;
    destruct (headers req !! "x-forwarded-for") as [[|c' s']|]; cbn;
    destruct (remoteAddress req) as [[|c'' s'']|]; reflexivity.
Qed.

(** The limiter runs before the auth gate: its key is computed from the
    request as the client sent it. *)
Lemma chain_clientId_inbound jwt_verify mappings reg backend store now req :
  chain_clientId (apiChain jwt_verify mappings reg backend store now req)
  = getClientIdentifier req.
Proof.
  unfold apiChain.
  destruct (rateLimiter store now req) as [[store' hdrs] [req1|a]];
    [|reflexivity].
  destruct (conditionalAuth jwt_verify mappings req1); [|reflexivity].
  now destruct (proxyRequest mappings reg backend req0).
Qed.

(** C4, where the code departs from it. The key is [user:<id>] for a
    request whose [x-user-id] header was written by the client and whose
    token nobody verified, and it is [ip:<address>] for a request whose
    bearer token the auth gate then verifies: [app.use(rateLimiter)] runs
    before [conditionalAuth]. *)
Theorem rate_limit_key_ignores_verification :
  let jwt_verify := fun (token _ : string) =>
    if String.eqb token "good"
    then inr (mkJWTPayload "u42" "ann@example.com" (Some 1) (Some 2))
    else inl (mkJsError "JsonWebTokenError" "jwt malformed") in
  let backend := fun _ : Z => NetResponse (mkAxiosResponse 200 "[]" ∅) in
  let reg := newServiceRegistry SERVICES 0 in
  let spoofed := mkRequest "/api/products" "GET" "" {["x-user-id" := "victim"]}
                   (Some "203.0.113.9") None in
  let member := mkRequest "/api/orders" "GET" "" {["authorization" := "Bearer good"]}
                  (Some "198.51.100.4") None in
  (verifiedIdentity jwt_verify spoofed = None
   /\ chain_clientId (apiChain jwt_verify ROUTE_MAPPINGS reg backend ∅ 0 spoofed)
      = "user:victim")
  /\ (verifiedIdentity jwt_verify member
      = Some (mkJWTPayload "u42" "ann@example.com" (Some 1) (Some 2))
      /\ chain_clientId (apiChain jwt_verify ROUTE_MAPPINGS reg backend ∅ 0 member)
         = "ip:198.51.100.4"
      /\ chain_end (apiChain jwt_verify ROUTE_MAPPINGS reg backend ∅ 0 member)
         = Answered (mkAnswer 200 (Relayed "[]"))).
Proof.
  intros jwt_verify backend reg spoofed member.
  rewrite !chain_clientId_inbound. repeat split; vm_compute; reflexivity.
Qed.

(** The periodic sweep only removes entries whose window is over, so it
    never changes what a later request is told. *)
Lemma sweep_lookup (t : Z) (store : gmap string RateLimitEntry) (key : string) :
  sweep t store !! key
  = match store !! key with
    | Some entry => if t >? resetTime entry then None else Some entry
    | None => None
    end.
Proof.
  unfold sweep. destruct (store !! key) as [entry|] eqn:E.
  - destruct (Z.gtb_spec t (resetTime entry)) as [gt|le].
    + apply map_lookup_filter_None. right. intros x Hx. simpl.
      rewrite E in Hx. injection Hx as <-. intros H. apply H. lia.
    + apply map_lookup_filter_Some. split; [exact E|]. simpl. lia.
  - apply map_lookup_filter_None. now left.
Qed.

Lemma sweep_is_invisible message windowMs max store t now req :
  t <= now ->
  (limitRequest message windowMs max (sweep t store) now req).1.2
  = (limitRequest message windowMs max store now req).1.2
  /\ (limitRequest message windowMs max (sweep t store) now req).2
     = (limitRequest message windowMs max store now req).2.
Proof.
  intros Ht. rewrite !limitRequest_step, sweep_lookup. cbn [fst snd].
  destruct (store !! getClientIdentifier req) as [entry|]; [|now split].
  destruct (Z.gtb_spec t (resetTime entry)) as [gt|le]; [|now split].
  replace (now >? resetTime entry) with true
    by (symmetry; rewrite Z.gtb_ltb; apply Z.ltb_lt; lia).
  now split.
Qed.

(** * Further properties of the gateway code *)

(** ** [forwardRequest]: what every run looks like *)

Lemma axios_accept_all (o : NetOutcome) :
  axios (fun _ => true) o
  = match o with
    | NetResponse r => inr r
    | NetFailure c m => inl (networkError c m)
    end.
Proof. now destruct o. Qed.

Lemma repeat_snoc {A} (x : A) (n : nat) :
  (repeat x n ++ [x])%list = repeat x (S n).
Proof. induction n as [|n IH]; simpl; [reflexivity|]. now rewrite IH. Qed.

(** The loop stops at the first response; it throws only when every
    iteration it had failed below HTTP, and then the error of the last
    one.  The test for a 4xx response in the [catch] block never fires. *)
Lemma forwardLoop_shape config backend retries :
  forall remaining attempt lastError tr,
    let res := forwardLoop config backend retries remaining attempt lastError tr in
    match res.2 with
    | Returned r =>
        exists k : nat,
          (k < remaining)%nat
          /\ backend (attempt + Z.of_nat k) = NetResponse r
          /\ (forall a, attempt <= a < attempt + Z.of_nat k ->
                        failureOf (backend a) <> None)
          /\ sent res.1 = (sent tr ++ repeat config (S k))%list
    | Thrown e =>
        (forall a, attempt <= a < attempt + Z.of_nat remaining ->
                   failureOf (backend a) <> None)
        /\ e = match remaining with
               | O => lastError
               | S rem => failureOf (backend (attempt + Z.of_nat rem))
               end
        /\ sent res.1 = (sent tr ++ repeat config remaining)%list
    end.
Proof.
  induction remaining as [|rem IH]; intros attempt lastError tr.
  - simpl. split; [intros a Ha; lia|]. split; [reflexivity|].
    now rewrite app_nil_r.
  - cbn [forwardLoop]. rewrite axios_accept_all.
    destruct (backend attempt) as [r|c m] eqn:B.
    + cbn [snd fst sent]. exists 0%nat.
      rewrite Z.add_0_r. split; [lia|]. split; [exact B|].
      split; [intros a Ha; lia|reflexivity].
    + change (isClientError (networkError c m)) with false. cbv iota.
      match goal with
      | |- context [forwardLoop _ _ _ rem ?a ?le ?t] =>
          specialize (IH a le t); cbv zeta in IH;
          destruct (forwardLoop config backend retries rem a le t) as [tr' [r|e]]
      end; cbn [fst snd] in *.
      * destruct IH as (k & Hk & Hr & Hf & Hs). exists (S k).
        split; [lia|]. split; [rewrite <- Hr; f_equal; lia|]. split.
        -- intros a Ha. destruct (Z.eq_dec a attempt) as [->|ne].
           ++ rewrite B. discriminate.
           ++ apply Hf. lia.
        -- rewrite Hs. destruct (attempt <? retries); cbn [sent];
             now rewrite <- app_assoc.
      * destruct IH as (Hf & He & Hs). split; [|split].
        -- intros a Ha. destruct (Z.eq_dec a attempt) as [->|ne].
           ++ rewrite B. discriminate.
           ++ apply Hf. lia.
        -- rewrite He. destruct rem as [|rem'].
           ++ now rewrite Z.add_0_r, B.
           ++ f_equal. f_equal. lia.
        -- rewrite Hs. destruct (attempt <? retries); cbn [sent];
             now rewrite <- app_assoc.
Qed.

(** The failures of a backend, as the two functions that the lemmas on
    runs of failures take. *)
Lemma failures_as_functions (backend : Z -> NetOutcome) (P : Z -> Prop) :
  (forall a, P a -> failureOf (backend a) <> None) ->
  exists code message : Z -> string,
    forall a, P a -> backend a = NetFailure (code a) (message a).
Proof.
  intros H.
  exists (fun a => match backend a with NetFailure c _ => c | _ => "" end),
         (fun a => match backend a with NetFailure _ m => m | _ => "" end).
  intros a Ha. specialize (H a Ha).
  destruct (backend a); [now destruct H|reflexivity].
Qed.

(** X1. Whatever the backend does, [forwardRequest] makes at most
    [retries] calls, and after the [i]-th failed call that is not the last
    it sleeps [2^i * 100] ms: with [n >= 1] calls made the delays are
    exactly 200, 400, ..., [2^(n-1) * 100]. *)
Theorem backoff_schedule (targetUrl method path body : string)
    (hdrs : gmap string string) (t rs : option Z) (backend : Z -> NetOutcome) :
  let res := forwardRequest targetUrl method path body hdrs t rs backend in
  (attempts res.1 <= Z.to_nat (default 3%Z rs))%nat
  /\ delays res.1 = backoff 1 (attempts res.1 - 1)
  /\ (forall (i : nat) d, delays res.1 !! i = Some d -> d = 2 ^ (Z.of_nat i + 1) * 100).
Proof.
  intros res.
  assert (D : (attempts res.1 <= Z.to_nat (default 3%Z rs))%nat
              /\ delays res.1 = backoff 1 (attempts res.1 - 1)).
  { unfold res, forwardRequest.
    set (config := mkAxiosRequestConfig _ _ _ _ _ _).
    set (retries := default 3 rs).
    pose proof (forwardLoop_shape config backend retries (Z.to_nat retries) 1 None
                  (mkForwardTrace [] [])) as S.
    cbv zeta in S.
    destruct (forwardLoop config backend retries (Z.to_nat retries) 1 None
                (mkForwardTrace [] [])) as [tr [r|e]] eqn:E; cbn [fst snd] in *.
    - destruct S as (k & Hk & Hr & Hf & Hs).
      destruct (failures_as_functions backend
                  (fun a => 1 <= a < 1 + Z.of_nat k) Hf) as (code & message & Hc).
      rewrite (forwardLoop_retries_then_returns config backend retries r
                 code message k) in E; [|exact Hc|exact Hr|exact Hk|lia].
      injection E as <-. unfold attempts. cbn [sent delays app List.length].
      rewrite repeat_length. split; [lia|].
      now replace (S k - 1)%nat with k by lia.
    - destruct S as (Hf & He & Hs).
      destruct (Z.to_nat retries) as [|rem] eqn:R.
      + cbn in E. injection E as <- _. now split.
      + destruct (failures_as_functions backend
                    (fun a => 1 <= a < 1 + Z.of_nat (S rem)) Hf)
          as (code & message & Hc).
        rewrite (forwardLoop_exhausted config backend retries code message rem)
          in E; [|exact Hc|lia].
        injection E as <- _. unfold attempts. cbn [sent delays app List.length].
        rewrite repeat_length. split; [lia|].
        now replace (S rem - 1)%nat with rem by lia. }
  destruct D as [D1 D2]. split; [exact D1|]. split; [exact D2|].
  intros i d Hd. rewrite D2 in Hd. unfold backoff in Hd.
  rewrite list_lookup_fmap in Hd.
  destruct (seq 0 (attempts res.1 - 1) !! i) as [j|] eqn:J; [|discriminate].
  apply lookup_seq in J as [-> _]. injection Hd as <-. f_equal. f_equal. lia.
Qed.

(** X2. [forwardRequest] returns a response exactly when some attempt
    within the budget gets one and every earlier attempt failed below
    HTTP; it is then the first response, after that many calls. *)
Theorem returns_first_response (targetUrl method path body : string)
    (hdrs : gmap string string) (t rs : option Z) (backend : Z -> NetOutcome)
    (r : AxiosResponse) :
  let res := forwardRequest targetUrl method path body hdrs t rs backend in
  res.2 = Returned r
  <-> exists k : nat,
        1 + Z.of_nat k <= default 3 rs
        /\ backend (1 + Z.of_nat k) = NetResponse r
        /\ (forall a, 1 <= a <= Z.of_nat k -> failureOf (backend a) <> None)
        /\ attempts res.1 = S k.
Proof.
  intros res. split.
  - intros E. unfold res, forwardRequest in *.
    set (config := mkAxiosRequestConfig _ _ _ _ _ _) in *.
    set (retries := default 3 rs) in *.
    pose proof (forwardLoop_shape config backend retries (Z.to_nat retries) 1 None
                  (mkForwardTrace [] [])) as S.
    cbv zeta in S. rewrite E in S.
    destruct S as (k & Hk & Hr & Hf & Hs). exists k.
    split; [lia|]. split; [exact Hr|]. split; [intros a Ha; apply Hf; lia|].
    unfold attempts. rewrite Hs. cbn [sent app]. now rewrite repeat_length.
  - intros (k & Hk & Hr & Hf & _).
    destruct (failures_as_functions backend (fun a => 1 <= a <= Z.of_nat k) Hf)
      as (code & message & Hc).
    now apply (forwardRequest_retries_then_returns targetUrl method path body
                 hdrs t rs backend r code message k Hc Hr Hk).
Qed.

(** What a throwing run of [forwardRequest] looks like. *)
Lemma thrown_run_shape (targetUrl method path body : string)
    (hdrs : gmap string string) (t rs : option Z) (backend : Z -> NetOutcome) :
  let res := forwardRequest targetUrl method path body hdrs t rs backend in
  let retries := default 3 rs in
  forall e,
    res.2 = Thrown e ->
    (retries <= 0 /\ e = None /\ attempts res.1 = 0%nat)
    \/ (1 <= retries
        /\ (forall a, 1 <= a <= retries -> failureOf (backend a) <> None)
        /\ (exists c m, e = Some (networkError c m))
        /\ e = failureOf (backend retries)).
Proof.
  intros res retries e E. unfold res, forwardRequest in *. fold retries in E |- *.
  set (config := mkAxiosRequestConfig _ _ _ _ _ _) in *.
  pose proof (forwardLoop_shape config backend retries (Z.to_nat retries) 1 None
                (mkForwardTrace [] [])) as S.
  cbv zeta in S. rewrite E in S. destruct S as (Hf & He & Hs).
  destruct (Z.to_nat retries) as [|rem] eqn:R.
  - left. split; [lia|]. split; [exact He|].
    unfold attempts. now rewrite Hs.
  - right. split; [lia|]. split; [intros a Ha; apply Hf; lia|].
    assert (He' : e = failureOf (backend retries))
      by (rewrite He; do 2 f_equal; lia).
    split; [|exact He'].
    specialize (Hf retries ltac:(lia)). rewrite He'.
    destruct (backend retries); [now destruct Hf|]. simpl. eauto.
Qed.

(** X3. [forwardRequest] throws exactly when the budget is used up by
    failures below HTTP, and then the error of the last attempt, or when
    the budget is not positive, and then [null] without any call.  An
    error it throws never carries a response. *)
Theorem throws_last_failure (targetUrl method path body : string)
    (hdrs : gmap string string) (t rs : option Z) (backend : Z -> NetOutcome)
    (e : option AxiosError) :
  let res := forwardRequest targetUrl method path body hdrs t rs backend in
  let retries := default 3 rs in
  (res.2 = Thrown e
   <-> (retries <= 0 /\ e = None)
       \/ (1 <= retries
           /\ (forall a, 1 <= a <= retries -> failureOf (backend a) <> None)
           /\ e = failureOf (backend retries)))
  /\ (res.2 = Thrown e ->
      (retries <= 0 -> attempts res.1 = 0%nat)
      /\ forall err, e = Some err -> err_response err = None).
Proof.
  intros res retries.
  assert (Fwd : res.2 = Thrown e ->
            (retries <= 0 /\ e = None /\ attempts res.1 = 0%nat)
            \/ (1 <= retries
                /\ (forall a, 1 <= a <= retries -> failureOf (backend a) <> None)
                /\ e = failureOf (backend retries))).
  { intros E. unfold res, forwardRequest in *. fold retries in E |- *.
    set (config := mkAxiosRequestConfig _ _ _ _ _ _) in *.
    pose proof (forwardLoop_shape config backend retries (Z.to_nat retries) 1 None
                  (mkForwardTrace [] [])) as S.
    cbv zeta in S. rewrite E in S. destruct S as (Hf & He & Hs).
    destruct (Z.to_nat retries) as [|rem] eqn:R.
    - left. split; [lia|]. split; [exact He|].
      unfold attempts. now rewrite Hs.
    - right. split; [lia|]. split; [intros a Ha; apply Hf; lia|].
      rewrite He. do 2 f_equal. lia. }
  split; [split|].
  - intros E. destruct (Fwd E) as [(H & He & _)|H]; [left|right]; auto.
  - intros [[H ->]|(H1 & Hf & ->)].
    + unfold res, forwardRequest. fold retries.
      replace (Z.to_nat retries) with 0%nat by lia. reflexivity.
    + destruct (failures_as_functions backend (fun a => 1 <= a <= retries) Hf)
        as (code & message & Hc).
      destruct (forwardRequest_exhausted targetUrl method path body hdrs t rs
                  backend code message H1 Hc) as (_ & _ & E).
      fold res retries in E. rewrite E. rewrite (Hc retries) by lia. reflexivity.
  - intros E. destruct (Fwd E) as [(H & -> & Ha)|(H1 & Hf & ->)].
    + split; [auto|]. intros err Herr. discriminate Herr.
    + split; [intros; lia|]. intros err Herr.
      destruct (backend retries); [discriminate Herr|].
      injection Herr as <-. reflexivity.
Qed.

(** ** [proxyRequest]: what is sent, and when nothing is answered *)

Lemma proxyRequest_resolved mappings reg backend req m svc :
  findMapping mappings (path req) = Some m ->
  getService reg (serviceName m) = Some svc ->
  proxyRequest mappings reg backend req
  = let res := forwardRequest (url svc) (method req) (targetPathOf m (path req))
                 (body req) (headers req) (timeout svc) (retries svc) backend in
    (res.1,
     match res.2 with
     | Returned response =>
         Answered (mkAnswer (resp_status response) (Relayed (resp_data response)))
     | Thrown (Some e) => Answered (answerFailure e)
     | Thrown None => Unhandled
     end).
Proof.
  intros Hm Hs. unfold proxyRequest. rewrite Hm, Hs. cbv zeta.
  now destruct (forwardRequest _ _ _ _ _ _ _ _) as [tr [r|[e|]]].
Qed.

(** X4. [proxyRequest] leaves the request without any answer exactly when
    the route resolves to a registered service whose retry budget is not
    positive; it then has called nobody.  In every other case it answers. *)
Theorem unanswered_iff_no_budget (mappings : list RouteMapping)
    (reg : ServiceRegistry) (backend : Z -> NetOutcome) (req : Request) :
  ((proxyRequest mappings reg backend req).2 = Unhandled
   <-> exists m svc,
         findMapping mappings (path req) = Some m
         /\ getService reg (serviceName m) = Some svc
         /\ default 3 (retries svc) <= 0)
  /\ ((proxyRequest mappings reg backend req).2 = Unhandled ->
      sent (proxyRequest mappings reg backend req).1 = []).
Proof.
  destruct (findMapping mappings (path req)) as [m|] eqn:Hm.
  2:{ unfold proxyRequest. rewrite Hm. cbn [snd fst sent].
      split; [split|]; [discriminate| |discriminate].
      intros (m & svc & H & _). discriminate H. }
  destruct (getService reg (serviceName m)) as [svc|] eqn:Hs.
  2:{ unfold proxyRequest. rewrite Hm, Hs. cbn [snd fst sent].
      split; [split|]; [discriminate| |discriminate].
      intros (m' & svc & H & G & _). congruence. }
  rewrite (proxyRequest_resolved _ _ _ _ _ _ Hm Hs). cbv zeta. cbn [fst snd].
  set (res := forwardRequest _ _ _ _ _ _ _ _).
  pose proof (thrown_run_shape (url svc) (method req)
                (targetPathOf m (path req)) (body req) (headers req)
                (timeout svc) (retries svc) backend) as T.
  cbv zeta in T. fold res in T.
  assert (U : match res.2 with
              | Returned response =>
                  Answered (mkAnswer (resp_status response)
                              (Relayed (resp_data response)))
              | Thrown (Some e) => Answered (answerFailure e)
              | Thrown None => Unhandled
              end = Unhandled <-> res.2 = Thrown None).
  { destruct res.2 as [r|[e|]]; split; intros H; try discriminate H; reflexivity. }
  split; [split|].
  - intros H. apply U in H. exists m, svc. split; [reflexivity|].
    split; [exact Hs|]. destruct (T None H) as [[Hr _]|(_ & _ & He & _)];
      [exact Hr|].
    destruct He as (c & msg & He). discriminate He.
  - intros (m' & svc' & [= <-] & G & Hr).
    assert (svc' = svc) by congruence. subst svc'.
    apply U. destruct res.2 as [r|e] eqn:E.
    + exfalso.
      pose proof (forwardLoop_shape
        (mkAxiosRequestConfig (method req)
           (url svc ++ targetPathOf m (path req)) (body req)
           (outboundHeaders (headers req)) (default 5000 (timeout svc)) 5)
        backend (default 3 (retries svc))
        (Z.to_nat (default 3 (retries svc))) 1 None (mkForwardTrace [] [])) as S.
      cbv zeta in S. unfold res, forwardRequest in E. rewrite E in S.
      destruct S as (k & Hk & _). lia.
    + destruct (T e eq_refl) as [[_ [-> _]]|(H1 & _)]; [reflexivity|lia].
  - intros H. apply U in H.
    destruct (T None H) as [(_ & _ & Ha)|(_ & _ & He & _)].
    + unfold attempts in Ha. now apply length_zero_iff_nil.
    + destruct He as (c & msg & He). discriminate He.
Qed.

Lemma forwardRequest_sent targetUrl method path body hdrs t rs backend cfg :
  In cfg (sent (forwardRequest targetUrl method path body hdrs t rs backend).1) ->
  cfg = mkAxiosRequestConfig method (targetUrl ++ path) body
          (outboundHeaders hdrs) (default 5000 t) 5.
Proof.
  unfold forwardRequest.
  match goal with
  | |- context [forwardLoop ?c ?b ?rt ?rem ?a ?le ?tr] =>
      destruct (forwardLoop_sent c b rt rem a le tr) as (k & _ & E)
  end.
  rewrite E. cbn [sent app]. intros H. now apply repeat_spec in H.
Qed.

(** X5. Every call of one [forwardRequest], first try or retry, is the same
    request: the URL is [targetUrl + path], method and body are the inbound
    ones, the timeout is the given one or 5000 ms.  Its [host] header is
    [undefined]; [X-Forwarded-Proto] is the inbound [x-forwarded-proto] or
    ["http"]; [X-Forwarded-For] is the inbound [x-forwarded-for] or else
    [x-real-ip]; every other inbound header goes out unchanged, and no
    other header is added. *)
Theorem every_attempt_sends_the_same_request (targetUrl method path body : string)
    (hdrs : gmap string string) (t rs : option Z) (backend : Z -> NetOutcome)
    (cfg : AxiosRequestConfig) :
  In cfg (sent (forwardRequest targetUrl method path body hdrs t rs backend).1) ->
  cfg_url cfg = targetUrl ++ path
  /\ cfg_method cfg = method
  /\ cfg_data cfg = body
  /\ cfg_timeout cfg = default 5000 t
  /\ cfg_headers cfg !! "host" = Some None
  /\ cfg_headers cfg !! "X-Forwarded-Proto"
     = Some (Some (match hdrs !! "x-forwarded-proto" with
                   | Some (String c s) => String c s
                   | _ => "http"
                   end))
  /\ cfg_headers cfg !! "X-Forwarded-For"
     = Some (match hdrs !! "x-forwarded-for" with
             | Some (String c s) => Some (String c s)
             | _ => hdrs !! "x-real-ip"
             end)
  /\ forall k, k <> "host" -> k <> "X-Forwarded-Proto" -> k <> "X-Forwarded-For" ->
               cfg_headers cfg !! k = Some <$> (hdrs !! k).
Proof.
  intros H. apply forwardRequest_sent in H. subst cfg.
  cbn [cfg_url cfg_method cfg_data cfg_timeout cfg_headers].
  repeat split.
  - unfold outboundHeaders.
    rewrite !lookup_insert_ne by discriminate. apply lookup_insert_eq.
  - unfold outboundHeaders. rewrite lookup_insert_eq.
    now destruct (hdrs !! "x-forwarded-proto") as [[|c s]|].
  - unfold outboundHeaders.
    rewrite lookup_insert_ne by discriminate. rewrite lookup_insert_eq.
    now destruct (hdrs !! "x-forwarded-for") as [[|c s]|].
  - intros k n1 n2 n3. unfold outboundHeaders.
    rewrite !lookup_insert_ne by congruence. apply lookup_fmap.
Qed.

Lemma every_attempt_sends_the_same_request_witness :
  let hdrs : gmap string string :=
    <["host" := "gateway.example.com"]>
      (<["x-real-ip" := "203.0.113.9"]> {["accept" := "application/json"]}) in
  let backend := fun a : Z =>
    if a <? 3 then NetFailure "ECONNREFUSED" "connect ECONNREFUSED"
    else NetResponse (mkAxiosResponse 200 "[]" ∅) in
  let cfg := mkAxiosRequestConfig "GET" "http://localhost:3000/api/products" ""
               (outboundHeaders hdrs) 5000 5 in
  sent (forwardRequest "http://localhost:3000" "GET" "/api/products" "" hdrs
          None (Some 3) backend).1 = [cfg; cfg; cfg]
  /\ cfg_headers cfg !! "host" = Some None
  /\ cfg_headers cfg !! "X-Forwarded-Proto" = Some (Some "http")
  /\ cfg_headers cfg !! "X-Forwarded-For" = Some (Some "203.0.113.9")
  /\ cfg_headers cfg !! "accept" = Some (Some "application/json").
Proof.
  intros hdrs backend cfg.
  assert (S : sent (forwardRequest "http://localhost:3000" "GET" "/api/products"
                      "" hdrs None (Some 3) backend).1 = [cfg; cfg; cfg])
    by reflexivity.
  split; [exact S|].
  destruct (every_attempt_sends_the_same_request "http://localhost:3000" "GET"
              "/api/products" "" hdrs None (Some 3) backend cfg)
    as (_ & _ & _ & _ & Hh & Hp & Hf & Ho).
  { rewrite S. now left. }
  split; [exact Hh|]. split; [exact Hp|]. split; [exact Hf|].
  apply (Ho "accept"); discriminate.
Defined.

(** X6. [proxyRequest] follows the resolution of the path.  With no
    matching rule it answers 404 and with an unregistered service 503, in
    both cases without calling anybody; with a resolved route every call
    it makes goes to [service.url + targetPath] with the inbound method and
    body and the service's timeout, at most [service.retries] times. *)
Theorem proxy_calls_only_the_resolved_target (mappings : list RouteMapping)
    (reg : ServiceRegistry) (backend : Z -> NetOutcome) (req : Request) :
  match resolve mappings (services reg) (path req) with
  | RouteNotFound =>
      proxyRequest mappings reg backend req
      = (mkForwardTrace [] [],
         Answered (mkAnswer 404
           (JsonError "Route not found"
              ("No service configured for path: " ++ path req))))
  | ServiceNotRegistered n =>
      proxyRequest mappings reg backend req
      = (mkForwardTrace [] [],
         Answered (mkAnswer 503
           (JsonError "Service unavailable"
              ("Service " ++ n ++ " not found in registry"))))
  | Resolved m svc targetPath =>
      (attempts (proxyRequest mappings reg backend req).1
       <= Z.to_nat (default 3%Z (retries svc)))%nat
      /\ forall cfg,
           In cfg (sent (proxyRequest mappings reg backend req).1) ->
           cfg_url cfg = url svc ++ targetPath
           /\ cfg_method cfg = method req
           /\ cfg_data cfg = body req
           /\ cfg_timeout cfg = default 5000 (timeout svc)
           /\ cfg_headers cfg = outboundHeaders (headers req)
  end.
Proof.
  unfold resolve.
  destruct (findMapping mappings (path req)) as [m|] eqn:Hm.
  - destruct (JsMap.get (serviceName m) (services reg)) as [svc|] eqn:Hs.
    + rewrite (proxyRequest_resolved mappings reg backend req m svc Hm Hs).
      cbv zeta. cbn [fst]. split; [apply forwardRequest_attempts|].
      intros cfg Hin. apply forwardRequest_sent in Hin. now subst cfg.
    + unfold proxyRequest, getService. now rewrite Hm, Hs.
  - unfold proxyRequest. now rewrite Hm.
Qed.

(** ** The configured tables *)

Lemma configured_prefixes_exclusive path m1 m2 :
  In m1 ROUTE_MAPPINGS -> In m2 ROUTE_MAPPINGS ->
  JsString.startsWith path (prefix m1) = true ->
  JsString.startsWith path (prefix m2) = true ->
  m1 = m2.
Proof.
  unfold JsString.startsWith. intros H1 H2 P1 P2.
  apply prefix_decompose in P1.
  simpl in H1, H2.
  repeat destruct H1 as [<-|H1]; try contradiction;
    repeat destruct H2 as [<-|H2]; try contradiction; try reflexivity;
    exfalso; rewrite P1 in P2; cbv in P2; discriminate P2.
Qed.

(** X7. On the configured tables, for every path: at most one rule of
    [ROUTE_MAPPINGS] matches, so the order of the rules decides nothing,
    and the service of the matching rule is registered, so the gateway
    never answers that a service is missing from the registry. *)
Theorem configured_routes_are_sound (path : string) (now : Z) :
  (forall m1 m2,
     In m1 ROUTE_MAPPINGS -> In m2 ROUTE_MAPPINGS ->
     JsString.startsWith path (prefix m1) = true ->
     JsString.startsWith path (prefix m2) = true ->
     m1 = m2)
  /\ (forall m, In m ROUTE_MAPPINGS ->
        JsString.startsWith path (prefix m) = true ->
        findMapping ROUTE_MAPPINGS path = Some m)
  /\ (forall n,
        resolve ROUTE_MAPPINGS (services (newServiceRegistry SERVICES now)) path
        <> ServiceNotRegistered n).
Proof.
  split; [|split].
  - intros m1 m2. apply configured_prefixes_exclusive.
  - intros m Hin Hm.
    destruct (findMapping ROUTE_MAPPINGS path) as [m'|] eqn:F.
    + f_equal. apply find_some in F as [Hin' Hm'].
      now apply (configured_prefixes_exclusive path).
    + apply findMapping_None in F.
      rewrite List.Forall_forall in F. specialize (F m Hin). congruence.
  - intros n. unfold resolve.
    destruct (findMapping ROUTE_MAPPINGS path) as [m|] eqn:F; [|discriminate].
    apply find_some in F as [Hin _]. simpl in Hin.
    repeat destruct Hin as [<-|Hin]; try contradiction; discriminate.
Qed.

(** X8. [getServiceByRoute] gives the service of the first rule whose
    prefix starts the path, and [proxyRequest] calls that service and no
    other: where [getServiceByRoute] finds nothing, [proxyRequest] calls
    nobody. *)
Theorem getServiceByRoute_is_the_proxy_target (mappings : list RouteMapping)
    (reg : ServiceRegistry) (backend : Z -> NetOutcome) (req : Request) :
  match getServiceByRoute mappings reg (path req) with
  | Some svc =>
      exists m,
        firstMatch mappings (path req) m
        /\ getService reg (serviceName m) = Some svc
        /\ forall cfg,
             In cfg (sent (proxyRequest mappings reg backend req).1) ->
             cfg_url cfg = url svc ++ targetPathOf m (path req)
  | None =>
      sent (proxyRequest mappings reg backend req).1 = []
      /\ (Forall (fun m => JsString.startsWith (path req) (prefix m) = false) mappings
          \/ exists m, firstMatch mappings (path req) m
                       /\ getService reg (serviceName m) = None)
  end.
Proof.
  unfold getServiceByRoute. fold (findMapping mappings (path req)).
  destruct (findMapping mappings (path req)) as [m|] eqn:Hm.
  - pose proof (findMapping_Some _ _ _ Hm) as FM.
    destruct (JsMap.get (serviceName m) (services reg)) as [svc|] eqn:Hs.
    + exists m. split; [exact FM|]. split; [exact Hs|].
      rewrite (proxyRequest_resolved mappings reg backend req m svc Hm Hs).
      cbv zeta. cbn [fst]. intros cfg Hin.
      apply forwardRequest_sent in Hin. now subst cfg.
    + split; [|right; eauto].
      unfold proxyRequest, getService. now rewrite Hm, Hs.
  - split; [|left; now apply findMapping_None].
    unfold proxyRequest. now rewrite Hm.
Qed.

(** ** The auth gate: all outcomes *)

Lemma bearer_decompose h :
  JsString.startsWith h "Bearer " = true ->
  h = "Bearer " ++ JsString.substring_from 7 h.
Proof. intros H. exact (prefix_decompose "Bearer " h H). Qed.

Lemma bearer_token token :
  JsString.substring_from 7 ("Bearer " ++ token) = token.
Proof. apply bearer_header. Qed.

Lemma truthy_Some_iff s : JsString.truthy (Some s) = true <-> s <> "".
Proof.
  unfold JsString.truthy. destruct (String.eqb_spec s ""); split; intros H;
    try reflexivity; try discriminate; try assumption; contradiction.
Qed.

Lemma required_mode_statuses jwt_verify req :
  match authenticateRequest jwt_verify req with
  | Next _ => True
  | Respond a => ans_status a = 401 \/ ans_status a = 500
  end.
Proof.
  unfold authenticateRequest.
  destruct (headers req !! "authorization") as [h|]; [|now left].
  destruct (negb (JsString.truthy (Some h))); [now left|].
  destruct (negb (JsString.startsWith h "Bearer ")); [now left|].
  destruct (negb (JsString.truthy (Some (JsString.substring_from 7 h))));
    [now left|].
  destruct (jwt_verify _ _) as [e|d]; [|exact I].
  destruct (String.eqb (error_name e) "TokenExpiredError"); [now left|].
  destruct (String.eqb (error_name e) "JsonWebTokenError"); [now left|now right].
Qed.

(** Required mode, read off its result. *)
Lemma required_mode_cases
    (jwt_verify : string -> string -> JsError + JWTPayload) (req : Request) :
  match authenticateRequest jwt_verify req with
  | Next req' =>
      exists token d,
        headers req !! "authorization" = Some ("Bearer " ++ token)
        /\ token <> ""
        /\ jwt_verify token GATEWAY_CONFIG.jwtSecret = inr d
        /\ req' = attachIdentity d req
  | Respond a =>
      (ans_status a = 401 \/ ans_status a = 500)
      /\ (ans_status a = 500 <->
          exists token e,
            headers req !! "authorization" = Some ("Bearer " ++ token)
            /\ token <> ""
            /\ jwt_verify token GATEWAY_CONFIG.jwtSecret = inl e
            /\ error_name e <> "TokenExpiredError"
            /\ error_name e <> "JsonWebTokenError")
  end.
Proof.
  unfold authenticateRequest.
  destruct (headers req !! "authorization") as [h|] eqn:Hh.
  2:{ cbn. split; [now left|]. split; [discriminate|].
      intros (token & e & H & _). discriminate H. }
  destruct (JsString.truthy (Some h)) eqn:T; cbn [negb].
  2:{ cbn. split; [now left|]. split; [discriminate|].
      intros (token & e & [= ->] & _). discriminate T. }
  destruct (JsString.startsWith h "Bearer ") eqn:B; cbn [negb].
  2:{ cbn. split; [now left|]. split; [discriminate|].
      intros (token & e & [= ->] & _).
      unfold JsString.startsWith in B. now rewrite prefix_append in B. }
  pose proof (bearer_decompose h B) as Dh.
  set (token := JsString.substring_from 7 h) in *.
  destruct (JsString.truthy (Some token)) eqn:Tt; cbn [negb].
  2:{ cbn. split; [now left|]. split; [discriminate|].
      intros (token' & e & [= E] & Ht & _). rewrite Dh in E.
      apply (f_equal (JsString.substring_from 7)) in E.
      rewrite !bearer_token in E. subst token'.
      apply truthy_Some_iff in Ht. congruence. }
  apply truthy_Some_iff in Tt.
  destruct (jwt_verify token GATEWAY_CONFIG.jwtSecret) as [e|d] eqn:V.
  - assert (Inv : forall token' e',
              Some h = Some ("Bearer " ++ token') ->
              jwt_verify token' GATEWAY_CONFIG.jwtSecret = inl e' -> e' = e).
    { intros token' e' [= E] V'. rewrite Dh in E.
      apply (f_equal (JsString.substring_from 7)) in E.
      rewrite !bearer_token in E. subst token'.
      congruence. }
    destruct (String.eqb_spec (error_name e) "TokenExpiredError") as [E1|E1].
    { cbn. split; [now left|]. split; [discriminate|].
      intros (token' & e' & H & _ & V' & N1 & _).
      rewrite (Inv _ _ H V') in N1. contradiction. }
    destruct (String.eqb_spec (error_name e) "JsonWebTokenError") as [E2|E2].
    { cbn. split; [now left|]. split; [discriminate|].
      intros (token' & e' & H & _ & V' & _ & N2).
      rewrite (Inv _ _ H V') in N2. contradiction. }
    cbn. split; [now right|]. split; [|reflexivity].
    intros _. exists token, e. rewrite <- Dh. auto.
  - exists token, d. rewrite <- Dh. auto.
Qed.

(** Required mode on a bearer token that [jwt.verify] accepts. *)
Lemma accepted_bearer_passes jwt_verify req d :
  acceptedBearer jwt_verify req d ->
  authenticateRequest jwt_verify req = Next (attachIdentity d req).
Proof.
  intros (token & Hh & Ht & V). unfold authenticateRequest. rewrite Hh.
  destruct (bearer_header token) as (T & B & S).
  rewrite T, B, S. cbn [negb].
  rewrite (truthy_nonempty token Ht). cbn [negb]. now rewrite V.
Qed.

Lemma bearer_token_unique req token token' :
  headers req !! "authorization" = Some ("Bearer " ++ token) ->
  headers req !! "authorization" = Some ("Bearer " ++ token') ->
  token = token'.
Proof.
  intros H H'.
  assert (E : "Bearer " ++ token = "Bearer " ++ token') by congruence.
  apply (f_equal (JsString.substring_from 7)) in E.
  now rewrite !bearer_token in E.
Qed.

(** X9. Required mode has three outcomes, and the request decides which.
    It calls [next()] exactly when the header is [Bearer <token>] with a
    token that is not empty and that [jwt.verify] accepts, and it hands on
    exactly the request with the verified identity attached.  It answers
    500 exactly when [jwt.verify] throws, on such a header, an error whose
    name is neither [TokenExpiredError] nor [JsonWebTokenError].  It
    answers 401 exactly in every other case, and it answers nothing
    else. *)
Theorem required_mode_outcomes
    (jwt_verify : string -> string -> JsError + JWTPayload) (req : Request) :
  (forall req',
     authenticateRequest jwt_verify req = Next req'
     <-> exists d, acceptedBearer jwt_verify req d /\ req' = attachIdentity d req)
  /\ ((exists a, authenticateRequest jwt_verify req = Respond a
                 /\ ans_status a = 500)
      <-> unknownVerifyError jwt_verify req)
  /\ ((exists a, authenticateRequest jwt_verify req = Respond a
                 /\ ans_status a = 401)
      <-> ~ (exists d, acceptedBearer jwt_verify req d)
          /\ ~ unknownVerifyError jwt_verify req)
  /\ (forall a, authenticateRequest jwt_verify req = Respond a ->
                ans_status a = 401 \/ ans_status a = 500).
Proof.
  pose proof (required_mode_cases jwt_verify req) as C.
  assert (Excl : forall d, acceptedBearer jwt_verify req d ->
                           ~ unknownVerifyError jwt_verify req).
  { intros d (token & Hh & _ & V) (token' & e & Hh' & _ & V' & _).
    rewrite (bearer_token_unique req token token' Hh Hh') in V. congruence. }
  split; [|split; [|split]].
  - intros req'. split.
    + intros E. rewrite E in C. destruct C as (token & d & Hh & Ht & V & ->).
      exists d. split; [|reflexivity]. now exists token.
    + intros (d & A & ->). now apply accepted_bearer_passes.
  - split.
    + intros (a & E & S). rewrite E in C. now apply C.
    + intros U. destruct (authenticateRequest jwt_verify req) as [req'|a] eqn:E.
      * destruct C as (token & d & Hh & Ht & V & _).
        exfalso. apply (Excl d); [now exists token|exact U].
      * exists a. split; [reflexivity|]. now apply C.
  - split.
    + intros (a & E & S). split.
      * intros (d & A). rewrite (accepted_bearer_passes _ _ _ A) in E.
        discriminate E.
      * intros U. rewrite E in C. apply C in U. lia.
    + intros (NA & NU).
      destruct (authenticateRequest jwt_verify req) as [req'|a] eqn:E.
      * destruct C as (token & d & Hh & Ht & V & _).
        exfalso. apply NA. exists d. now exists token.
      * exists a. split; [reflexivity|].
        destruct C as ([S|S] & I); [exact S|]. exfalso. apply NU. now apply I.
  - intros a E. rewrite E in C. apply C.
Qed.

(** X10. Optional mode never answers: it always hands the request on.  The
    request it hands on has the path, method, body and address of the
    inbound one and the same headers except [x-user-id] and
    [x-user-email]; it is the inbound request itself unless the bearer
    token was verified, and then it carries the verified user. *)
Theorem optional_mode_never_rejects
    (jwt_verify : string -> string -> JsError + JWTPayload) (req : Request) :
  exists req',
    optionalAuth jwt_verify req = Next req'
    /\ path req' = path req /\ method req' = method req
    /\ body req' = body req /\ remoteAddress req' = remoteAddress req
    /\ (forall k, k <> "x-user-id" -> k <> "x-user-email" ->
                  headers req' !! k = headers req !! k)
    /\ match verifiedIdentity jwt_verify req with
       | Some d =>
           user req' = Some (mkUser (jwt_id d) (jwt_email d))
           /\ headers req' !! "x-user-id" = Some (jwt_id d)
           /\ headers req' !! "x-user-email" = Some (jwt_email d)
       | None => req' = req
       end.
Proof.
  rewrite optionalAuth_next. eexists. split; [reflexivity|].
  destruct (verifiedIdentity jwt_verify req) as [d|].
  - cbn [attachIdentity path method body remoteAddress headers user].
    repeat split.
    + intros k n1 n2. now rewrite !lookup_insert_ne by congruence.
    + rewrite lookup_insert_ne by discriminate. apply lookup_insert_eq.
    + apply lookup_insert_eq.
  - repeat split.
Qed.

Lemma limitRequest_respond message windowMs max store now req store' hdrs a :
  limitRequest message windowMs max store now req = (store', hdrs, Respond a) ->
  ans_status a = 429.
Proof.
  unfold limitRequest.
  destruct (_ >? max); intros H; [|discriminate]. now injection H as _ _ <-.
Qed.

Lemma authenticateRequest_respond jwt_verify req a :
  authenticateRequest jwt_verify req = Respond a ->
  ans_status a = 401 \/ ans_status a = 500.
Proof.
  intros H. pose proof (required_mode_statuses jwt_verify req) as R.
  rewrite H in R. exact R.
Qed.

(** X11. A route with [authRequired] is never forwarded without a verified
    token: when the first matching rule requires auth and the request's
    bearer token is not verified, the chain calls no backend and answers
    429, 401 or 500; with no Authorization header at all, a request that
    passes the limiter is answered 401, "No authorization token
    provided". *)
Theorem protected_routes_need_a_verified_token
    (jwt_verify : string -> string -> JsError + JWTPayload)
    (mappings : list RouteMapping) (reg : ServiceRegistry)
    (backend : Z -> NetOutcome) (store : gmap string RateLimitEntry)
    (now : Z) (req : Request) (m : RouteMapping) :
  findMapping mappings (path req) = Some m ->
  flag (authRequired m) = true ->
  verifiedIdentity jwt_verify req = None ->
  let res := apiChain jwt_verify mappings reg backend store now req in
  sent (chain_trace res) = []
  /\ (exists a, chain_end res = Answered a
                /\ (ans_status a = 429 \/ ans_status a = 401 \/ ans_status a = 500))
  /\ (headers req !! "authorization" = None ->
      (rateLimiter store now req).2 = Next req ->
      chain_end res
      = Answered (mkAnswer 401
          (JsonError "Unauthorized" "No authorization token provided"))).
Proof.
  intros Hm Hr Hv res. unfold res, apiChain.
  destruct (rateLimiter store now req) as [[store' hdrs] [req1|a]] eqn:L.
  - unfold rateLimiter in L. apply limitRequest_next in L. subst req1.
    unfold conditionalAuth. rewrite Hm, Hr.
    destruct (authenticateRequest jwt_verify req) as [req2|a] eqn:A.
    + apply authenticateRequest_next in A as (d & V & _). congruence.
    + cbn [chain_trace chain_end sent]. split; [reflexivity|]. split.
      * exists a. split; [reflexivity|]. right.
        now apply (authenticateRequest_respond jwt_verify req).
      * intros Hh _. unfold authenticateRequest in A. rewrite Hh in A.
        now injection A as <-.
  - cbn [chain_trace chain_end sent snd]. split; [reflexivity|]. split.
    + exists a. split; [reflexivity|]. left.
      unfold rateLimiter in L. now apply limitRequest_respond in L.
    + intros _ H. discriminate H.
Qed.

Lemma protected_routes_need_a_verified_token_witness :
  let jwt_verify := fun (token _ : string) =>
    if String.eqb token "good"
    then inr (mkJWTPayload "u42" "ann@example.com" (Some 1) (Some 2))
    else inl (mkJsError "TokenExpiredError" "jwt expired") in
  let backend := fun _ : Z => NetResponse (mkAxiosResponse 200 "[]" ∅) in
  let reg := newServiceRegistry SERVICES 0 in
  let anonymous := mkRequest "/api/orders" "POST" "{}" ∅ (Some "203.0.113.9") None in
  let res := apiChain jwt_verify ROUTE_MAPPINGS reg backend ∅ 0 anonymous in
  sent (chain_trace res) = []
  /\ chain_end res
     = Answered (mkAnswer 401
         (JsonError "Unauthorized" "No authorization token provided")).
Proof.
  intros jwt_verify backend reg anonymous res.
  destruct (protected_routes_need_a_verified_token jwt_verify ROUTE_MAPPINGS reg
              backend ∅ 0 anonymous
              (mkRouteMapping "/api/orders" "order-service" (Some false) (Some true)))
    as (S & _ & A); [reflexivity|reflexivity|reflexivity|].
  split; [exact S|]. apply A; reflexivity.
Defined.

(** ** The registry: reads after writes *)

Lemma get_set_eq {V} k (v : V) (m : JsMap.t V) :
  JsMap.get k (JsMap.set k v m) = Some v.
Proof.
  induction m as [|[k' v'] m IH]; simpl.
  - now rewrite String.eqb_refl.
  - destruct (String.eqb k k') eqn:E; simpl.
    + now rewrite String.eqb_refl.
    + now rewrite E.
Qed.

Lemma get_set_ne {V} k k' (v : V) (m : JsMap.t V) :
  k <> k' -> JsMap.get k' (JsMap.set k v m) = JsMap.get k' m.
Proof.
  intros ne. induction m as [|[k0 v0] m IH]; simpl.
  - destruct (String.eqb_spec k' k); [congruence|reflexivity].
  - destruct (String.eqb_spec k k0) as [->|n0]; simpl.
    + destruct (String.eqb_spec k' k0); [congruence|reflexivity].
    + destruct (String.eqb k' k0); [reflexivity|exact IH].
Qed.

Lemma probeOk_axios p :
  axios (fun st => st =? 200) (probe_outcome p)
  = match probe_outcome p with
    | NetResponse r =>
        if resp_status r =? 200 then inr r
        else inl (mkAxiosError
                    (Some (if (400 <=? resp_status r) && (resp_status r <? 500)
                           then "ERR_BAD_REQUEST" else "ERR_BAD_RESPONSE"))
                    ("Request failed with status code " ++ decimal (resp_status r))
                    (Some r))
    | NetFailure c m => inl (networkError c m)
    end.
Proof. reflexivity. Qed.

(** X12. A probe of a registered service stores the record it returns and
    nothing else: [getHealthStatus] then gives that record, and
    [isServiceHealthy] is true exactly when the health endpoint answered
    200; the record has the response time and no error in that case, and
    status unhealthy with the error message and no response time in every
    other (another status, 2xx included, or no response); the records and
    the health of all other services stay as they were. *)
Theorem probe_is_stored (this : ServiceRegistry) (n : string) (now : Z)
    (p : Probe) (svc : ServiceConfig) :
  getService this n = Some svc ->
  let this' := (checkServiceHealth this n now p).1 in
  let hs := (checkServiceHealth this n now p).2 in
  getHealthStatus this' n = Some hs
  /\ isServiceHealthy this' n = probeOk p
  /\ service hs = n
  /\ lastCheck hs = probe_finishedAt p
  /\ (probeOk p = true ->
      status hs = healthy
      /\ responseTime hs = Some (probe_finishedAt p - now)
      /\ error hs = None)
  /\ (probeOk p = false ->
      status hs = unhealthy /\ responseTime hs = None /\ error hs <> None)
  /\ (forall n', n' <> n ->
        getHealthStatus this' n' = getHealthStatus this n'
        /\ isServiceHealthy this' n' = isServiceHealthy this n')
  /\ services this' = services this.
Proof.
  intros Hs this' hs. unfold this', hs, checkServiceHealth, checkServiceHealth_start.
  unfold getService in Hs. rewrite Hs.
  unfold checkServiceHealth_settle, getHealthStatus, isServiceHealthy, probeOk.
  rewrite probeOk_axios.
  destruct (probe_outcome p) as [r|c msg];
    [destruct (resp_status r =? 200) eqn:E|];
    cbn [fst snd set_healthStatus healthStatuses services service status
         responseTime lastCheck error err_message networkError];
    rewrite get_set_eq; cbn [status];
    (repeat split; try discriminate; try reflexivity;
     try (rewrite get_set_ne by congruence; reflexivity)).
Qed.

Lemma probe_is_stored_witness :
  let this := newServiceRegistry SERVICES 0 in
  let p := mkProbe (NetResponse (mkAxiosResponse 204 "" ∅)) 40 in
  let this' := (checkServiceHealth this "auth-service" 10 p).1 in
  isServiceHealthy this' "auth-service" = false
  /\ getHealthStatus this' "auth-service"
     = Some (mkHealthStatus "auth-service" unhealthy None 40
               (Some "Request failed with status code 204"))
  /\ getHealthStatus this' "order-service" = getHealthStatus this "order-service".
Proof.
  intros this p this'.
  destruct (probe_is_stored this "auth-service" 10 p
              (mkServiceConfig "auth-service" "http://localhost:3000" "/health"
                 (Some 5000) (Some 3)) eq_refl)
    as (G & H & _ & _ & _ & _ & O & _).
  split; [exact H|]. split; [exact G|].
  now apply (O "order-service").
Defined.

(** ** The registry after a round of probes *)

Lemma set_present_map {V} k (v : V) (m : JsMap.t V) :
  List.NoDup (JsMap.keys m) -> In k (JsMap.keys m) ->
  JsMap.set k v m = map (fun kv => if String.eqb k kv.1 then (k, v) else kv) m.
Proof.
  induction m as [|[k' v'] m IH]; simpl; intros D Hin; [contradiction|].
  inversion D as [|? ? Hn Hd]; subst.
  destruct (String.eqb_spec k k') as [->|ne].
  - f_equal. rewrite <- (map_id m) at 1. apply map_ext_in.
    intros [k0 v0] H0. simpl.
    destruct (String.eqb_spec k' k0) as [->|]; [|reflexivity].
    destruct Hn. apply in_map_iff. now exists (k0, v0).
  - f_equal. apply IH; [exact Hd|]. destruct Hin; [congruence|assumption].
Qed.

Lemma settleAll_store net now l :
  forall this (settled : gmap string HealthStatus),
    keysAgree this ->
    (forall n, In n l -> In n (JsMap.keys (services this))) ->
    healthStatuses (fold_left (settleOne net now) l (this, settled)).1
    = map (fun kv =>
             if match settled !! kv.1 with
                | Some _ => false
                | None => bool_decide (kv.1 ∈ l)
                end
             then (kv.1, settledRecord kv.1 now (net kv.1)) else kv)
        (healthStatuses this).
Proof.
  induction l as [|a l IH]; intros this settled K Hreg.
  - cbn [fold_left fst]. rewrite <- (map_id (healthStatuses this)) at 1.
    apply map_ext. intros kv. destruct (settled !! kv.1); [reflexivity|].
    now rewrite bool_decide_eq_false_2 by apply not_elem_of_nil.
  - cbn [fold_left].
    destruct (settleOne_preserves net now (this, settled) a K) as [K' S'].
    unfold settleOne in *.
    destruct (settled !! a) as [hs|] eqn:Ea.
    + rewrite IH by (auto; intros; apply Hreg; now right).
      apply map_ext. intros kv.
      destruct (settled !! kv.1) eqn:Ek; [reflexivity|].
      assert (kv.1 <> a) by congruence.
      rewrite (bool_decide_ext (kv.1 ∈ a :: l) (kv.1 ∈ l)); [reflexivity|].
      rewrite elem_of_cons. tauto.
    + unfold checkServiceHealth_start in *.
      destruct (JsMap.get a (services this)) as [svc|] eqn:G.
      2:{ apply get_None_keys in G. destruct G. apply Hreg. now left. }
      pose proof (settle_record this a now (net a)) as R.
      assert (H : healthStatuses (checkServiceHealth_settle this a now (net a)).1
                  = JsMap.set a (settledRecord a now (net a)) (healthStatuses this)).
      { rewrite <- R. unfold checkServiceHealth_settle.
        now destruct (axios _ (probe_outcome (net a))). }
      destruct (checkServiceHealth_settle this a now (net a)) as [this' hs'].
      cbn [fst snd] in *. subst hs'.
      rewrite IH by (auto; intros; rewrite S'; apply Hreg; now right).
      rewrite H. destruct K as [Ek Dk].
      rewrite set_present_map;
        [|now rewrite Ek|rewrite Ek; eapply get_Some_keys; eauto].
      rewrite map_map. apply map_ext. intros [k v]. cbn [fst].
      destruct (String.eqb_spec a k) as [->|ne]; cbn [fst].
      * rewrite lookup_insert_eq, Ea.
        rewrite bool_decide_eq_true_2 by apply list_elem_of_here. reflexivity.
      * rewrite lookup_insert_ne by exact ne.
        destruct (settled !! k); [reflexivity|].
        rewrite (bool_decide_ext (k ∈ a :: l) (k ∈ l)); [reflexivity|].
        rewrite elem_of_cons. split; [|tauto]. intros [e|i]; [congruence|exact i].
Qed.

Lemma checkAllServicesHealth_store this now net completion :
  keysAgree this ->
  healthStatuses (checkAllServicesHealth this now net completion).1
  = overwritten net now completion (healthStatuses this).
Proof.
  intros K. unfold checkAllServicesHealth, overwritten.
  set (started := JsMap.keys (services this)).
  set (cl := List.filter (fun n => bool_decide (n ∈ started)) completion).
  assert (Hreg : forall n, In n cl -> In n started).
  { intros n Hn. apply filter_In in Hn as [_ Hn].
    apply bool_decide_eq_true_1 in Hn. now apply list_elem_of_In. }
  pose proof (settleAll_store net now cl this ∅ K Hreg) as Q.
  destruct (fold_left _ cl _) as [this' settled]. cbn [fst] in *.
  rewrite Q. apply map_ext_in. intros [k v] Hin. cbn [fst].
  rewrite lookup_empty.
  rewrite (bool_decide_ext (k ∈ cl) (k ∈ completion)); [reflexivity|].
  unfold cl. rewrite !list_elem_of_In, filter_In.
  split; [tauto|]. intros i. split; [exact i|].
  apply bool_decide_eq_true_2, list_elem_of_In.
  destruct K as [Ek _]. unfold started. rewrite <- Ek.
  apply in_map_iff. now exists (k, v).
Qed.

Lemma checkServiceHealth_store this n t p :
  keysAgree this ->
  healthStatuses (checkServiceHealth this n t p).1
  = map (fun kv => if String.eqb n kv.1 then (kv.1, settledRecord kv.1 t p) else kv)
      (healthStatuses this).
Proof.
  intros [Ek Dk]. unfold checkServiceHealth, checkServiceHealth_start.
  destruct (JsMap.get n (services this)) as [svc|] eqn:G.
  - pose proof (settle_record this n t p) as R.
    assert (H : healthStatuses (checkServiceHealth_settle this n t p).1
                = JsMap.set n (settledRecord n t p) (healthStatuses this)).
    { rewrite <- R. unfold checkServiceHealth_settle.
      now destruct (axios _ (probe_outcome p)). }
    rewrite H, set_present_map;
      [|now rewrite Ek|rewrite Ek; eapply get_Some_keys; eauto].
    apply map_ext. intros kv.
    destruct (String.eqb_spec n kv.1) as [->|]; reflexivity.
  - cbn [fst]. rewrite <- (map_id (healthStatuses this)) at 1.
    apply map_ext_in. intros kv Hin.
    destruct (String.eqb_spec n kv.1) as [->|]; [|reflexivity].
    apply get_None_keys in G. destruct G. rewrite <- Ek.
    apply in_map_iff. now exists kv.
Qed.

Lemma settleInOrder_snoc this settles e :
  settleInOrder this (settles ++ [e])
  = (checkServiceHealth (settleInOrder this settles) e.1.1 e.1.2 e.2).1.
Proof. unfold settleInOrder. now rewrite fold_left_app. Qed.

Lemma settleInOrder_preserves this settles :
  keysAgree this ->
  keysAgree (settleInOrder this settles)
  /\ services (settleInOrder this settles) = services this
  /\ healthCheckInterval (settleInOrder this settles) = healthCheckInterval this.
Proof.
  intros K. induction settles as [|e l IH] using rev_ind.
  { split; [exact K|split; reflexivity]. }
  destruct IH as (K' & S' & I'). rewrite settleInOrder_snoc.
  split; [now apply checkServiceHealth_keysAgree|].
  split; [now rewrite checkServiceHealth_services|].
  now rewrite checkServiceHealth_interval.
Qed.

Lemma lastSettle_snoc n settles e :
  lastSettle n (settles ++ [e])
  = if String.eqb e.1.1 n then Some e else lastSettle n settles.
Proof. unfold lastSettle. now rewrite rev_app_distr. Qed.

Lemma lastSettle_round (now : Z) (net : string -> Probe) n (completion : list string) :
  lastSettle n (map (fun n => (n, now, net n)) completion)
  = if bool_decide (n ∈ completion) then Some (n, now, net n) else None.
Proof.
  induction completion as [|c l IH] using rev_ind.
  - now rewrite bool_decide_eq_false_2 by apply not_elem_of_nil.
  - rewrite map_app. cbn [map]. rewrite lastSettle_snoc. cbn [fst].
    destruct (String.eqb_spec c n) as [->|ne].
    + rewrite bool_decide_eq_true_2; [reflexivity|].
      apply elem_of_app. right. apply list_elem_of_here.
    + rewrite IH. apply (f_equal (fun b : bool => if b then _ else _)).
      apply bool_decide_ext. rewrite elem_of_app, list_elem_of_singleton.
      split; [tauto|]. intros [i|e]; [exact i|congruence].
Qed.

Lemma settleInOrder_store this settles :
  keysAgree this ->
  healthStatuses (settleInOrder this settles)
  = map (fun kv => match lastSettle kv.1 settles with
                   | Some e => (kv.1, settledRecord kv.1 e.1.2 e.2)
                   | None => kv
                   end)
      (healthStatuses this).
Proof.
  intros K. induction settles as [|e l IH] using rev_ind.
  - cbn. now rewrite map_id.
  - rewrite settleInOrder_snoc.
    rewrite checkServiceHealth_store by now apply settleInOrder_preserves.
    rewrite IH, map_map. apply map_ext. intros kv.
    rewrite lastSettle_snoc.
    assert (E : (match lastSettle kv.1 l with
                 | Some e0 => (kv.1, settledRecord kv.1 e0.1.2 e0.2)
                 | None => kv
                 end).1 = kv.1) by now destruct (lastSettle kv.1 l).
    rewrite E. now destruct (String.eqb e.1.1 kv.1).
Qed.

(** X13. Probes settle one at a time, in an order that the gateway does
    not choose, and those of rounds that overlap (the periodic one,
    [/ready], [/status]) settle in between each other.  Whatever the
    sequence, on a registry whose two maps have the same keys: the stored
    record of a service is the record of its probe that settled last,
    with the start time of that probe, a service none of whose probes has
    settled keeps its record, and the order is that of the registry.  So
    [getAllHealthStatuses] is the list that a round returned when the
    probes of that round were the last to settle for every service, and
    it need not be otherwise; a round that runs alone is such a
    sequence. *)
Theorem last_settle_wins (this : ServiceRegistry)
    (settles : list (string * Z * Probe)) :
  keysAgree this ->
  let after := settleInOrder this settles in
  healthStatuses after
  = map (fun kv => match lastSettle kv.1 settles with
                   | Some e => (kv.1, settledRecord kv.1 e.1.2 e.2)
                   | None => kv
                   end)
      (healthStatuses this)
  /\ services after = services this
  /\ (forall now net completion,
        (forall n, In n (JsMap.keys (services this)) ->
                   In n completion
                   /\ lastSettle n settles = Some (n, now, net n)) ->
        Some (getAllHealthStatuses after)
        = (checkAllServicesHealth this now net completion).2)
  /\ (forall now net completion,
        (checkAllServicesHealth this now net completion).1
        = settleInOrder this (map (fun n => (n, now, net n)) completion)).
Proof.
  intros K after.
  pose proof (settleInOrder_store this settles K) as St.
  split; [exact St|]. split; [now apply settleInOrder_preserves|]. split.
  - intros now net completion Hall. rewrite checkAllServicesHealth_result.
    rewrite (mapM_all _ (fun n => settledRecord n now (net n))).
    + f_equal. unfold getAllHealthStatuses, JsMap.values, after. rewrite St.
      rewrite map_map.
      destruct K as [Ek _]. rewrite <- Ek. unfold JsMap.keys. rewrite map_map.
      apply map_ext_in. intros [k v] Hin. cbn [fst snd].
      destruct (Hall k) as [_ L].
      { rewrite <- Ek. apply in_map_iff. now exists (k, v). }
      now rewrite L.
    + intros n Hn. rewrite bool_decide_eq_true_2; [reflexivity|].
      apply list_elem_of_In. now apply Hall.
  - intros now net completion.
    pose proof (checkAllServicesHealth_store this now net completion K) as S1.
    pose proof (checkAllServicesHealth_interval this now net completion) as I1.
    destruct (checkAllServicesHealth_preserves this now net completion K) as [_ V1].
    pose proof (settleInOrder_store this
                  (map (fun n => (n, now, net n)) completion) K) as S2.
    destruct (settleInOrder_preserves this
                (map (fun n => (n, now, net n)) completion) K) as (_ & V2 & I2).
    destruct (checkAllServicesHealth this now net completion).1 as [s1 h1 i1].
    destruct (settleInOrder this (map (fun n => (n, now, net n)) completion))
      as [s2 h2 i2].
    cbn [services healthStatuses healthCheckInterval] in *. subst.
    f_equal. unfold overwritten. apply map_ext. intros kv.
    rewrite lastSettle_round. now destruct (bool_decide (kv.1 ∈ completion)).
Qed.

Lemma last_settle_wins_witness :
  let this := newServiceRegistry SERVICES 0 in
  let up := fun t : Z => mkProbe (NetResponse (mkAxiosResponse 200 "ok" ∅)) t in
  let down := fun t : Z =>
    mkProbe (NetFailure "ECONNREFUSED" "connect ECONNREFUSED") t in
  let settles :=
    [("order-service", 10, up 40); ("order-service", 20, down 30);
     ("auth-service", 20, up 45); ("auth-service", 10, up 50)] in
  let after := settleInOrder this settles in
  getHealthStatus after "order-service"
  = Some (mkHealthStatus "order-service" unhealthy None 30
            (Some "connect ECONNREFUSED"))
  /\ getHealthStatus after "auth-service"
     = Some (mkHealthStatus "auth-service" healthy (Some 40) 50 None)
  /\ getHealthStatus after "product-service"
     = getHealthStatus this "product-service"
  /\ healthStatuses after
     = map (fun kv => match lastSettle kv.1 settles with
                      | Some e => (kv.1, settledRecord kv.1 e.1.2 e.2)
                      | None => kv
                      end)
         (healthStatuses this).
Proof.
  intros this up down settles after.
  split; [reflexivity|]. split; [reflexivity|]. split; [reflexivity|].
  exact (proj1 (last_settle_wins this settles
                  (newServiceRegistry_keysAgree SERVICES 0))).
Defined.

(** Two rounds that overlap: the one started at 10 returns its four
    records, and the registry holds, for the order service, the record of
    the other round, whose probe settled later. *)
Example overlapping_rounds :
  let this := newServiceRegistry SERVICES 0 in
  let up := fun t : Z => mkProbe (NetResponse (mkAxiosResponse 200 "ok" ∅)) t in
  let down := fun t : Z =>
    mkProbe (NetFailure "ECONNREFUSED" "connect ECONNREFUSED") t in
  let first := fun n : string => up 40 in
  let second := fun n : string =>
    if String.eqb n "order-service" then down 45 else up 42 in
  let settles :=
    [("order-service", 10, first "order-service");
     ("auth-service", 20, second "auth-service");
     ("product-service", 20, second "product-service");
     ("recommendation-service", 20, second "recommendation-service");
     ("auth-service", 10, first "auth-service");
     ("product-service", 10, first "product-service");
     ("recommendation-service", 10, first "recommendation-service");
     ("order-service", 20, second "order-service")] in
  let after := settleInOrder this settles in
  let returned :=
    (checkAllServicesHealth this 10 first (JsMap.keys (services this))).2 in
  returned = Some (map (fun n => settledRecord n 10 (first n))
                     (JsMap.keys (services this)))
  /\ returned <> Some (getAllHealthStatuses after)
  /\ getHealthStatus after "order-service"
     = Some (settledRecord "order-service" 20 (second "order-service")).
Proof.
  intros this up down first second settles after returned.
  split; [reflexivity|]. split; [|reflexivity].
  vm_compute. discriminate.
Qed.

(** ** GET /status and GET /services *)

Lemma status_partition (l : list HealthStatus) :
  List.length l
  = (List.length (List.filter (isStatus healthy) l)
     + List.length (List.filter (isStatus unhealthy) l)
     + List.length (List.filter (isStatus unknown) l))%nat.
Proof.
  induction l as [|s l IH]; [reflexivity|].
  cbn [List.filter List.length].
  destruct (isStatus healthy s) eqn:H1, (isStatus unhealthy s) eqn:H2,
    (isStatus unknown s) eqn:H3; cbn [List.length]; try lia;
    exfalso; revert H1 H2 H3; unfold isStatus; destruct (status s); discriminate.
Qed.

Lemma sum_bounds (l : list Z) (lo hi acc : Z) :
  Forall (fun t => lo <= t <= hi) l ->
  acc + Z.of_nat (List.length l) * lo <= fold_left Z.add l acc
  <= acc + Z.of_nat (List.length l) * hi.
Proof.
  revert acc. induction l as [|t l IH]; intros acc H.
  - simpl. lia.
  - inversion H as [|? ? Ht Hl]; subst. cbn [fold_left List.length].
    specialize (IH (acc + t) Hl). lia.
Qed.

Lemma roundDiv_bounds (s n lo hi : Z) :
  0 < n -> n * lo <= s <= n * hi -> lo <= roundDiv s n <= hi.
Proof.
  intros Hn [H1 H2]. unfold roundDiv. split.
  - apply Z.div_le_lower_bound; nia.
  - apply Z.lt_succ_r. apply Z.div_lt_upper_bound; nia.
Qed.

(** X14. GET /status counts every record once: total = healthy + unhealthy
    + unknown, and lists the records in order with their names and
    statuses.  The average response time is 0 when no record has a
    response time and otherwise lies between the smallest and the largest
    one.  A response time of 0 ms enters the average but is shown as
    absent in the details. *)
Theorem status_report (healthStatuses : list HealthStatus) :
  let body := (statusResponse healthStatuses).2 in
  let stats := status_stats body in
  (statusResponse healthStatuses).1 = 200
  /\ stats_total stats = List.length healthStatuses
  /\ stats_total stats
     = (stats_healthy stats + stats_unhealthy stats + stats_unknown stats)%nat
  /\ map detail_name (status_details body) = map service healthStatuses
  /\ map detail_status (status_details body) = map status healthStatuses
  /\ (responseTimesOf healthStatuses = [] -> avgResponseTimeOf healthStatuses = 0)
  /\ (forall lo hi,
        responseTimesOf healthStatuses <> [] ->
        (forall s t, In s healthStatuses -> responseTime s = Some t -> lo <= t <= hi) ->
        lo <= avgResponseTimeOf healthStatuses <= hi)
  /\ (forall s,
        In s healthStatuses -> responseTime s = Some 0 ->
        In 0 (responseTimesOf healthStatuses)
        /\ detail_responseTime (statusDetail s) = None
        /\ In (statusDetail s) (status_details body)).
Proof.
  cbn zeta. unfold statusResponse.
  cbn [fst snd status_stats status_details stats_total stats_healthy
       stats_unhealthy stats_unknown].
  split; [reflexivity|]. split; [reflexivity|].
  split; [apply status_partition|].
  split; [rewrite map_map; reflexivity|].
  split; [rewrite map_map; reflexivity|].
  split; [|split].
  - intros E. unfold avgResponseTimeOf. now rewrite E.
  - intros lo hi Hne Hb. unfold avgResponseTimeOf.
    destruct (responseTimesOf healthStatuses) as [|t0 ts] eqn:E; [contradiction|].
    rewrite <- E. replace (0 <? List.length (responseTimesOf healthStatuses))%nat
      with true by (rewrite E; reflexivity).
    apply roundDiv_bounds; [rewrite E; cbn [List.length]; lia|].
    assert (F : Forall (fun t => lo <= t <= hi) (responseTimesOf healthStatuses)).
    { apply Forall_forall. intros t Ht. unfold responseTimesOf in Ht.
      apply list_elem_of_omap in Ht as (s & Hs & Hr).
      apply (Hb s t); [now apply list_elem_of_In|exact Hr]. }
    pose proof (sum_bounds _ lo hi 0 F). lia.
  - intros s Hs Hr. split; [|split].
    + unfold responseTimesOf. apply list_elem_of_In, list_elem_of_omap.
      exists s. split; [now apply list_elem_of_In|exact Hr].
    + unfold statusDetail. now rewrite Hr.
    + now apply in_map.
Qed.

Lemma keys_get_Some {V} k (m : JsMap.t V) :
  In k (JsMap.keys m) -> exists v, JsMap.get k m = Some v.
Proof.
  intros H. destruct (JsMap.get k m) as [v|] eqn:G; [eauto|].
  apply get_None_keys in G. contradiction.
Qed.

(** X15. On every registry that the process can reach, GET /services lists
    each registered service once, in the order of the registry, and no
    entry has an undefined field: the url is that of the registered
    descriptor, status and last check are those of the stored record. *)
Theorem services_listing_is_complete (configured : list ServiceConfig)
    (now : Z) (ops : list RegistryOp) :
  let r := registry (runOps (boot configured now) ops) in
  let listed := (servicesResponse r).2 in
  (servicesResponse r).1 = List.length (getServiceNames r)
  /\ map entry_name listed = getServiceNames r
  /\ List.NoDup (map entry_name listed)
  /\ forall e, In e listed ->
       exists svc hs,
         getService r (entry_name e) = Some svc
         /\ getHealthStatus r (entry_name e) = Some hs
         /\ entry_url e = Some (url svc)
         /\ entry_status e = Some (status hs)
         /\ entry_lastCheck e = Some (lastCheck hs).
Proof.
  intros r listed.
  destruct (runOps_preserves ops (boot configured now)
              (newServiceRegistry_keysAgree configured now)) as [[E D] _].
  fold r in E, D.
  assert (N : map entry_name listed = getServiceNames r).
  { unfold listed, servicesResponse. cbn [snd]. rewrite map_map. apply map_id. }
  split; [|split; [exact N|split]].
  - unfold servicesResponse. cbn [fst]. apply length_map.
  - rewrite N. exact D.
  - intros e He. unfold listed, servicesResponse in He. cbn [snd] in He.
    apply in_map_iff in He as (n & <- & Hn). cbn [entry_name entry_url
      entry_status entry_lastCheck].
    unfold getService, getHealthStatus, getServiceNames in *.
    destruct (keys_get_Some n (services r) Hn) as [svc Gs].
    destruct (keys_get_Some n (healthStatuses r)) as [hs Gh]; [now rewrite E|].
    exists svc, hs. rewrite Gs, Gh. now repeat split.
Qed.

(** ** Stopping the periodic health check *)

Lemma filter_idem {A} (f : A -> bool) (l : list A) :
  List.filter f (List.filter f l) = List.filter f l.
Proof.
  induction l as [|a l IH]; [reflexivity|]. simpl.
  destruct (f a) eqn:E; simpl; [rewrite E; now f_equal|exact IH].
Qed.

Lemma Forall_filter_keep {A} (P : A -> Prop) (f : A -> bool) (l : list A) :
  Forall P l -> Forall P (List.filter f l).
Proof.
  induction l as [|a l IH]; intros H; [constructor|].
  inversion H; subst. simpl. destruct (f a); [constructor|]; auto.
Qed.

(** While the registry holds the handle [h], the operations other than a
    start leave every other timer as it is. *)
Lemma runOp_others_armed h rt op :
  isStart op = false ->
  healthCheckInterval (registry rt) = Some h ->
  List.filter (fun h' => negb (Nat.eqb h' h)) (armed (runOp rt op))
  = List.filter (fun h' => negb (Nat.eqb h' h)) (armed rt).
Proof.
  destruct op; simpl; intros H I; try discriminate; try reflexivity.
  unfold stopHealthChecks. rewrite I. cbn [clearInterval armed].
  apply filter_idem.
Qed.

Lemma runOps_others_armed h ops rt :
  forallb (fun op => negb (isStart op)) ops = true ->
  healthCheckInterval (registry rt) = Some h ->
  List.filter (fun h' => negb (Nat.eqb h' h)) (armed (runOps rt ops))
  = List.filter (fun h' => negb (Nat.eqb h' h)) (armed rt)
  /\ healthCheckInterval (registry (runOps rt ops)) = Some h.
Proof.
  unfold runOps. revert rt.
  induction ops as [|op ops IH]; simpl; intros rt H I; [now split|].
  apply andb_prop in H as [H1 H2]. apply negb_true_iff in H1.
  assert (I' : healthCheckInterval (registry (runOp rt op)) = Some h).
  { destruct (runOp_not_start rt op H1) as [E _]. now rewrite E. }
  destruct (IH (runOp rt op) H2 I') as [A' J]. split; [|exact J].
  rewrite A'. now apply runOp_others_armed.
Qed.

Lemma runOps_nextHandle ops rt :
  forallb (fun op => negb (isStart op)) ops = true ->
  nextHandle (runOps rt ops) = nextHandle rt.
Proof.
  unfold runOps. revert rt.
  induction ops as [|op ops IH]; simpl; intros rt H; [reflexivity|].
  apply andb_prop in H as [H1 H2]. apply negb_true_iff in H1.
  rewrite (IH _ H2). destruct op; simpl in *; try reflexivity; try discriminate.
  unfold stopHealthChecks. now destruct (healthCheckInterval (registry rt)).
Qed.

(** X16. [stopHealthChecks] can be called again: the second call changes
    nothing.  Take the process at any point at which the registry holds
    no handle, with whatever timers are armed by then (the sweep of the
    rate limiter is, from the moment its module is loaded).  If
    [startHealthChecks] is called once from there, then after
    [stopHealthChecks] the timer of the health checks is disarmed and the
    timers that were armed before are armed still, neither more nor
    fewer, whatever probes, status requests and stops happened before and
    after the start; the registry still holds the handle of the stopped
    timer. *)
Theorem stop_disarms_a_single_start (before after : list RegistryOp)
    (rt0 : Runtime) :
  stopHealthChecks (stopHealthChecks rt0) = stopHealthChecks rt0
  /\ (healthCheckInterval (registry rt0) = None ->
      handlesFresh rt0 ->
      forallb (fun op => negb (isStart op)) before = true ->
      forallb (fun op => negb (isStart op)) after = true ->
      let started := startHealthChecks (runOps rt0 before) in
      let rt := runOps started after in
      armed started = (armed rt0 ++ [nextHandle rt0])%list
      /\ armed (stopHealthChecks rt) = armed rt0
      /\ ~ In (nextHandle rt0) (armed (stopHealthChecks rt))
      /\ healthCheckInterval (registry (stopHealthChecks rt))
         = Some (nextHandle rt0)).
Proof.
  split.
  - unfold stopHealthChecks.
    destruct (healthCheckInterval (registry rt0)) as [h|] eqn:E;
      cbn [clearInterval registry]; rewrite E; [|reflexivity].
    unfold clearInterval. cbn [registry armed nextHandle launched].
    now rewrite filter_idem.
  - intros I0 F Hb Ha started rt.
    destruct (never_started before rt0 Hb I0) as [_ A0].
    set (rt1 := runOps rt0 before) in *.
    assert (Nx : nextHandle rt1 = nextHandle rt0)
      by (unfold rt1; now rewrite runOps_nextHandle).
    destruct (startHealthChecks_armed rt1) as (A1 & _ & I1 & _).
    fold started in A1, I1. rewrite A0, Nx in A1. rewrite Nx in I1.
    destruct (runOps_others_armed (nextHandle rt0) after started Ha I1)
      as [A2 I2].
    fold rt in A2, I2.
    assert (K : List.filter (fun h' => negb (Nat.eqb h' (nextHandle rt0)))
                  (armed rt0) = armed rt0).
    { apply filter_all_kept. eapply List.Forall_impl; [|exact F].
      intros h Hh. cbn beta in Hh. apply negb_true_iff, Nat.eqb_neq. lia. }
    assert (S : armed (stopHealthChecks rt) = armed rt0).
    { unfold stopHealthChecks. rewrite I2. cbn [clearInterval armed].
      rewrite A2, A1, List.filter_app, K. cbn [List.filter].
      rewrite Nat.eqb_refl. cbn [negb]. apply app_nil_r. }
    split; [exact A1|]. split; [exact S|]. split.
    + rewrite S. intros Hin. unfold handlesFresh in F.
      rewrite List.Forall_forall in F. specialize (F _ Hin). lia.
    + unfold stopHealthChecks. rewrite I2. exact I2.
Qed.

Lemma stop_disarms_a_single_start_witness :
  let before := [OpReady 1 (fun _ => mkProbe (NetFailure "ECONNREFUSED" "refused") 2)
                   ["auth-service"]; OpStopHealthChecks] in
  let after := [OpStopHealthChecks;
                OpCheckServiceHealth "auth-service" 5
                  (mkProbe (NetResponse (mkAxiosResponse 200 "ok" ∅)) 6)] in
  let rt0 := processAtStart SERVICES 0 in
  let rt := runOps (startHealthChecks (runOps rt0 before)) after in
  armed rt0 = [0%nat]
  /\ armed (startHealthChecks (runOps rt0 before)) = [0%nat; 1%nat]
  /\ armed (stopHealthChecks rt) = [0%nat]
  /\ healthCheckInterval (registry (stopHealthChecks rt)) = Some 1%nat.
Proof.
  intros before after rt0 rt.
  destruct (stop_disarms_a_single_start before after rt0) as [_ H].
  destruct H as (A & S & _ & I); try reflexivity.
  - repeat constructor.
  - split; [reflexivity|]. split; [exact A|]. split; [exact S|exact I].
Defined.

(** ** The registry after construction *)

Lemma find_app_first {A} (f : A -> bool) (l1 l2 : list A) :
  List.find f (l1 ++ l2)
  = match List.find f l1 with
    | Some x => Some x
    | None => List.find f l2
    end.
Proof.
  induction l1 as [|a l IH]; [reflexivity|]. simpl.
  now destruct (f a).
Qed.

Lemma get_set {V} k k' (v : V) (m : JsMap.t V) :
  JsMap.get k' (JsMap.set k v m)
  = if String.eqb k k' then Some v else JsMap.get k' m.
Proof.
  destruct (String.eqb_spec k k') as [->|ne];
    [apply get_set_eq|now apply get_set_ne].
Qed.

Lemma initializeServices_get configured now n :
  forall r,
    JsMap.get n (services (initializeServices configured now r))
    = match List.find (fun s => String.eqb (name s) n) (rev configured) with
      | Some s => Some s
      | None => JsMap.get n (services r)
      end.
Proof.
  unfold initializeServices.
  induction configured as [|a l IH]; intros r; [reflexivity|].
  cbn [fold_left rev]. rewrite IH, find_app_first.
  destruct (List.find _ (rev l)); [reflexivity|].
  cbn [List.find registerService services]. rewrite get_set.
  now destruct (String.eqb (name a) n).
Qed.

Lemma set_absent {V} k (v : V) (m : JsMap.t V) :
  ~ In k (JsMap.keys m) -> JsMap.set k v m = (m ++ [(k, v)])%list.
Proof.
  induction m as [|[k' v'] m IH]; simpl; intros H; [reflexivity|].
  destruct (String.eqb_spec k k') as [->|ne]; [tauto|].
  f_equal. apply IH. tauto.
Qed.

Lemma initializeServices_distinct configured now :
  forall r,
    JsMap.keys (healthStatuses r) = JsMap.keys (services r) ->
    List.NoDup (JsMap.keys (services r) ++ map name configured) ->
    services (initializeServices configured now r)
    = (services r ++ map (fun s => (name s, s)) configured)%list
    /\ healthStatuses (initializeServices configured now r)
       = (healthStatuses r
          ++ map (fun s => (name s, mkHealthStatus (name s) unknown None now None))
               configured)%list.
Proof.
  unfold initializeServices.
  induction configured as [|a l IH]; intros r E D.
  - simpl. now rewrite !app_nil_r.
  - cbn [fold_left map].
    assert (Ha : ~ In (name a) (JsMap.keys (services r))).
    { intros H. apply NoDup_ListNoDup, NoDup_app in D as (_ & D & _).
      apply (D (name a)); [now apply list_elem_of_In|]. apply list_elem_of_here. }
    assert (S1 : services (registerService now r a)
                 = (services r ++ [(name a, a)])%list)
      by (cbn; now apply set_absent).
    assert (S2 : healthStatuses (registerService now r a)
                 = (healthStatuses r
                    ++ [(name a, mkHealthStatus (name a) unknown None now None)])%list)
      by (cbn; apply set_absent; now rewrite E).
    destruct (IH (registerService now r a)) as [I1 I2].
    + rewrite S1, S2. unfold JsMap.keys. rewrite !map_app. cbn [map fst].
      now f_equal.
    + rewrite S1. unfold JsMap.keys. rewrite map_app. cbn [map fst].
      rewrite <- app_assoc. exact D.
    + rewrite I1, I2, S1, S2, <- !app_assoc. now split.
Qed.

(** X17. The constructor registers the configuration.  [getService] gives
    for a name the last descriptor of [SERVICES] with that name, so a later
    duplicate replaces an earlier one and an unknown name gives nothing.
    When the configured names are distinct, the registry lists the services
    in the order of the configuration, every descriptor is found under its
    name, and every service starts with an [unknown] record stamped with
    the time of construction, no response time and no error. *)
Theorem registry_holds_the_configuration (configured : list ServiceConfig)
    (now : Z) :
  let r := newServiceRegistry configured now in
  (forall n,
     getService r n
     = List.find (fun s => String.eqb (name s) n) (rev configured))
  /\ (forall n, ~ In n (map name configured) ->
        getService r n = None /\ getHealthStatus r n = None
        /\ isServiceHealthy r n = false)
  /\ (List.NoDup (map name configured) ->
      getServiceNames r = map name configured
      /\ getAllHealthStatuses r
         = map (fun s => mkHealthStatus (name s) unknown None now None) configured
      /\ (forall s, In s configured ->
            getService r (name s) = Some s
            /\ isServiceHealthy r (name s) = false)).
Proof.
  intros r.
  assert (G : forall n,
            getService r n
            = List.find (fun s => String.eqb (name s) n) (rev configured)).
  { intros n. unfold r, newServiceRegistry, getService.
    rewrite initializeServices_get. now destruct (List.find _ _). }
  destruct (newServiceRegistry_keysAgree configured now) as [E _]. fold r in E.
  split; [exact G|]. split.
  - intros n Hn.
    assert (Gs : getService r n = None).
    { rewrite G. destruct (List.find _ (rev configured)) as [s|] eqn:F;
        [|reflexivity].
      apply find_some in F as [Hin Heq]. apply String.eqb_eq in Heq.
      destruct Hn. apply in_map_iff. exists s. split; [exact Heq|].
      now apply in_rev. }
    assert (Gh : getHealthStatus r n = None).
    { unfold getHealthStatus. apply get_None_keys. rewrite E.
      apply get_None_keys. exact Gs. }
    split; [exact Gs|]. split; [exact Gh|].
    unfold isServiceHealthy. unfold getHealthStatus in Gh. now rewrite Gh.
  - intros D.
    destruct (initializeServices_distinct configured now
                (mkServiceRegistry JsMap.empty JsMap.empty None) eq_refl D)
      as [S1 S2].
    fold (newServiceRegistry configured now) in S1, S2. fold r in S1, S2.
    cbn [services healthStatuses JsMap.empty app] in S1, S2.
    split; [|split].
    + unfold getServiceNames, JsMap.keys. rewrite S1, map_map. reflexivity.
    + unfold getAllHealthStatuses, JsMap.values. rewrite S2, map_map. reflexivity.
    + intros s Hs.
      assert (Gs : getService r (name s) = Some s).
      { unfold getService. rewrite S1. clear -Hs D.
        induction configured as [|a l IH]; [contradiction|].
        cbn [map JsMap.get fst snd]. inversion D as [|? ? Hn Hd]; subst.
        destruct Hs as [->|Hs]; [now rewrite String.eqb_refl|].
        destruct (String.eqb_spec (name s) (name a)) as [e|ne];
          [|now apply IH].
        destruct Hn. rewrite <- e. now apply in_map. }
      split; [exact Gs|].
      unfold isServiceHealthy. rewrite S2. clear -Hs D.
      induction configured as [|a l IH]; [contradiction|].
      cbn [map JsMap.get fst snd]. inversion D as [|? ? Hn Hd]; subst.
      destruct (String.eqb_spec (name s) (name a)) as [e|ne]; [reflexivity|].
      destruct Hs as [->|Hs]; [congruence|]. now apply IH.
Qed.

Lemma registry_holds_the_configuration_witness :
  let r := newServiceRegistry SERVICES 7 in
  getServiceNames r
  = ["auth-service"; "product-service"; "order-service"; "recommendation-service"]
  /\ getService r "payment-service" = None
  /\ getService r "recommendation-service"
     = Some (mkServiceConfig "recommendation-service" "http://localhost:3000"
               "/health" (Some 10000) (Some 2)).
Proof.
  intros r.
  destruct (registry_holds_the_configuration SERVICES 7) as (_ & U & D).
  destruct D as (N & _ & S).
  { repeat constructor; simpl; intuition discriminate. }
  split; [exact N|]. split.
  - apply U. simpl. intuition discriminate.
  - apply (S (mkServiceConfig "recommendation-service" "http://localhost:3000"
                "/health" (Some 10000) (Some 2))).
    simpl. auto.
Defined.

(** ** The rate limiter: budgets, bounds, sweeping *)

Lemma limitRequest_store message windowMs max store now req k :
  k <> getClientIdentifier req ->
  (limitRequest message windowMs max store now req).1.1 !! k = store !! k.
Proof.
  intros H. rewrite limitRequest_step. cbn [fst].
  now rewrite lookup_insert_ne by congruence.
Qed.

Lemma serve_other message windowMs max req k :
  k <> getClientIdentifier req ->
  forall times store,
    (serve message windowMs max store times req).1 !! k = store !! k.
Proof.
  intros H. induction times as [|now later IH]; intros store; [reflexivity|].
  cbn [serve].
  pose proof (limitRequest_store message windowMs max store now req k H) as L.
  destruct (limitRequest message windowMs max store now req) as [[store1 hdrs] m].
  specialize (IH store1).
  destruct (serve message windowMs max store1 later req) as [store2 rest].
  cbn [fst] in *. congruence.
Qed.

(** X18. The budget of a client is its own.  Requests of one client, however
    many, leave the entry of every other key as it was, so what another
    client is told next (headers and verdict) is what it would have been
    told without them. *)
Theorem clients_do_not_share_budget (message : string) (windowMs max : Z)
    (store : gmap string RateLimitEntry) (times : list Z) (req other : Request)
    (now : Z) :
  getClientIdentifier other <> getClientIdentifier req ->
  let store' := (serve message windowMs max store times req).1 in
  store' !! getClientIdentifier other = store !! getClientIdentifier other
  /\ (limitRequest message windowMs max store' now other).1.2
     = (limitRequest message windowMs max store now other).1.2
  /\ (limitRequest message windowMs max store' now other).2
     = (limitRequest message windowMs max store now other).2.
Proof.
  intros H store'.
  assert (E : store' !! getClientIdentifier other = store !! getClientIdentifier other)
    by (apply serve_other; exact H).
  split; [exact E|]. rewrite !limitRequest_step. cbn [fst snd]. now rewrite E.
Qed.

Lemma clients_do_not_share_budget_witness :
  let alice := mkRequest "/api/products" "GET" "" ∅ (Some "203.0.113.9") None in
  let bob := mkRequest "/api/products" "GET" "" ∅ (Some "198.51.100.4") None in
  let flood := map (fun i => Z.of_nat i) (seq 0 150) in
  let store' := (serve "Rate limit exceeded" 60000 100 ∅ flood alice).1 in
  (createRateLimiter 60000 100 store' 200 bob).2 = Next bob
  /\ (createRateLimiter 60000 100 store' 200 alice).2 <> Next alice.
Proof.
  intros alice bob flood store'. split.
  - destruct (clients_do_not_share_budget "Rate limit exceeded" 60000 100 ∅
                flood alice bob 200) as (_ & _ & V); [discriminate|].
    unfold createRateLimiter. fold store' in V. rewrite V. reflexivity.
  - vm_compute. discriminate.
Defined.

(** X19. What a request is told is consistent.  The limit header is the
    configured maximum, the remaining header is never negative, and, for a
    window length that is not negative, the reset instant is never in the
    past; it is the end of the window that the store then holds for the
    client.  A request that goes through has a count within the limit and
    is told [max - count]; a rejected one is answered 429, is told 0
    remaining, and its [retryAfter] is the number of whole seconds, rounded
    up and never negative, until the reset. *)
Theorem limiter_answers_are_consistent (message : string) (windowMs max : Z)
    (store : gmap string RateLimitEntry) (now : Z) (req : Request) :
  0 <= windowMs ->
  let res := limitRequest message windowMs max store now req in
  let hdrs := res.1.2 in
  rl_limit hdrs = max
  /\ 0 <= rl_remaining hdrs
  /\ now <= rl_reset hdrs
  /\ exists entry,
       res.1.1 !! getClientIdentifier req = Some entry
       /\ resetTime entry = rl_reset hdrs
       /\ match res.2 with
          | Next req' =>
              req' = req /\ count entry <= max
              /\ rl_remaining hdrs = max - count entry
          | Respond a =>
              max < count entry
              /\ ans_status a = 429
              /\ rl_remaining hdrs = 0
              /\ exists retryAfter,
                   ans_body a = JsonRateLimit "Too many requests" message retryAfter
                   /\ 0 <= retryAfter
                   /\ now + 1000 * (retryAfter - 1) < rl_reset hdrs
                      <= now + 1000 * retryAfter
          end.
Proof.
  intros Hw res hdrs. unfold hdrs, res. rewrite limitRequest_step.
  cbn [fst snd]. unfold verdict. cbn [fst snd rl_limit rl_remaining rl_reset].
  set (n := match store !! getClientIdentifier req with
            | Some entry => if now >? resetTime entry then 1 else count entry + 1
            | None => 1
            end).
  set (resetAt := match store !! getClientIdentifier req with
                  | Some entry => if now >? resetTime entry then now + windowMs
                                  else resetTime entry
                  | None => now + windowMs
                  end).
  assert (Hr : now <= resetAt).
  { unfold resetAt. destruct (store !! getClientIdentifier req) as [entry|]; [|lia].
    destruct (Z.gtb_spec now (resetTime entry)); lia. }
  split; [reflexivity|]. split; [lia|]. split; [exact Hr|].
  exists (mkRateLimitEntry n resetAt). rewrite lookup_insert_eq.
  split; [reflexivity|]. split; [reflexivity|]. cbn [count].
  destruct (Z.gtb_spec n max) as [gt|le].
  - cbn [ans_status ans_body]. split; [lia|]. split; [reflexivity|].
    split; [lia|]. eexists. split; [reflexivity|].
    pose proof (ceilDiv_spec (resetAt - now)). lia.
  - split; [reflexivity|]. split; lia.
Qed.

Lemma limiter_answers_are_consistent_witness :
  let req := mkRequest "/api/products" "GET" "" ∅ (Some "203.0.113.9") None in
  let store : gmap string RateLimitEntry :=
    {["ip:203.0.113.9" := mkRateLimitEntry 100 61500]} in
  let res := createRateLimiter 60000 100 store 60000 req in
  rl_remaining res.1.2 = 0
  /\ res.2 = Respond (mkAnswer 429
               (JsonRateLimit "Too many requests" "Rate limit exceeded" 2)).
Proof.
  intros req store res.
  destruct (limiter_answers_are_consistent "Rate limit exceeded" 60000 100 store
              60000 req ltac:(lia)) as (_ & _ & _ & entry & _ & _ & M).
  fold (createRateLimiter 60000 100) in M. fold res in M.
  assert (E : res.2 = Respond (mkAnswer 429
                (JsonRateLimit "Too many requests" "Rate limit exceeded" 2)))
    by reflexivity.
  rewrite E in M. destruct M as (_ & _ & R & _). split; [exact R|exact E].
Defined.

Lemma serve_length message windowMs max req :
  forall times store,
    List.length (serve message windowMs max store times req).2 = List.length times.
Proof.
  induction times as [|now later IH]; intros store; [reflexivity|].
  cbn [serve].
  destruct (limitRequest message windowMs max store now req) as [[store1 hdrs] m].
  specialize (IH store1).
  destruct (serve message windowMs max store1 later req) as [store2 rest].
  cbn [snd List.length] in *. now rewrite IH.
Qed.

(** The run of a client that starts a window at [t1] and stays inside it. *)
Lemma serve_fresh_window message windowMs max store req t1 later :
  windowClosed store (getClientIdentifier req) t1 ->
  Forall (fun t => t <= t1 + windowMs) later ->
  forall (i : nat) t,
    (t1 :: later) !! i = Some t ->
    (serve message windowMs max store (t1 :: later) req).2 !! i
    = Some (verdict message max req (Z.of_nat i + 1) (t1 + windowMs) t).
Proof.
  intros Hc Hle. cbn [serve]. rewrite limitRequest_step.
  assert (E : match store !! getClientIdentifier req with
              | Some entry => if t1 >? resetTime entry then 1 else count entry + 1
              | None => 1
              end = 1
              /\ match store !! getClientIdentifier req with
                 | Some entry => if t1 >? resetTime entry then t1 + windowMs
                                 else resetTime entry
                 | None => t1 + windowMs
                 end = t1 + windowMs).
  { unfold windowClosed in Hc.
    destruct (store !! getClientIdentifier req) as [entry|]; [|now split].
    replace (t1 >? resetTime entry) with true
      by (symmetry; rewrite Z.gtb_ltb; apply Z.ltb_lt; lia).
    now split. }
  destruct E as [-> ->].
  destruct (serve_open message windowMs max req later
              (<[getClientIdentifier req := mkRateLimitEntry 1 (t1 + windowMs)]> store)
              1 (t1 + windowMs) (lookup_insert_eq _ _ _) Hle) as [_ I2].
  destruct (serve message windowMs max _ later req) as [store2 rest].
  cbn [fst snd] in *.
  intros [|i] t Ht.
  - injection Ht as <-. change (Z.of_nat 0 + 1) with 1.
    generalize (verdict message max req 1 (t1 + windowMs) t1).
    intros [h m]. reflexivity.
  - change ((?x :: rest) !! S i) with (rest !! i).
    rewrite (I2 i t Ht). do 2 f_equal. lia.
Qed.

Lemma count_leading {A} (f : A -> bool) :
  forall (l : list A) (m : nat),
    (forall (i : nat) x, l !! i = Some x -> f x = (i <? m)%nat) ->
    List.length (List.filter f l) = Nat.min (List.length l) m.
Proof.
  induction l as [|a l IH]; intros m H; [reflexivity|].
  cbn [List.filter List.length].
  rewrite (H 0%nat a eq_refl).
  assert (IH' : List.length (List.filter f l) = Nat.min (List.length l) (m - 1)).
  { apply IH. intros i x Hx. rewrite (H (S i) x Hx).
    destruct m as [|m]; [reflexivity|].
    replace (S m - 1)%nat with m by lia. reflexivity. }
  destruct m as [|m]; cbn [Nat.ltb Nat.leb List.length]; rewrite IH'; lia.
Qed.

(** X20. Inside one window exactly [max] requests of a client pass: of [n]
    requests that start a window and stay inside it, the first
    [min(n, max)] call [next()] and all the later ones are rejected, so
    once a request has been rejected no later request of that window
    passes. *)
Theorem a_window_admits_max_requests (message : string) (windowMs max : Z)
    (store : gmap string RateLimitEntry) (req : Request) (t1 : Z)
    (later : list Z) :
  0 <= max ->
  windowClosed store (getClientIdentifier req) t1 ->
  Forall (fun t => t <= t1 + windowMs) later ->
  let results := (serve message windowMs max store (t1 :: later) req).2 in
  List.length (List.filter passed results)
  = Nat.min (List.length (t1 :: later)) (Z.to_nat max)
  /\ (forall (i : nat) r,
        results !! i = Some r ->
        passed r = true <-> Z.of_nat i < max)
  /\ (forall (i j : nat) ri rj,
        results !! i = Some ri -> results !! j = Some rj -> (i <= j)%nat ->
        passed ri = false -> passed rj = false).
Proof.
  intros Hmax Hc Hle results.
  assert (V : forall (i : nat) r,
            results !! i = Some r -> passed r = (i <? Z.to_nat max)%nat).
  { intros i r Hr.
    assert (Hi : (i < List.length (t1 :: later))%nat).
    { rewrite <- (serve_length message windowMs max req (t1 :: later) store).
      apply lookup_lt_Some in Hr. exact Hr. }
    destruct (lookup_lt_is_Some_2 (t1 :: later) i Hi) as [t Ht].
    unfold results in Hr.
    rewrite (serve_fresh_window message windowMs max store req t1 later Hc Hle i t Ht)
      in Hr.
    injection Hr as <-. unfold passed, verdict. cbn [snd].
    destruct (Z.gtb_spec (Z.of_nat i + 1) max) as [gt|le].
    - symmetry. apply Nat.ltb_ge. lia.
    - symmetry. apply Nat.ltb_lt. lia. }
  split; [|split].
  - rewrite (count_leading passed results (Z.to_nat max) V).
    unfold results. now rewrite serve_length.
  - intros i r Hr. rewrite (V i r Hr). rewrite Nat.ltb_lt. lia.
  - intros i j ri rj Hi Hj Hij Pi. rewrite (V i ri Hi) in Pi.
    rewrite (V j rj Hj). apply Nat.ltb_ge in Pi. apply Nat.ltb_ge. lia.
Qed.

Lemma a_window_admits_max_requests_witness :
  let req := mkRequest "/api/products" "GET" "" ∅ (Some "203.0.113.9") None in
  let later := map (fun i => Z.of_nat i * 100) (seq 1 7) in
  let results := (serve "Rate limit exceeded" 60000 5 ∅ (0 :: later) req).2 in
  List.length (List.filter passed results) = 5%nat.
Proof.
  intros req later results.
  destruct (a_window_admits_max_requests "Rate limit exceeded" 60000 5 ∅ req 0 later)
    as (C & _).
  - lia.
  - exact I.
  - apply Forall_forall. intros t Ht. apply list_elem_of_In, in_map_iff in Ht.
    destruct Ht as (i & <- & Hi). apply in_seq in Hi. lia.
  - exact C.
Defined.

(** X21. The periodic sweep deletes exactly the entries whose window is
    over ([now > resetTime]) and keeps every other entry as it is; sweeping
    twice at the same instant is sweeping once; and a sweep never changes
    what a request that arrives at or after it is told. *)
Theorem sweep_removes_only_expired (t : Z) (store : gmap string RateLimitEntry)
    (message : string) (windowMs max now : Z) (req : Request) :
  (forall key entry,
     sweep t store !! key = Some entry
     <-> store !! key = Some entry /\ t <= resetTime entry)
  /\ sweep t (sweep t store) = sweep t store
  /\ (t <= now ->
      (limitRequest message windowMs max (sweep t store) now req).1.2
      = (limitRequest message windowMs max store now req).1.2
      /\ (limitRequest message windowMs max (sweep t store) now req).2
         = (limitRequest message windowMs max store now req).2).
Proof.
  split; [|split].
  - intros key entry. rewrite sweep_lookup.
    destruct (store !! key) as [e|]; [|split; [discriminate|intros [H _]; discriminate H]].
    destruct (Z.gtb_spec t (resetTime e)) as [gt|le].
    + split; [discriminate|]. intros [[= ->] H]. lia.
    + split; [intros [= ->]; split; [reflexivity|lia]|now intros [H _]].
  - apply map_eq. intros key. rewrite !sweep_lookup.
    destruct (store !! key) as [e|]; [|reflexivity].
    destruct (t >? resetTime e) eqn:E; [reflexivity|]. now rewrite E.
  - apply sweep_is_invisible.
Qed.

Lemma sweep_removes_only_expired_witness :
  let store : gmap string RateLimitEntry :=
    <["ip:203.0.113.9" := mkRateLimitEntry 100 5000]>
      {["user:u42" := mkRateLimitEntry 3 90000]} in
  let req := mkRequest "/api/products" "GET" "" ∅ (Some "203.0.113.9") None in
  sweep 60000 store !! "ip:203.0.113.9" = None
  /\ sweep 60000 store !! "user:u42" = Some (mkRateLimitEntry 3 90000)
  /\ (createRateLimiter 60000 100 (sweep 60000 store) 60001 req).2
     = (createRateLimiter 60000 100 store 60001 req).2.
Proof.
  intros store req.
  destruct (sweep_removes_only_expired 60000 store "Rate limit exceeded"
              60000 100 60001 req) as (L & _ & V).
  split; [|split].
  - destruct (sweep 60000 store !! "ip:203.0.113.9") as [e|] eqn:E; [|reflexivity].
    apply L in E as [E H]. vm_compute in E. injection E as <-. simpl in H. lia.
  - apply L. split; [reflexivity|simpl; lia].
  - apply V. lia.
Defined.

(** ** The key of a client *)

Lemma append_inv_head (p a b : string) : p ++ a = p ++ b -> a = b.
Proof.
  induction p as [|c p IH]; intros H; [exact H|].
  change (String c (p ++ a) = String c (p ++ b)) in H. injection H. exact IH.
Qed.

Lemma addressOf_Some req : exists a, addressOf req = Some a /\ a <> "".
Proof.
  unfold addressOf, JsString.or.
  destruct (JsString.truthy
              (if JsString.truthy (headers req !! "x-forwarded-for")
               then headers req !! "x-forwarded-for" else remoteAddress req)) eqn:T.
  - destruct (if JsString.truthy (headers req !! "x-forwarded-for")
              then headers req !! "x-forwarded-for" else remoteAddress req)
      as [a|]; [|discriminate T].
    exists a. split; [reflexivity|]. now apply truthy_Some_iff.
  - exists "unknown". split; [reflexivity|discriminate].
Qed.

(** X22. Two requests are counted under the same key only if they name the
    same client: either both carry the same non-empty [x-user-id], or
    neither carries one and both have the same address (forwarded-for
    header, else socket address, else ["unknown"]).  A user key and an
    address key never coincide, and an empty [x-user-id] counts as none. *)
Theorem one_key_one_client (r1 r2 : Request) :
  getClientIdentifier r1 = getClientIdentifier r2 ->
  (exists id, id <> ""
              /\ headers r1 !! "x-user-id" = Some id
              /\ headers r2 !! "x-user-id" = Some id
              /\ getClientIdentifier r1 = "user:" ++ id)
  \/ (JsString.truthy (headers r1 !! "x-user-id") = false
      /\ JsString.truthy (headers r2 !! "x-user-id") = false
      /\ addressOf r1 = addressOf r2
      /\ exists a, addressOf r1 = Some a /\ getClientIdentifier r1 = "ip:" ++ a).
Proof.
  unfold getClientIdentifier. fold (addressOf r1) (addressOf r2).
  destruct (addressOf_Some r1) as (a1 & A1 & _).
  destruct (addressOf_Some r2) as (a2 & A2 & _).
  rewrite A1, A2. cbn [default].
  destruct (JsString.truthy (headers r1 !! "x-user-id")) eqn:T1;
    destruct (JsString.truthy (headers r2 !! "x-user-id")) eqn:T2; intros H.
  - left. destruct (headers r1 !! "x-user-id") as [u1|]; [|discriminate T1].
    destruct (headers r2 !! "x-user-id") as [u2|]; [|discriminate T2].
    apply append_inv_head in H. simpl in H. subst u2.
    exists u1. split; [now apply truthy_Some_iff|auto].
  - exfalso.
    change (String "u" ("ser:" ++ default "" (headers r1 !! "x-user-id"))
            = String "i" ("p:" ++ a2)) in H. discriminate H.
  - exfalso.
    change (String "i" ("p:" ++ a1)
            = String "u" ("ser:" ++ default "" (headers r2 !! "x-user-id"))) in H.
    discriminate H.
  - right. apply append_inv_head in H. simpl in H. subst a2.
    split; [reflexivity|]. split; [reflexivity|]. split; [reflexivity|]. eauto.
Qed.

Lemma one_key_one_client_witness :
  let r1 := mkRequest "/api/products" "GET" "" {["x-user-id" := ""]}
              (Some "203.0.113.9") None in
  let r2 := mkRequest "/api/orders" "POST" "{}" {["x-forwarded-for" := "203.0.113.9"]}
              (Some "10.0.0.1") None in
  getClientIdentifier r1 = "ip:203.0.113.9"
  /\ addressOf r1 = addressOf r2.
Proof.
  intros r1 r2.
  destruct (one_key_one_client r1 r2 eq_refl)
    as [(id & Hid & H1 & _)|(_ & _ & A & a & Ha & K)].
  - exfalso. vm_compute in H1. injection H1 as <-. now apply Hid.
  - split; [|exact A].
    assert (E : addressOf r1 = Some "203.0.113.9") by reflexivity.
    rewrite E in Ha. injection Ha as <-. exact K.
Defined.

(** ** The chain: the limiter comes first *)

Lemma relayedResponse_answer mappings reg backend req m r :
  relayedResponse mappings reg backend req = Some (m, r) ->
  (proxyRequest mappings reg backend req).2
  = Answered (mkAnswer (resp_status r) (Relayed (resp_data r))).
Proof.
  unfold relayedResponse, proxyRequest.
  destruct (findMapping mappings (path req)) as [m0|]; [|discriminate].
  destruct (getService reg (serviceName m0)) as [svc|]; [|discriminate].
  destruct (forwardRequest _ _ _ _ _ _ _ _) as [tr [r0|[e|]]]; try discriminate.
  intros H. injection H as _ <-. reflexivity.
Qed.

Lemma rateLimitHeaders_names toISOString h :
  rateLimitHeaders toISOString h !! "x-ratelimit-limit" = Some (decimal (rl_limit h))
  /\ rateLimitHeaders toISOString h !! "x-ratelimit-remaining"
     = Some (decimal (rl_remaining h))
  /\ rateLimitHeaders toISOString h !! "x-ratelimit-reset"
     = Some (toISOString (rl_reset h)).
Proof.
  unfold rateLimitHeaders. split; [|split].
  - apply lookup_insert_eq.
  - rewrite lookup_insert_ne by discriminate. apply lookup_insert_eq.
  - rewrite !lookup_insert_ne by discriminate. apply lookup_insert_eq.
Qed.

(** A header of the limiter after [proxyRequest] has relayed a response:
    the upstream's value when the upstream sent that header, the
    limiter's otherwise. *)
Lemma proxyHeaders_over duration generated mappings reg backend req already k :
  k = "x-ratelimit-limit" \/ k = "x-ratelimit-remaining"
  \/ k = "x-ratelimit-reset" ->
  proxyHeaders duration generated mappings reg backend req already !! k
  = match relayedResponse mappings reg backend req with
    | Some (_, r) =>
        match resp_headers r !! k with
        | Some v => Some v
        | None => already !! k
        end
    | None => already !! k
    end.
Proof.
  intros Hk. unfold proxyHeaders.
  destruct (relayedResponse mappings reg backend req) as [[m r]|]; [|reflexivity].
  assert (P : forall v : string,
            (fun kv : string * string => bool_decide (kv.1 ∉ excludeHeaders)) (k, v)).
  { intros v. cbn [fst]. apply bool_decide_pack.
    destruct Hk as [-> | [-> | ->]]; unfold excludeHeaders;
      rewrite !not_elem_of_cons; repeat split; try discriminate;
      apply not_elem_of_nil. }
  destruct (resp_headers r !! k) as [v|] eqn:E.
  - apply lookup_union_Some_l. apply map_lookup_filter_Some_2; [exact E|apply P].
  - rewrite lookup_union_r by (apply map_lookup_filter_None_2; now left).
    rewrite !lookup_insert_ne by (destruct Hk as [-> | [-> | ->]]; discriminate).
    reflexivity.
Qed.

(** X23. The limiter is charged before anything else is decided: the store
    that the chain leaves is that of the limiter on the inbound request,
    so a request that is then answered 401 or 404 has used one unit of
    its client's budget; a request that the limiter rejects is answered
    with that 429 without a call to [jwt.verify] or to a backend.  The
    three headers of the limiter reach the client with the limiter's
    values on every answer that the gateway makes itself; on a relayed
    response each of them has the value of the upstream's header of that
    name when the upstream sent one, because [proxyRequest] sets the
    upstream's headers after the limiter has set its own. *)
Theorem limiter_is_charged_first
    (toISOString : Z -> string) (duration : Z) (generated : string)
    (jwt_verify jwt_verify' : string -> string -> JsError + JWTPayload)
    (mappings : list RouteMapping) (reg : ServiceRegistry)
    (backend backend' : Z -> NetOutcome) (store : gmap string RateLimitEntry)
    (now : Z) (req : Request) :
  let res := apiChain jwt_verify mappings reg backend store now req in
  let lim := rateLimiter store now req in
  let limiter := rateLimitHeaders toISOString lim.1.2 in
  let seen := chainHeaders toISOString duration generated jwt_verify mappings
                reg backend store now req in
  let relayed := chainRelayed jwt_verify mappings reg backend store now req in
  chain_store res = lim.1.1
  /\ chain_store res !! getClientIdentifier req
     = Some (mkRateLimitEntry
               (match store !! getClientIdentifier req with
                | Some entry => if now >? resetTime entry then 1 else count entry + 1
                | None => 1
                end)
               (rl_reset lim.1.2))
  /\ (forall a,
        lim.2 = Respond a ->
        chain_end res = Answered a
        /\ ans_status a = 429
        /\ sent (chain_trace res) = []
        /\ apiChain jwt_verify' mappings reg backend' store now req = res
        /\ relayed = None)
  /\ (relayed = None -> seen = limiter)
  /\ (forall m r,
        relayed = Some (m, r) ->
        chain_end res
        = Answered (mkAnswer (resp_status r) (Relayed (resp_data r)))
        /\ forall k,
             k = "x-ratelimit-limit" \/ k = "x-ratelimit-remaining"
             \/ k = "x-ratelimit-reset" ->
             seen !! k = match resp_headers r !! k with
                         | Some v => Some v
                         | None => limiter !! k
                         end).
Proof.
  intros res lim limiter seen relayed.
  assert (E : chain_store res = lim.1.1).
  { unfold res, lim, apiChain.
    destruct (rateLimiter store now req) as [[store' hdrs] [req1|a]];
      [|reflexivity].
    destruct (conditionalAuth jwt_verify mappings req1); [|reflexivity].
    now destruct (proxyRequest mappings reg backend req0). }
  split; [exact E|]. split; [|split; [|split]].
  - rewrite E. unfold lim, rateLimiter. rewrite limitRequest_step.
    cbn [fst snd]. unfold verdict. cbn [fst rl_reset]. apply lookup_insert_eq.
  - intros a Ha. unfold res, relayed, apiChain, chainRelayed. fold lim.
    destruct lim as [[store' hdrs] m] eqn:L. cbn [snd] in Ha |- *. subst m.
    cbn [chain_end chain_trace sent]. repeat split.
    change lim with (rateLimiter store now req) in L.
    unfold rateLimiter in L. now apply limitRequest_respond in L.
  - unfold relayed, seen, limiter, chainRelayed, chainHeaders, lim.
    destruct (rateLimiter store now req) as [[store' hdrs] [req1|a]];
      cbn [fst snd]; [|reflexivity].
    destruct (conditionalAuth jwt_verify mappings req1) as [req2|a];
      [|reflexivity].
    unfold proxyHeaders. now intros ->.
  - intros m r. unfold relayed, seen, limiter, chainRelayed, chainHeaders, res,
      apiChain, lim.
    destruct (rateLimiter store now req) as [[store' hdrs] [req1|a]];
      cbn [fst snd]; [|discriminate].
    destruct (conditionalAuth jwt_verify mappings req1) as [req2|a];
      [|discriminate].
    intros R. split.
    + pose proof (relayedResponse_answer _ _ _ _ _ _ R) as A.
      destruct (proxyRequest mappings reg backend req2) as [tr h].
      exact A.
    + intros k Hk. rewrite (proxyHeaders_over _ _ _ _ _ _ _ k Hk). now rewrite R.
Qed.

(** X24. A path that no rule matches is never stopped by the auth gate: with
    no rule the gate runs in optional mode, so a request that passes the
    limiter is answered 404 "Route not found" whatever its credentials,
    valid, invalid or missing, and no backend is called. *)
Theorem unrouted_paths_answer_404
    (jwt_verify : string -> string -> JsError + JWTPayload)
    (mappings : list RouteMapping) (reg : ServiceRegistry)
    (backend : Z -> NetOutcome) (store : gmap string RateLimitEntry)
    (now : Z) (req : Request) :
  findMapping mappings (path req) = None ->
  (rateLimiter store now req).2 = Next req ->
  let res := apiChain jwt_verify mappings reg backend store now req in
  chain_end res
  = Answered (mkAnswer 404
      (JsonError "Route not found"
         ("No service configured for path: " ++ path req)))
  /\ sent (chain_trace res) = [].
Proof.
  intros Hm Hl res. unfold res, apiChain.
  destruct (rateLimiter store now req) as [[store' hdrs] m]. cbn [snd] in Hl.
  subst m. unfold conditionalAuth. rewrite Hm, optionalAuth_next.
  assert (P : forall req2, path req2 = path req ->
            proxyRequest mappings reg backend req2
            = (mkForwardTrace [] [],
               Answered (mkAnswer 404
                 (JsonError "Route not found"
                    ("No service configured for path: " ++ path req))))).
  { intros req2 Hp. unfold proxyRequest. now rewrite Hp, Hm. }
  destruct (verifiedIdentity jwt_verify req) as [d|]; rewrite P by reflexivity;
    now split.
Qed.

Lemma unrouted_paths_answer_404_witness :
  let jwt_verify := fun _ _ : string =>
    inl (mkJsError "TokenExpiredError" "jwt expired") : JsError + JWTPayload in
  let req := mkRequest "/api/payments" "GET" "" {["authorization" := "Bearer old"]}
               (Some "203.0.113.9") None in
  chain_end (apiChain jwt_verify ROUTE_MAPPINGS (newServiceRegistry SERVICES 0)
               (fun _ => NetFailure "ECONNREFUSED" "refused") ∅ 0 req)
  = Answered (mkAnswer 404
      (JsonError "Route not found" "No service configured for path: /api/payments")).
Proof.
  intros jwt_verify req.
  apply (unrouted_paths_answer_404 jwt_verify ROUTE_MAPPINGS
           (newServiceRegistry SERVICES 0)
           (fun _ => NetFailure "ECONNREFUSED" "refused") ∅ 0 req);
    reflexivity.
Defined.

(** ** Instances of the statements above *)

Lemma throws_last_failure_witness :
  let backend := fun a : Z =>
    if a <? 3 then NetFailure "ECONNREFUSED" "connect ECONNREFUSED"
    else NetFailure "ECONNABORTED" "timeout of 5000ms exceeded" in
  (forwardRequest "http://localhost:3000" "GET" "/api/orders" "" ∅
     (Some 5000) (Some 3) backend).2
  = Thrown (Some (networkError "ECONNABORTED" "timeout of 5000ms exceeded")).
Proof.
  intros backend.
  apply (throws_last_failure "http://localhost:3000" "GET" "/api/orders" "" ∅
           (Some 5000) (Some 3) backend).
  right. split; [simpl; lia|]. split; [|reflexivity].
  intros a Ha. simpl in Ha. unfold backend. destruct (a <? 3); discriminate.
Defined.

Lemma unanswered_iff_no_budget_witness :
  let reg := newServiceRegistry
               [mkServiceConfig "order-service" "http://localhost:3000" "/health"
                  (Some 5000) (Some 0)] 0 in
  let req := mkRequest "/api/orders" "GET" "" ∅ None None in
  let backend := fun _ : Z => NetResponse (mkAxiosResponse 200 "" ∅) in
  (proxyRequest ROUTE_MAPPINGS reg backend req).2 = Unhandled
  /\ sent (proxyRequest ROUTE_MAPPINGS reg backend req).1 = [].
Proof.
  intros reg req backend.
  destruct (unanswered_iff_no_budget ROUTE_MAPPINGS reg backend req) as [U S].
  assert (H : (proxyRequest ROUTE_MAPPINGS reg backend req).2 = Unhandled).
  { apply U.
    exists (mkRouteMapping "/api/orders" "order-service" (Some false) (Some true)),
           (mkServiceConfig "order-service" "http://localhost:3000" "/health"
              (Some 5000) (Some 0)).
    split; [reflexivity|]. split; [reflexivity|]. simpl. lia. }
  split; [exact H|exact (S H)].
Defined.

Lemma configured_routes_are_sound_witness :
  findMapping ROUTE_MAPPINGS "/api/orders/17"
  = Some (mkRouteMapping "/api/orders" "order-service" (Some false) (Some true)).
Proof.
  destruct (configured_routes_are_sound "/api/orders/17" 0) as (_ & F & _).
  apply F; [simpl; auto|reflexivity].
Defined.

Lemma status_report_witness :
  let records :=
    [mkHealthStatus "auth-service" healthy (Some 0) 10 None;
     mkHealthStatus "product-service" healthy (Some 25) 35 None;
     mkHealthStatus "order-service" unhealthy None 40 (Some "connect ECONNREFUSED")] in
  0 <= avgResponseTimeOf records <= 25
  /\ detail_responseTime
       (statusDetail (mkHealthStatus "auth-service" healthy (Some 0) 10 None))
     = None.
Proof.
  intros records.
  destruct (status_report records) as (_ & _ & _ & _ & _ & _ & B & Z0).
  split.
  - apply B; [discriminate|].
    intros s t Hs Ht. simpl in Hs.
    repeat destruct Hs as [<-|Hs]; try contradiction; simpl in Ht;
      try discriminate; injection Ht as <-; lia.
  - apply (Z0 (mkHealthStatus "auth-service" healthy (Some 0) 10 None));
      [simpl; auto|reflexivity].
Defined.

Lemma limiter_is_charged_first_witness :
  let toISOString := fun ms : Z => decimal ms in
  let jwt_verify := fun _ _ : string =>
    inl (mkJsError "JsonWebTokenError" "jwt malformed") : JsError + JWTPayload in
  let req := mkRequest "/api/products" "GET" "" ∅ (Some "203.0.113.9") None in
  let upstream := mkAxiosResponse 200 "[]"
                    (<["x-ratelimit-remaining" := "7"]>
                       {["connection" := "keep-alive"]}) in
  let backend := fun _ : Z => NetResponse upstream in
  let reg := newServiceRegistry SERVICES 0 in
  let res := apiChain jwt_verify ROUTE_MAPPINGS reg backend ∅ 1000 req in
  let seen := chainHeaders toISOString 12 "req-1" jwt_verify ROUTE_MAPPINGS reg
                backend ∅ 1000 req in
  chain_store res !! "ip:203.0.113.9" = Some (mkRateLimitEntry 1 901000)
  /\ chain_end res = Answered (mkAnswer 200 (Relayed "[]"))
  /\ seen !! "x-ratelimit-remaining" = Some "7"
  /\ seen !! "x-ratelimit-limit" = Some "100"
  /\ seen !! "connection" = None.
Proof.
  intros toISOString jwt_verify req upstream backend reg res seen.
  destruct (limiter_is_charged_first toISOString 12 "req-1" jwt_verify jwt_verify
              ROUTE_MAPPINGS reg backend backend ∅ 1000 req)
    as (_ & C & _ & _ & R).
  fold res in C. fold seen in R.
  destruct (R (mkRouteMapping "/api/products" "product-service" (Some false) (Some false))
              upstream eq_refl) as (A & H).
  split; [exact C|]. split; [exact A|].
  split; [exact (H "x-ratelimit-remaining" (or_intror (or_introl eq_refl)))|].
  split; [exact (H "x-ratelimit-limit" (or_introl eq_refl))|].
  reflexivity.
Defined.
